(** * Verification of the shared graph utilities of advent-2023

    This development embeds two parts of the [advent_2023] library crate:

    - [collect::DisjointSet] (src/src/collect.rs): union-find over a roster
      of hashable elements, with union by size and path compression;
    - [pathfinding::Graph] (declared in src/src/lib.rs, used by the day 10,
      17 and 25 binaries): Dijkstra's search and the all-destinations
      breadth-first search over a caller-supplied neighbor function.

    Rust panics ([expect], out-of-range indexing, a missing [HashMap] key)
    are modelled as [None]. *)

From Stdlib Require Import ZArith Lia Ascii.
From stdpp Require Import base list gmap.

Open Scope Z_scope.

(** ** usize *)

Definition usize_max : Z := 2 ^ 64 - 1.

(** [NonZeroUsize::checked_add]: [None] on overflow. *)
Definition checked_add (a b : Z) : option Z :=
  if a + b <=? usize_max then Some (a + b) else None.

(** ** The disjoint set *)

Module DS.
Section DisjointSet.
Context {E : Type} `{Countable E}.

(** An entry of [parents]: the parent index, and the size of the set when
    the entry is a root ([Option<NonZeroUsize>]). *)
Abbreviation entry := (nat * option Z)%type.

Record DisjointSet := mkDS {
  nodes : list E;
  reverse : gmap E nat;
  parents : list entry;
}.

(** [nodes.iter().enumerate().map(|(i, n)| (n.clone(), i)).collect()]:
    the entries are inserted in order, a later duplicate overwrites. *)
Fixpoint build_reverse (i : nat) (xs : list E) (m : gmap E nat) : gmap E nat :=
  match xs with
  | [] => m
  | x :: xs' => build_reverse (S i) xs' (<[x := i]> m)
  end.

(** [DisjointSet::create] *)
Definition create (elements : list E) : DisjointSet :=
  {| nodes := elements;
     reverse := build_reverse 0 elements ∅;
     parents := map (fun n => (n, Some 1)) (seq 0 (length elements)) |}.

(** The state monad over [parents], where [None] is a panic. *)
Definition M (A : Type) := list entry -> option (A * list entry).

Definition ret {A} (a : A) : M A := fun P => Some (a, P).
Definition bind {A B} (m : M A) (k : A -> M B) : M B :=
  fun P => match m P with Some (a, P') => k a P' | None => None end.
Definition panic {A} : M A := fun _ => None.

(** [self.parents[i]]: panics out of range. *)
Definition read (i : nat) : M entry :=
  fun P => match P !! i with Some v => Some (v, P) | None => None end.

(** [self.parents[i] = v]: panics out of range. *)
Definition write (i : nat) (v : entry) : M unit :=
  fun P => if decide (i < length P)%nat then Some (tt, <[i := v]> P) else None.

Notation "'let!' x ':=' m 'in' k" := (bind m (fun x => k))
  (at level 200, x name, m at level 100, k at level 200).
Notation "'do!' m 'in' k" := (bind m (fun _ => k))
  (at level 200, m at level 100, k at level 200).

(** [DisjointSet::find_idx]. The Rust function recurses once per parent
    link; the recursion depth is bounded by [fuel], which [find_idx] sets
    to the number of entries (running out models a stack overflow). *)
Fixpoint find_idx_fuel (fuel : nat) (idx : nat) : M (nat * Z) :=
  match fuel with
  | O => panic
  | S fuel' =>
      let! parent := read idx in
      if decide (parent.1 = idx) then
        match parent.2 with
        | Some s => ret (parent.1, s)
        | None => panic (* expect("Root size is known") *)
        end
      else
        let! root := find_idx_fuel fuel' parent.1 in
        do! write idx (root.1, None) in
        ret root
  end.

Definition find_idx (idx : nat) : M (nat * Z) :=
  fun P => find_idx_fuel (length P) idx P.

(** [DisjointSet::union_idx] *)
Definition union_idx (a b : nat) : M bool :=
  let! a := find_idx a in
  let! b := find_idx b in
  if decide (a = b) then ret false
  else
    let '(a, b) := if decide (a.2 < b.2) then (b, a) else (a, b) in
    do! write b.1 (a.1, None) in
    match checked_add a.2 b.2 with
    | Some s => do! write a.1 (a.1, Some s) in ret true
    | None => panic (* expect("Too big") *)
    end.

Definition with_parents (ds : DisjointSet) (P' : list entry) : DisjointSet :=
  {| nodes := nodes ds; reverse := reverse ds; parents := P' |}.

(** Running a parents-level operation on the whole structure. *)
Definition lift {A} (m : M A) (ds : DisjointSet) : option (A * DisjointSet) :=
  match m (parents ds) with
  | Some (a, P') => Some (a, with_parents ds P')
  | None => None
  end.

(** [self.reverse[e]]: indexing a [HashMap] panics on a missing key. *)
Definition index_of (ds : DisjointSet) (e : E) : option nat := reverse ds !! e.

(** [DisjointSet::find] *)
Definition find (e : E) (ds : DisjointSet) : option (E * DisjointSet) :=
  i ← index_of ds e;
  '(r, ds') ← lift (find_idx i) ds;
  x ← nodes ds' !! r.1;
  Some (x, ds').

(** [DisjointSet::set_size] *)
Definition set_size (e : E) (ds : DisjointSet) : option (Z * DisjointSet) :=
  i ← index_of ds e;
  '(r, ds') ← lift (find_idx i) ds;
  Some (r.2, ds').

(** [DisjointSet::union] *)
Definition union (a b : E) (ds : DisjointSet) : option (bool * DisjointSet) :=
  ia ← index_of ds a;
  ib ← index_of ds b;
  lift (union_idx ia ib) ds.

(** The indices [k] with [parents[k].0 == k], in order. *)
Fixpoint root_idxs (k : nat) (P : list entry) : list nat :=
  match P with
  | [] => []
  | (p, _) :: P' => if decide (p = k) then k :: root_idxs (S k) P' else root_idxs (S k) P'
  end.

(** [DisjointSet::roots]: takes [&self]; [&self.nodes[k]] panics out of range. *)
Definition roots (ds : DisjointSet) : option (list E) :=
  mapM (fun k => nodes ds !! k) (root_idxs 0 (parents ds)).

(** Observations used to state the properties (they run [find_idx] and
    discard the compressed state). *)
Definition root_of (ds : DisjointSet) (i : nat) : option nat :=
  (fun r => r.1.1) <$> find_idx i (parents ds).

Definition find_root (ds : DisjointSet) (e : E) : option nat :=
  i ← index_of ds e; root_of ds i.

(** [roots().iter().map(|r| sets.set_size(r)).sum()], threading the state. *)
Fixpoint sum_sizes (es : list E) (ds : DisjointSet) : option Z :=
  match es with
  | [] => Some 0
  | e :: es' =>
      '(s, ds1) ← set_size e ds;
      t ← sum_sizes es' ds1;
      Some (s + t)
  end.

Definition total_size (ds : DisjointSet) : option Z :=
  rs ← roots ds; sum_sizes rs ds.

(** A sequence of [union] calls, threading the state. *)
Fixpoint run_unions (ops : list (E * E)) (ds : DisjointSet) : option DisjointSet :=
  match ops with
  | [] => Some ds
  | (a, b) :: ops' => '(_, ds1) ← union a b ds; run_unions ops' ds1
  end.

(** The states reachable from [create xs]. [roots] takes [&self] and
    leaves the state as it is. *)
Inductive reachable (xs : list E) : DisjointSet -> Prop :=
| reachable_create : reachable xs (create xs)
| reachable_find ds e x ds' :
    reachable xs ds -> find e ds = Some (x, ds') -> reachable xs ds'
| reachable_set_size ds e s ds' :
    reachable xs ds -> set_size e ds = Some (s, ds') -> reachable xs ds'
| reachable_union ds a b u ds' :
    reachable xs ds -> union a b ds = Some (u, ds') -> reachable xs ds'.

End DisjointSet.
End DS.

(** ** The [tests::disjoint] scenario, step by step *)

Module DisjointTest.
Import DS.

Abbreviation DSn := (@DisjointSet nat _ _).

(** [set_size] of each element in turn, threading the state. *)
Fixpoint set_sizes (es : list nat) (ds : DSn) : option (list Z * DSn) :=
  match es with
  | [] => Some ([], ds)
  | e :: es' =>
      '(s, ds1) ← set_size e ds;
      '(ss, ds2) ← set_sizes es' ds1;
      Some (s :: ss, ds2)
  end.

(** The body of [tests::disjoint], extended with the sizes of all eight
    singletons, returning every observed value. *)
Definition disjoint_scenario :=
  let ds := create [1;2;3;4;5;6;7;8]%nat in
  r0 ← roots ds;
  '(sizes0, ds) ← set_sizes [1;2;3;4;5;6;7;8]%nat ds;
  '(u1, ds) ← union 1%nat 8%nat ds;
  '(s1, ds) ← set_size 1%nat ds;
  '(u2, ds) ← union 1%nat 8%nat ds;
  '(_, ds) ← union 3%nat 4%nat ds;
  '(_, ds) ← union 2%nat 6%nat ds;
  '(_, ds) ← union 6%nat 5%nat ds;
  '(_, ds) ← union 5%nat 1%nat ds;
  r1 ← roots ds;
  '(a, ds) ← set_size 1%nat ds;
  '(b, ds) ← set_size 4%nat ds;
  '(c, ds) ← set_size 7%nat ds;
  Some (length r0, sizes0, u1, s1, u2, length r1, a, b, c).

End DisjointTest.
(** ** The parent forest *)

Module Forest.
Import DS.

Abbreviation entry := (nat * option Z)%type.

(** [reachesN P i r k]: following parent links from [i] reaches the
    self-parented index [r] after [k] links. *)
Inductive reachesN (P : list entry) : nat -> nat -> nat -> Prop :=
| RN_root i o : P !! i = Some (i, o) -> reachesN P i i 0
| RN_step i p o r k : P !! i = Some (p, o) -> p <> i -> reachesN P p r k ->
    reachesN P i r (S k).

(** Number of indices below [n] whose root is [r]. *)
Fixpoint count (rt : nat -> nat) (r n : nat) : nat :=
  match n with
  | O => O
  | S n' => count rt r n' + (if decide (rt n' = r) then 1 else 0)
  end.

(** The invariant of [parents], for the root assignment [rt]. *)
Record wf (P : list entry) (rt : nat -> nat) : Prop := {
  wf_len : Z.of_nat (length P) <= usize_max;
  wf_range : forall i p o, P !! i = Some (p, o) -> (p < length P)%nat;
  wf_root : forall i p o, P !! i = Some (p, o) -> (p = i <-> is_Some o);
  wf_reach : forall i, (i < length P)%nat ->
    exists k, reachesN P i (rt i) k /\ (k < count rt (rt i) (length P))%nat;
  wf_size : forall r s, P !! r = Some (r, Some s) -> s = Z.of_nat (count rt r (length P));
}.

(** [P'] is [P] with some non-root entries pointed straight at their root. *)
Definition compressed (P : list entry) (rt : nat -> nat) (P' : list entry) : Prop :=
  length P' = length P /\
  forall j, P' !! j = P !! j \/
    (exists p o, P !! j = Some (p, o) /\ p <> j /\ P' !! j = Some (rt j, None)).

(** The root assignment after the root [y] is attached under [x]. *)
Definition merge (rt : nat -> nat) (y x : nat) : nat -> nat :=
  fun j => if decide (rt j = y) then x else rt j.

(** The parents after [union_idx] attached the root [y] under the root [x]. *)
Definition merged (P : list entry) (x y : nat) (sx sy : Z) : list entry :=
  <[x := (x, Some (sx + sy))]> (<[y := (x, None)]> P).

End Forest.

(** The invariant of the reachable states. *)
Module UFInv.
Import DS Forest.
Section S.
Context {E : Type} `{Countable E}.

(** Index [i] is the one [reverse] gives for its own element. *)
Definition canon (ds : @DisjointSet E _ _) (i : nat) : Prop :=
  exists e, nodes ds !! i = Some e /\ reverse ds !! e = Some i.

Record Inv (xs : list E) (ds : DisjointSet) (rt : nat -> nat) : Prop := {
  inv_nodes : nodes ds = xs;
  inv_reverse : reverse ds = build_reverse 0 xs ∅;
  inv_length : length (parents ds) = length xs;
  inv_wf : wf (parents ds) rt;
  inv_canon : forall i, (i < length xs)%nat -> canon ds i -> canon ds (rt i);
}.

End S.
End UFInv.

(** ** Pathfinding

    The [pathfinding] module is declared in src/src/lib.rs but its source
    file is not part of the repository; what follows is modelled from the
    spec and from the way the day 10, 17 and 25 binaries call it. *)
Module PF.

(** Modelled from the spec: [Edge::new(weight, source, dest)]. A weight is
    kept as an integer; the searches that add weights check each sum
    against the range of the cost type (see [checked_add]). *)
Record Edge (N : Type) := mkEdge { weight : Z; source : N; dest : N }.
Arguments mkEdge {N} _ _ _.
Arguments weight {N} _.
Arguments source {N} _.
Arguments dest {N} _.

Section Graph.
Context {N : Type} `{Countable N}.
(** Modelled from the spec: a [Graph] is given by its [neighbors]
    function, the edges out of a node. *)
Context (neighbors : N -> list (Edge N)).

(** Modelled from the spec: a path is a sequence of edges in traversal
    order, each one out of the node the previous one led to. *)
Fixpoint is_path (s : N) (p : list (Edge N)) (t : N) : Prop :=
  match p with
  | [] => s = t
  | e :: p' => e ∈ neighbors s /\ is_path (dest e) p' t
  end.

(** Modelled from the spec: the total cost of a path. *)
Fixpoint path_cost (p : list (Edge N)) : Z :=
  match p with
  | [] => 0
  | e :: p' => weight e + path_cost p'
  end.

(** Modelled from the spec: a route as the callers read it, the nodes
    from [a] to [t], each one joined to the next by an edge. *)
Fixpoint route_from (a : N) (rest : list N) (t : N) : Prop :=
  match rest with
  | [] => a = t
  | b :: rest' => (exists e, e ∈ neighbors a /\ dest e = b) /\ route_from b rest' t
  end.

Definition is_route (s : N) (r : list N) (t : N) : Prop :=
  match r with
  | [] => False
  | a :: rest => a = s /\ route_from a rest t
  end.

(** A finite set of nodes closed under [neighbors]. *)
Definition closed (L : list N) : Prop :=
  Forall (fun n => Forall (fun e => dest e ∈ L) (neighbors n)) L.

(** The edges out of the nodes of [L] have non-negative weights. *)
Definition nonneg (L : list N) : Prop :=
  Forall (fun n => Forall (fun e => 0 <= weight e) (neighbors n)) L.

(** The edges out of the nodes of [L] weigh at most [wmax]. *)
Definition bounded (L : list N) (wmax : Z) : Prop :=
  Forall (fun n => Forall (fun e => weight e <= wmax) (neighbors n)) L.

(** *** Dijkstra's search ([Graph::dijkstras], the spec's [shortest_path]) *)

(** A frontier entry: the accumulated cost, the node and the path to it. *)
Abbreviation fentry := (Z * N * list (Edge N))%type.

(** The range [cost_min ..= cost_max] of the cost type. *)
Context (cost_min cost_max : Z).

(** Modelled from the spec: a path cost sum is checked, and an overflow is
    fatal ([None], a panic). *)
Definition checked_add (c w : Z) : option Z :=
  if decide (cost_min <= c + w <= cost_max) then Some (c + w) else None.

(** Modelled from the spec: the entries pushed when [n], reached by [p] at
    cost [c], is expanded, one per edge out of [n]; an overflowing cost
    aborts the search. *)
Definition expand (c : Z) (n : N) (p : list (Edge N)) : option (list fentry) :=
  mapM (fun e => c' ← checked_add c (weight e); Some (c', dest e, p ++ [e]))
       (neighbors n).

Definition minimal (c : Z) (F : list fentry) : Prop :=
  forall y, y ∈ F -> c <= y.1.1.

(** How a search ends: it returns a result, or it panics on an overflow. *)
Inductive outcome :=
| Returns (r : option (list (Edge N)))
| Panics.

(** Modelled from the spec: the search loop from a visited set and a
    frontier. An entry of minimal cost is popped, ties broken arbitrarily;
    an entry of a visited node is dropped; a goal node ends the search with
    its path; otherwise the node is visited and its edges pushed, unless a
    cost overflows. An empty frontier gives [None]. *)
Inductive dijkstras_from (goal : N -> bool) : gset N -> list fentry -> outcome -> Prop :=
| DJ_empty V : dijkstras_from goal V [] (Returns None)
| DJ_skip V F1 F2 c n p r :
    minimal c (F1 ++ (c, n, p) :: F2) -> n ∈ V ->
    dijkstras_from goal V (F1 ++ F2) r ->
    dijkstras_from goal V (F1 ++ (c, n, p) :: F2) r
| DJ_goal V F1 F2 c n p :
    minimal c (F1 ++ (c, n, p) :: F2) -> n ∉ V -> goal n = true ->
    dijkstras_from goal V (F1 ++ (c, n, p) :: F2) (Returns (Some p))
| DJ_expand V F1 F2 c n p es r :
    minimal c (F1 ++ (c, n, p) :: F2) -> n ∉ V -> goal n = false ->
    expand c n p = Some es ->
    dijkstras_from goal ({[n]} ∪ V) (F1 ++ F2 ++ es) r ->
    dijkstras_from goal V (F1 ++ (c, n, p) :: F2) r
| DJ_overflow V F1 F2 c n p :
    minimal c (F1 ++ (c, n, p) :: F2) -> n ∉ V -> goal n = false ->
    expand c n p = None ->
    dijkstras_from goal V (F1 ++ (c, n, p) :: F2) Panics.

(** [dijkstras(start, goal)] ends with [r]. *)
Definition dijkstras (start : N) (goal : N -> bool) (r : outcome) : Prop :=
  dijkstras_from goal ∅ [(0, start, [])] r.

(** The steps of the same loop that neither finish nor panic, on a state
    made of the visited set and the frontier: a pop that drops a visited
    node, and a pop that visits a node. *)
Inductive dj_step (goal : N -> bool) : gset N * list fentry -> gset N * list fentry -> Prop :=
| DS_skip V F1 F2 c n p :
    minimal c (F1 ++ (c, n, p) :: F2) -> n ∈ V ->
    dj_step goal (V, F1 ++ (c, n, p) :: F2) (V, F1 ++ F2)
| DS_expand V F1 F2 c n p es :
    minimal c (F1 ++ (c, n, p) :: F2) -> n ∉ V -> goal n = false ->
    expand c n p = Some es ->
    dj_step goal (V, F1 ++ (c, n, p) :: F2) ({[n]} ∪ V, F1 ++ F2 ++ es).

(** *** All-destinations breadth-first search ([Graph::bfs_all]) *)

(** Modelled from the spec and its callers: the routes found so far map a
    node to the nodes from the start to it (the callers read them with
    [windows(2)] and [len() - 1]); the edges out of the current node, whose
    route is [route], are scanned in order and each undiscovered
    destination gets the route extended by itself and joins the back of
    the queue. *)
Fixpoint bfs_visit (route : list N) (es : list (Edge N))
    (m : gmap N (list N)) (q : list N) : gmap N (list N) * list N :=
  match es with
  | [] => (m, q)
  | e :: es' =>
      match m !! dest e with
      | Some _ => bfs_visit route es' m q
      | None => bfs_visit route es' (<[dest e := route ++ [dest e]]> m) (q ++ [dest e])
      end
  end.

(** Modelled from the spec: the loop pops the front of the queue until it
    is empty (a node without a route would panic). *)
Inductive bfs_loop : gmap N (list N) -> list N -> gmap N (list N) -> Prop :=
| BL_done m : bfs_loop m [] m
| BL_step m cur q route m' :
    m !! cur = Some route ->
    bfs_loop (bfs_visit route (neighbors cur) m q).1
             (bfs_visit route (neighbors cur) m q).2 m' ->
    bfs_loop m (cur :: q) m'.

(** [bfs_all(start)] returns [m]. *)
Definition bfs_all (start : N) (m : gmap N (list N)) : Prop :=
  bfs_loop {[start := [start]]} [start] m.

End Graph.

(** Graphs on [nat] used below: the infinite chain [n -> n + 1] of unit
    edges, the same chain with edges of weight 0, and a small diamond. *)
Definition chain (n : nat) : list (Edge nat) := [mkEdge 1 n (S n)].

Definition chain0 (n : nat) : list (Edge nat) := [mkEdge 0 n (S n)].

(** The range of [i32], the weight type of the day 17 caller. *)
Definition i32_min : Z := - 2 ^ 31.
Definition i32_max : Z := 2 ^ 31 - 1.

(** A finite path [0 -> 1 -> 2] whose second edge overflows [i32]. *)
Definition heavy (n : nat) : list (Edge nat) :=
  match n with
  | 0%nat => [mkEdge i32_max 0 1]%nat
  | 1%nat => [mkEdge 1 1 2]%nat
  | _ => []
  end.

Definition tiny (n : nat) : list (Edge nat) :=
  match n with
  | 0%nat => [mkEdge 2 0 1; mkEdge 5 0 2]%nat
  | 1%nat => [mkEdge 1 1 2]%nat
  | _ => []
  end.

End PF.

(** The invariants of the two pathfinding loops. *)
Module PFInv.
Import PF.
Section S.
Context {N : Type} `{Countable N}.
Context (neighbors : N -> list (Edge N)).

(** Dijkstra's loop: every entry is a path of its cost; the start is
    visited or has an entry of cost at most 0; every edge out of a visited
    node leads to a visited node or has an entry no dearer than any path
    through it; no visited node is a goal. *)
Record DInv (goal : N -> bool) (start : N) (V : gset N)
    (F : list (Z * N * list (Edge N))) : Prop := {
  di_entries : forall c n p, (c, n, p) ∈ F ->
    is_path neighbors start p n /\ path_cost p = c;
  di_start : start ∈ V \/ exists c p, (c, start, p) ∈ F /\ c <= 0;
  di_edge : forall v e q, v ∈ V -> e ∈ neighbors v -> is_path neighbors start q v ->
    dest e ∈ V \/ exists c p, (c, dest e, p) ∈ F /\ c <= path_cost q + weight e;
  di_goal : forall v, v ∈ V -> goal v = false;
}.

(** The length of the route found for [u] (0 when there is none). *)
Definition rlen (m : gmap N (list N)) (u : N) : nat :=
  from_option length 0%nat (m !! u).

(** The breadth-first loop: every route found is a route to its key and
    no longer than any path to it; the start and every queued node have a
    route; a node with a route is queued or has all its neighbors
    discovered; the queue holds routes of length [k] followed by routes of
    length [k + 1]. *)
Record BInv (start : N) (m : gmap N (list N)) (Q : list N) : Prop := {
  bi_route : forall t r, m !! t = Some r -> is_route neighbors start r t;
  bi_start : is_Some (m !! start);
  bi_queue : forall u, u ∈ Q -> is_Some (m !! u);
  bi_done : forall v r, m !! v = Some r ->
    v ∈ Q \/ forall e, e ∈ neighbors v -> is_Some (m !! dest e);
  bi_short : forall t r q, m !! t = Some r -> is_path neighbors start q t ->
    (length r <= S (length q))%nat;
  bi_layers : exists k A B, Q = A ++ B /\ (forall u, u ∈ A -> rlen m u = k) /\
    (forall u, u ∈ B -> rlen m u = S k) /\ (A = [] -> B = []);
}.

End S.
End PFInv.

(** ** Observing the partition *)

Module UFObs.
Import DS.
Section S.
Context {E : Type} `{Countable E}.

(** [sets.find(&x).clone() == sets.find(&y).clone()], the two calls made
    in turn on the state; a panic reads as [false]. *)
Definition same_set (ds : @DisjointSet E _ _) (x y : E) : bool :=
  match find x ds with
  | Some (rx, ds1) =>
      match find y ds1 with
      | Some (ry, _) => bool_decide (rx = ry)
      | None => false
      end
  | None => false
  end.

End S.
End UFObs.

(** ** [collect::MoreItertools] and [collect::MoreIntoIterator] *)

Module Collect.

(** [anyhow::Result] *)
Inductive result (T Er : Type) : Type :=
| Ok (t : T)
| Err (e : Er).
Arguments Ok {T Er} _.
Arguments Err {T Er} _.

(** [Itertools::exactly_one] (itertools crate), over the elements the
    iterator yields: on failure the [ExactlyOneError] keeps the elements
    already taken (none, or the first two) and the rest of the iterator. *)
Definition exactly_one {A : Type} (it : list A) : result A (list A * list A) :=
  match it with
  | [] => Err ([], [])
  | first :: it' =>
      match it' with
      | [] => Ok first
      | second :: rest => Err ([first; second], rest)
      end
  end.

(** Iterating an [ExactlyOneError]: the elements taken, then the rest. *)
Definition error_elements {A : Type} (e : list A * list A) : list A := e.1 ++ e.2.

(** [MoreItertools::drain_only]: the error is the message
    ["Unexpected contents: {:?}"] of the collected [Vec], modelled by that
    [Vec]. *)
Definition drain_only {A : Type} (it : list A) : result A (list A) :=
  match exactly_one it with
  | Ok x => Ok x
  | Err e => Err (error_elements e)
  end.

(** [MoreIntoIterator::take_only]: [self.into_iter().drain_only()]. *)
Definition take_only {A : Type} (c : list A) : result A (list A) :=
  drain_only c.

End Collect.

(** ** The day 10 binary (src/src/bin/10/main.rs) *)

Module Day10.
Import Collect.

(** A [char] as its Unicode scalar value. *)
Abbreviation char := Z.

Definition char_of (a : Ascii.ascii) : char := Z.of_nat (Ascii.nat_of_ascii a).

Inductive Pipe :=
| Vertical | Horizontal | NorthEast | NorthWest | SouthWest | SouthEast | Start.

(** [Pipe::to_char], the character [Display] writes: box-drawing code
    points U+2551, U+2550, U+255A, U+255D, U+2557, U+2554, U+256C. *)
Definition to_char (p : Pipe) : char :=
  match p with
  | Vertical => 0x2551
  | Horizontal => 0x2550
  | NorthEast => 0x255A
  | NorthWest => 0x255D
  | SouthWest => 0x2557
  | SouthEast => 0x2554
  | Start => 0x256C
  end.

(** [impl TryFrom<char> for Pipe]; the error carries the offending
    character ([bail!("invalid: {:?}", value)]). *)
Definition try_from (value : char) : result Pipe char :=
  if decide (value = char_of "|"%char) then Ok Vertical
  else if decide (value = char_of "-"%char) then Ok Horizontal
  else if decide (value = char_of "L"%char) then Ok NorthEast
  else if decide (value = char_of "J"%char) then Ok NorthWest
  else if decide (value = char_of "7"%char) then Ok SouthWest
  else if decide (value = char_of "F"%char) then Ok SouthEast
  else if decide (value = char_of "S"%char) then Ok Start
  else Err value.

(** The error of [Pipe::from_str]: from [drain_only] or from [try_into]. *)
Inductive PipeError :=
| Contents (cs : list char)
| Invalid (c : char).

(** [impl FromStr for Pipe]: [s.chars().drain_only()?.try_into()], over
    the characters of [s]. *)
Definition from_str (s : list char) : result Pipe PipeError :=
  match drain_only s with
  | Err cs => Err (Contents cs)
  | Ok c =>
      match try_from c with
      | Ok p => Ok p
      | Err v => Err (Invalid v)
      end
  end.

Section Loop.
Context {N : Type} `{Countable N}.
(** [Map::neighbors] needs the [euclid] module, which is not part of the
    repository; [loop_members] is embedded over any neighbor function,
    [None] being a panic (its [expect("Missing")] or [start_type]). *)
Context (neighbors : N -> option (list (PF.Edge N))).

(** The inner [for] loop of [Map::loop_members]: each destination not in
    [seen] is pushed at the back of [frontier]. *)
Fixpoint push_unseen (seen : gset N) (es : list (PF.Edge N)) (frontier : list N) : list N :=
  match es with
  | [] => frontier
  | e :: es' =>
      if decide (PF.dest e ∈ seen) then push_unseen seen es' frontier
      else push_unseen seen es' (frontier ++ [PF.dest e])
  end.

(** The [while let Some(current) = frontier.pop_front()] loop of
    [Map::loop_members], from [seen] and [frontier] to its result ([None]
    is a panic). *)
Inductive members_loop : gset N -> list N -> option (gset N) -> Prop :=
| ML_done seen : members_loop seen [] (Some seen)
| ML_panic seen current frontier :
    neighbors current = None ->
    members_loop seen (current :: frontier) None
| ML_step seen current frontier es r :
    neighbors current = Some es ->
    members_loop ({[current]} ∪ seen) (push_unseen ({[current]} ∪ seen) es frontier) r ->
    members_loop seen (current :: frontier) r.

(** [Map::loop_members] returns [r]. *)
Definition loop_members (start : N) (r : option (gset N)) : Prop :=
  members_loop ∅ [start] r.

(** The nodes reachable from [s] along edges that [neighbors] returns. *)
Inductive reaches (s : N) : N -> Prop :=
| reaches_refl : reaches s s
| reaches_step n es e : reaches s n -> neighbors n = Some es -> e ∈ es ->
    reaches s (PF.dest e).

End Loop.

(** [Iterator::max] over [usize]. *)
Fixpoint max_opt (l : list nat) : option nat :=
  match l with
  | [] => None
  | x :: l' =>
      match max_opt l' with
      | Some y => Some (Nat.max x y)
      | None => Some x
      end
  end.

(** [Map::loop_distance], given the map [bfs_all(&self.start)] returned:
    [.max().expect("Non-empty") - 1], the subtraction panicking below 0. *)
Definition loop_distance {N : Type} `{Countable N} (bfs_routes : gmap N (list N)) : option nat :=
  match max_opt (map (fun kv => length kv.2) (map_to_list bfs_routes)) with
  | None => None
  | Some O => None
  | Some (S d) => Some d
  end.

(** A graph on [nat] used below: 0 -> 1, 0 -> 2, 1 -> 3, 2 -> 3 and
    3 -> 0, with [neighbors] panicking on every other node; node 3 is
    queued twice. *)
Definition diamond (n : nat) : option (list (PF.Edge nat)) :=
  match n with
  | 0%nat => Some [PF.mkEdge 1 0 1; PF.mkEdge 1 0 2]%nat
  | 1%nat => Some [PF.mkEdge 1 1 3]%nat
  | 2%nat => Some [PF.mkEdge 1 2 3]%nat
  | 3%nat => Some [PF.mkEdge 1 3 0]%nat
  | _ => None
  end.

End Day10.

(** The invariant of the [loop_members] loop: every node seen or queued is
    reachable, the start is seen or queued, and every seen node has its
    neighbors, each seen or queued. *)
Module Day10Inv.
Import Day10.
Section S.
Context {N : Type} `{Countable N}.
Context (neighbors : N -> option (list (PF.Edge N))) (start : N).

Record MInv (seen : gset N) (frontier : list N) : Prop := {
  mi_reach : forall x, x ∈ seen \/ x ∈ frontier -> reaches neighbors start x;
  mi_start : start ∈ seen \/ start ∈ frontier;
  mi_closed : forall n, n ∈ seen -> exists es, neighbors n = Some es /\
    forall e, e ∈ es -> PF.dest e ∈ seen \/ PF.dest e ∈ frontier;
}.

End S.
End Day10Inv.

(** ** The day 25 graph (src/src/bin/25/main.rs) *)

Module Day25.
Section Components.
(** A node, an [Rc<str>]: interning shares the allocation of equal names,
    which no comparison observes. *)
Context {N : Type} `{Countable N}.

(** [struct Components { edges: HashMap<Rc<str>, Vec<Rc<str>>> }] *)
Record Components := mkComponents { edges : gmap N (list N) }.

(** [Components::intern]: the stored key if the node is known, otherwise
    the node, inserted with no edges. *)
Definition intern (node : N) (c : Components) : N * Components :=
  match edges c !! node with
  | Some _ => (node, c)
  | None => (node, mkComponents (<[node := []]> (edges c)))
  end.

(** [self.edges.get_mut(&k).expect("Interned").push(v)] *)
Definition push_edge (k v : N) (c : Components) : option Components :=
  match edges c !! k with
  | Some l => Some (mkComponents (<[k := l ++ [v]]> (edges c)))
  | None => None
  end.

(** The inner loop of [Components::create], over the destinations of
    [source]. *)
Fixpoint create_dests (source : N) (dests : list N) (c : Components) : option Components :=
  match dests with
  | [] => Some c
  | dest :: dests' =>
      let '(dest, c) := intern dest c in
      c ← push_edge source dest c;
      c ← push_edge dest source c;
      create_dests source dests' c
  end.

(** The outer loop of [Components::create], over the entries of
    [connections] in the [HashMap]'s iteration order. *)
Fixpoint create_from (connections : list (N * list N)) (c : Components) : option Components :=
  match connections with
  | [] => Some c
  | (source, dests) :: connections' =>
      let '(source, c) := intern source c in
      c ← create_dests source dests c;
      create_from connections' c
  end.

(** [Components::create] *)
Definition create (connections : list (N * list N)) : option Components :=
  create_from connections (mkComponents ∅).

(** [self.edges.get(source)], flattened: no destinations for an unknown
    node. *)
Definition dests_of (c : Components) (source : N) : list N :=
  default [] (edges c !! source).

(** [impl Graph for Components]: [neighbors] *)
Definition neighbors (c : Components) (source : N) : list (PF.Edge N) :=
  map (fun d => PF.mkEdge 1 source d) (dests_of c source).

(** [dirs.iter().position(|v| v.as_ref() == dest)] *)
Fixpoint position (dest : N) (dirs : list N) : option nat :=
  match dirs with
  | [] => None
  | v :: dirs' => if decide (v = dest) then Some O else S <$> position dest dirs'
  end.

(** [Vec::swap_remove]: the element at [index], with the last element
    moved into its place; panics when [index] is out of range. *)
Definition swap_remove {A : Type} (l : list A) (index : nat) : option (A * list A) :=
  match l !! index, last l with
  | Some v, Some z => Some (v, take (length l - 1) (<[index := z]> l))
  | _, _ => None
  end.

(** The closure [rm_dir] of [Components::remove_edge]: the panics of
    [expect("No edge")], [expect("No idx")] and [assert_eq!] are [None]. *)
Definition rm_dir (source dest : N) (c : Components) : option Components :=
  dirs ← edges c !! source;
  idx ← position dest dirs;
  '(removed, dirs') ← swap_remove dirs idx;
  if decide (removed = dest) then Some (mkComponents (<[source := dirs']> (edges c)))
  else None.

(** [Components::remove_edge] *)
Definition remove_edge (source dest : N) (c : Components) : option Components :=
  c1 ← rm_dir source dest c;
  rm_dir dest source c1.

(** [remove_edges]: [remove_edge] on each pair, in order. *)
Fixpoint remove_edges (es : list (N * N)) (c : Components) : option Components :=
  match es with
  | [] => Some c
  | (source, dest) :: es' =>
      c1 ← remove_edge source dest c;
      remove_edges es' c1
  end.

(** Observations used to state the properties: how often [x] occurs in a
    list, and how often [b] is listed under the key [a] in [connections]. *)
Definition occurrences (x : N) (l : list N) : nat := length (filter (fun y => y = x) l).

(** How often the pair [(a, b)] occurs in a list of pairs. *)
Definition pairs (es : list (N * N)) (a b : N) : nat :=
  length (filter (fun e => e = (a, b)) es).

Fixpoint listed (connections : list (N * list N)) (a b : N) : nat :=
  match connections with
  | [] => O
  | (s, ds) :: connections' =>
      ((if decide (s = a) then occurrences b ds else O) + listed connections' a b)%nat
  end.

End Components.
Arguments Components N {_ _}.
End Day25.

Module ForestFacts.
Import DS Forest.

Lemma reachesN_det P i r k r' k' :
  reachesN P i r k -> reachesN P i r' k' -> r = r' /\ k = k'.
Proof.
  intros H; revert r' k'; induction H as [i o Hi|i p o r k Hi Hp H IH];
    intros r' k' H'; destruct H' as [i' o' Hi'|i' p' o' r'' k'' Hi' Hp' H'];
    try (split; congruence); try congruence.
  rewrite Hi in Hi'; injection Hi'; intros; subst.
  destruct (IH _ _ H'); subst; auto.
Qed.

Lemma reachesN_target P i r k : reachesN P i r k -> exists o, P !! r = Some (r, o).
Proof. induction 1; eauto. Qed.

Lemma reachesN_lt P i r k : reachesN P i r k -> (i < length P)%nat.
Proof. destruct 1; eapply lookup_lt_Some; eauto. Qed.

Lemma count_le rt r n : (count rt r n <= n)%nat.
Proof. induction n; simpl; [lia|]. case_decide; lia. Qed.

Lemma count_pos rt r n j : (j < n)%nat -> rt j = r -> (1 <= count rt r n)%nat.
Proof.
  intros Hj Hr; induction n; simpl; [lia|].
  destruct (decide (j = n)) as [->|Hne].
  - case_decide; [lia|congruence].
  - assert (1 <= count rt r n)%nat by (apply IHn; lia). lia.
Qed.

Lemma count_disj rt x y n : x <> y -> (count rt x n + count rt y n <= n)%nat.
Proof.
  intros Hxy; induction n; simpl; [lia|].
  repeat case_decide; subst; try congruence; lia.
Qed.

Lemma count_merge_x rt y x n : x <> y ->
  count (merge rt y x) x n = (count rt x n + count rt y n)%nat.
Proof.
  intros Hxy; induction n; simpl; [lia|]. rewrite IHn; unfold merge.
  repeat case_decide; subst; try congruence; lia.
Qed.

Lemma count_merge_other rt y x r n : r <> x -> r <> y ->
  count (merge rt y x) r n = count rt r n.
Proof.
  intros Hx Hy; induction n; simpl; [lia|]. rewrite IHn; unfold merge.
  repeat case_decide; subst; try congruence; lia.
Qed.

Section WithWf.
Context (P : list entry) (rt : nat -> nat) (Hwf : wf P rt).

Lemma wf_rt_reach i : (i < length P)%nat -> exists k, reachesN P i (rt i) k.
Proof. intros Hi; destruct (wf_reach _ _ Hwf i Hi) as (k & Hk & _); eauto. Qed.

Lemma wf_rt_root i : (i < length P)%nat -> exists s, P !! rt i = Some (rt i, Some s).
Proof.
  intros Hi; destruct (wf_rt_reach i Hi) as [k Hk].
  destruct (reachesN_target _ _ _ _ Hk) as [o Ho].
  destruct (proj1 (wf_root _ _ Hwf _ _ _ Ho) eq_refl) as [s ->]; eauto.
Qed.

Lemma wf_rt_lt i : (i < length P)%nat -> (rt i < length P)%nat.
Proof.
  intros Hi; destruct (wf_rt_root i Hi) as [s Hs]; eapply lookup_lt_Some; eauto.
Qed.

Lemma wf_rt_self r o : P !! r = Some (r, o) -> rt r = r.
Proof.
  intros Hr. assert (Hlt : (r < length P)%nat) by (eapply lookup_lt_Some; eauto).
  destruct (wf_rt_reach r Hlt) as [k Hk].
  symmetry; apply (reachesN_det P r r 0 (rt r) k); auto. econstructor; eauto.
Qed.

Lemma wf_rt_idem i : (i < length P)%nat -> rt (rt i) = rt i.
Proof. intros Hi; destruct (wf_rt_root i Hi) as [s Hs]; eapply wf_rt_self; eauto. Qed.

Lemma wf_reaches_rt i r k : reachesN P i r k -> rt i = r.
Proof.
  intros H. destruct (wf_rt_reach i (reachesN_lt _ _ _ _ H)) as [k' Hk'].
  apply (reachesN_det P i (rt i) k' r k); auto.
Qed.

Lemma compressed_root P' r o :
  compressed P rt P' -> P !! r = Some (r, o) -> P' !! r = Some (r, o).
Proof.
  intros [_ HC] Hr; destruct (HC r) as [->|(p & o' & Hp & Hne & _)]; auto; congruence.
Qed.

Lemma compressed_root_rev P' r s :
  compressed P rt P' -> P' !! r = Some (r, Some s) -> P !! r = Some (r, Some s).
Proof.
  intros [_ HC] Hr; destruct (HC r) as [<-|(p & o' & Hp & Hne & Hr')]; auto; congruence.
Qed.

Lemma compressed_reach P' i r k : compressed P rt P' -> reachesN P i r k ->
  exists k', (k' <= k)%nat /\ reachesN P' i r k'.
Proof.
  intros HC H; induction H as [i o Hi|i p o r k Hi Hp H IH].
  - exists O; split; [lia|]. econstructor; eapply compressed_root; eauto.
  - destruct IH as (k' & Hk' & IH).
    destruct (proj2 HC i) as [Heq|(p' & o' & Hp' & Hne & Hi')].
    + exists (S k'); split; [lia|]. econstructor; [rewrite Heq; eauto|auto|auto].
    + rewrite Hi in Hp'; injection Hp'; intros; subst p' o'.
      assert (Hr : rt i = r) by (eapply wf_reaches_rt; econstructor; eauto).
      destruct (reachesN_target _ _ _ _ H) as [or Hor].
      exists 1%nat; split; [lia|]. rewrite Hr in Hi'.
      assert (r <> i) by (intros ->; congruence).
      econstructor; [exact Hi'|auto|]. econstructor; eapply compressed_root; eauto.
Qed.

Lemma wf_compressed P' : compressed P rt P' -> wf P' rt.
Proof.
  intros HC; pose proof HC as [Hlen HCj]; constructor; rewrite ?Hlen.
  - apply (wf_len _ _ Hwf).
  - intros i p o Hi. destruct (HCj i) as [Heq|(p' & o' & Hp' & Hne & Hi')].
    + rewrite Heq in Hi; eapply wf_range; eauto.
    + rewrite Hi' in Hi; injection Hi; intros; subst.
      apply wf_rt_lt; eapply lookup_lt_Some; eauto.
  - intros i p o Hi. destruct (HCj i) as [Heq|(p' & o' & Hp' & Hne & Hi')].
    + rewrite Heq in Hi; eapply wf_root; eauto.
    + rewrite Hi' in Hi; injection Hi; intros; subst. split; [|intros [? ?]; discriminate].
      intros Hself. destruct (wf_rt_root i) as [s Hs]; [eapply lookup_lt_Some; eauto|].
      rewrite Hself in Hs; congruence.
  - intros i Hi. destruct (wf_reach _ _ Hwf i Hi) as (k & Hk & Hc).
    destruct (compressed_reach P' i (rt i) k HC Hk) as (k' & Hle & Hk').
    exists k'; split; [auto|lia].
  - intros r s Hr. eapply wf_size; [exact Hwf|]. eapply compressed_root_rev; eauto.
Qed.

Lemma compressed_refl : compressed P rt P.
Proof. split; auto. Qed.

End WithWf.

Lemma compressed_trans P rt P1 P2 :
  compressed P rt P1 -> compressed P1 rt P2 -> compressed P rt P2.
Proof.
  intros [H1 C1] [H2 C2]; split; [congruence|]. intros j.
  destruct (C2 j) as [E2|(p & o & Hp & Hne & Hj)].
  - rewrite E2; auto.
  - right. destruct (C1 j) as [E1|(p' & o' & Hp' & Hne' & Hj')].
    + exists p, o; rewrite <- E1; auto.
    + exists p', o'; auto.
Qed.

(** [find_idx_fuel] returns the root and its stored size, and only
    compresses paths, whenever the fuel exceeds the depth. *)
Lemma find_idx_fuel_spec P rt fuel i r k s :
  wf P rt -> reachesN P i r k -> (k < fuel)%nat -> P !! r = Some (r, Some s) ->
  exists P', find_idx_fuel fuel i P = Some ((r, s), P') /\ compressed P rt P'.
Proof.
  intros Hwf H; revert fuel; induction H as [i o Hi|i p o r k Hi Hp H IH];
    intros fuel Hf Hr.
  - destruct fuel as [|f]; [lia|]. cbn [find_idx_fuel].
    unfold bind, read, ret. rewrite Hr. cbn. rewrite decide_True by auto.
    eexists; split; [reflexivity|]. apply compressed_refl.
  - destruct fuel as [|f]; [lia|]. destruct (IH f ltac:(lia) Hr) as (P1 & Hrun & HC).
    cbn [find_idx_fuel]. unfold bind at 1, read. rewrite Hi. cbn.
    rewrite decide_False by auto. unfold bind at 1. rewrite Hrun.
    unfold bind, write, ret.
    assert (Hlt : (i < length P1)%nat)
      by (destruct HC as [-> _]; eapply lookup_lt_Some; eauto).
    rewrite decide_True by exact Hlt.
    eexists; split; [reflexivity|].
    split; [rewrite length_insert; apply HC|].
    intros j. destruct (decide (j = i)) as [->|Hne].
    + right. exists p, o. split; [auto|split; [auto|]].
      rewrite list_lookup_insert_eq by exact Hlt.
      erewrite (wf_reaches_rt P rt Hwf i r); [reflexivity|]. econstructor; eauto.
    + rewrite list_lookup_insert_ne by congruence. apply HC.
Qed.

Lemma find_idx_spec P rt i : wf P rt -> (i < length P)%nat ->
  exists s P', P !! rt i = Some (rt i, Some s) /\
    find_idx i P = Some ((rt i, s), P') /\ compressed P rt P' /\ wf P' rt.
Proof.
  intros Hwf Hi. destruct (wf_reach _ _ Hwf i Hi) as (k & Hk & Hc).
  destruct (wf_rt_root P rt Hwf i Hi) as [s Hs].
  destruct (find_idx_fuel_spec P rt (length P) i (rt i) k s Hwf Hk) as (P' & Hrun & HC).
  { pose proof (count_le rt (rt i) (length P)); lia. }
  { exact Hs. }
  exists s, P'; split; [exact Hs|split; [exact Hrun|split; [exact HC|]]].
  eapply wf_compressed; eauto.
Qed.

(** Facts that hold for any [parents], well formed or not. *)
Lemma find_idx_fuel_shape fuel i (P : list entry) r s P' :
  find_idx_fuel fuel i P = Some ((r, s), P') -> length P' = length P /\ (r < length P)%nat.
Proof.
  revert i P P' r s; induction fuel as [|f IH]; intros i P P' r s Hrun; [discriminate|].
  cbn [find_idx_fuel] in Hrun. unfold bind at 1, read in Hrun.
  destruct (P !! i) as [[p o]|] eqn:Hi; [|discriminate]. cbn in Hrun.
  case_decide as Hp.
  - destruct o; [|discriminate]. unfold ret in Hrun. injection Hrun as <- <- <-.
    split; auto. subst; eapply lookup_lt_Some; eauto.
  - unfold bind in Hrun. destruct (find_idx_fuel f p P) as [[[r' s'] P1]|] eqn:Hrec;
      [|discriminate].
    destruct (IH _ _ _ _ _ Hrec) as [Hl Hr]. unfold write, ret in Hrun.
    case_decide; [|discriminate]. injection Hrun as <- <- <-.
    rewrite length_insert; auto.
Qed.

Lemma find_idx_length i (P : list entry) r P' : find_idx i P = Some (r, P') -> length P' = length P.
Proof. destruct r; intros Hf; apply (find_idx_fuel_shape _ _ _ _ _ _ Hf). Qed.

Lemma find_idx_root_lt i (P : list entry) r s P' :
  find_idx i P = Some ((r, s), P') -> (r < length P')%nat.
Proof.
  intros Hf; destruct (find_idx_fuel_shape _ _ _ _ _ _ Hf) as [-> Hr]; auto.
Qed.

Section Merge.
Context (P : list entry) (rt : nat -> nat) (Hwf : wf P rt).
Context (x y : nat) (sx sy : Z) (Hxy : x <> y).
Context (Hx : P !! x = Some (x, Some sx)) (Hy : P !! y = Some (y, Some sy)).

Lemma merged_lookup j :
  (merged P x y sx sy) !! j = if decide (j = x) then Some (x, Some (sx + sy))
                else if decide (j = y) then Some (x, None) else P !! j.
Proof.
  unfold merged.
  assert (x < length P)%nat by (eapply lookup_lt_Some; eauto).
  assert (y < length P)%nat by (eapply lookup_lt_Some; eauto).
  destruct (decide (j = x)) as [->|Hjx].
  - apply list_lookup_insert_eq; rewrite length_insert; auto.
  - rewrite list_lookup_insert_ne by congruence.
    destruct (decide (j = y)) as [->|Hjy].
    + apply list_lookup_insert_eq; auto.
    + rewrite list_lookup_insert_ne by congruence; auto.
Qed.

Lemma merged_length : length (merged P x y sx sy) = length P.
Proof. unfold merged; rewrite !length_insert; auto. Qed.

Lemma merged_other j : j <> x -> j <> y -> (merged P x y sx sy) !! j = P !! j.
Proof. intros; rewrite merged_lookup; repeat case_decide; congruence. Qed.

Lemma merged_nonroot i p o : P !! i = Some (p, o) -> p <> i -> i <> x /\ i <> y.
Proof. intros Hi Hp; split; intros ->; congruence. Qed.

Lemma merged_keep i r k : reachesN P i r k -> r <> y -> reachesN (merged P x y sx sy) i r k.
Proof.
  induction 1 as [i o Hi|i p o r k Hi Hp H IH]; intros Hr.
  - destruct (decide (i = x)) as [->|Hix].
    + econstructor; rewrite merged_lookup, decide_True by auto; reflexivity.
    + econstructor; rewrite merged_other by auto; eauto.
  - destruct (merged_nonroot i p o Hi Hp).
    econstructor; [rewrite merged_other by auto; eauto|auto|auto].
Qed.

Lemma merged_into i k : reachesN P i y k -> reachesN (merged P x y sx sy) i x (S k).
Proof.
  remember y as y' eqn:Hy'. induction 1 as [i o Hi|i p o r k Hi Hp H IH]; subst.
  - econstructor.
    + rewrite merged_lookup, decide_False, decide_True by auto; reflexivity.
    + auto.
    + econstructor; rewrite merged_lookup, decide_True by auto; reflexivity.
  - destruct (merged_nonroot i p o Hi Hp).
    econstructor; [rewrite merged_other by auto; eauto|auto|auto].
Qed.

Lemma merge_sizes : Z.of_nat (length P) <= usize_max /\
  sx = Z.of_nat (count rt x (length P)) /\ sy = Z.of_nat (count rt y (length P)) /\
  sx + sy <= usize_max.
Proof.
  pose proof (wf_len _ _ Hwf).
  pose proof (wf_size _ _ Hwf _ _ Hx). pose proof (wf_size _ _ Hwf _ _ Hy).
  pose proof (count_disj rt x y (length P) Hxy). repeat split; auto; lia.
Qed.

Lemma merge_wf : wf (merged P x y sx sy) (merge rt y x).
Proof.
  destruct merge_sizes as (Hlen & Hsx & Hsy & Hsum).
  assert (Hrx : rt x = x) by (eapply wf_rt_self; eauto).
  assert (Hry : rt y = y) by (eapply wf_rt_self; eauto).
  assert (x < length P)%nat by (eapply lookup_lt_Some; eauto).
  constructor; rewrite ?merged_length.
  - auto.
  - intros i p o Hi; rewrite merged_lookup in Hi.
    repeat case_decide; [congruence|congruence|eapply wf_range; eauto].
  - intros i p o Hi; rewrite merged_lookup in Hi.
    repeat case_decide; simplify_eq.
    + split; auto; eexists; eauto.
    + split; [congruence|intros [? ?]; discriminate].
    + eapply wf_root; eauto.
  - intros i Hi. destruct (wf_reach _ _ Hwf i Hi) as (k & Hk & Hc).
    destruct (decide (rt i = y)) as [Hri|Hri].
    + assert (Hm : merge rt y x i = x) by (unfold merge; rewrite decide_True; auto).
      rewrite Hm. exists (S k); split; [apply merged_into; congruence|].
      rewrite count_merge_x by auto.
      pose proof (count_pos rt x (length P) x ltac:(auto) Hrx). rewrite Hri in Hc. lia.
    + assert (Hm : merge rt y x i = rt i) by (unfold merge; rewrite decide_False; auto).
      rewrite Hm. exists k; split; [apply merged_keep; auto|].
      destruct (decide (rt i = x)) as [Hx'|Hx'].
      * rewrite Hx', count_merge_x by auto. rewrite Hx' in Hc. lia.
      * rewrite count_merge_other by auto. auto.
  - intros r s Hr; rewrite merged_lookup in Hr. repeat case_decide; simplify_eq.
    + rewrite count_merge_x by auto. lia.
    + rewrite count_merge_other by auto. eapply wf_size; eauto.
Qed.

End Merge.

Lemma union_idx_same P rt a b : wf P rt -> (a < length P)%nat -> (b < length P)%nat ->
  rt a = rt b ->
  exists P', union_idx a b P = Some (false, P') /\ compressed P rt P' /\ wf P' rt.
Proof.
  intros Hwf Ha Hb Hab.
  destruct (find_idx_spec P rt a Hwf Ha) as (sa & P1 & Hsa & Hra & HC1 & Hwf1).
  destruct (find_idx_spec P1 rt b Hwf1) as (sb & P2 & Hsb & Hrb & HC2 & Hwf2);
    [rewrite (proj1 HC1); auto|].
  pose proof (compressed_root P rt P1 _ _ HC1 Hsa) as Hsa1.
  rewrite Hab in Hsa1. rewrite Hsa1 in Hsb; injection Hsb as <-.
  unfold union_idx, bind. rewrite Hra, Hrb. rewrite decide_True by congruence.
  unfold ret; eexists; split; [reflexivity|]. split; [|auto].
  eapply compressed_trans; eauto.
Qed.

Lemma union_idx_diff P rt a b : wf P rt -> (a < length P)%nat -> (b < length P)%nat ->
  rt a <> rt b ->
  exists sa sb big small P',
    P !! rt a = Some (rt a, Some sa) /\ P !! rt b = Some (rt b, Some sb) /\
    ((sb <= sa /\ big = rt a /\ small = rt b) \/ (sa < sb /\ big = rt b /\ small = rt a)) /\
    union_idx a b P = Some (true, P') /\
    P' !! small = Some (big, None) /\ P' !! big = Some (big, Some (sa + sb)) /\
    length P' = length P /\ wf P' (merge rt small big).
Proof.
  intros Hwf Ha Hb Hab.
  destruct (find_idx_spec P rt a Hwf Ha) as (sa & P1 & Hsa & Hra & HC1 & Hwf1).
  destruct (find_idx_spec P1 rt b Hwf1) as (sb & P2 & Hsb & Hrb & HC2 & Hwf2);
    [rewrite (proj1 HC1); auto|].
  pose proof (compressed_root P rt P1 _ _ HC1 Hsa) as Hsa1.
  pose proof (compressed_root P1 rt P2 _ _ HC2 Hsa1) as Hsa2.
  pose proof (compressed_root P1 rt P2 _ _ HC2 Hsb) as Hsb2.
  pose proof (compressed_root_rev P rt P1 _ _ HC1 Hsb) as Hsb0.
  unfold union_idx, bind at 1. rewrite Hra. unfold bind at 1. rewrite Hrb.
  rewrite decide_False by congruence.
  destruct (decide (sa < sb)) as [Hlt|Hge].
  - destruct (merge_sizes P2 rt Hwf2 (rt b) (rt a) sb sa ltac:(auto) Hsb2 Hsa2)
      as (_ & _ & _ & Hsum).
    exists sa, sb, (rt b), (rt a), (merged P2 (rt b) (rt a) sb sa).
    split; [auto|split; [auto|split; [right; auto|]]].
    assert (Hlen : (rt a < length P2)%nat) by (eapply lookup_lt_Some; eauto).
    assert (Hlen' : (rt b < length P2)%nat) by (eapply lookup_lt_Some; eauto).
    unfold bind, write, checked_add, ret; cbn.
    rewrite decide_True by exact Hlt. cbn.
    rewrite decide_True by exact Hlen.
    replace (sb + sa <=? usize_max) with true by (symmetry; apply Z.leb_le; auto).
    rewrite decide_True by (rewrite length_insert; exact Hlen').
    split; [reflexivity|].
    split; [rewrite merged_lookup, decide_False, decide_True by auto; reflexivity|].
    split; [rewrite merged_lookup, decide_True by auto; do 3 f_equal; lia|].
    split; [rewrite merged_length, (proj1 HC2), (proj1 HC1); auto|].
    apply merge_wf; auto.
  - destruct (merge_sizes P2 rt Hwf2 (rt a) (rt b) sa sb ltac:(auto) Hsa2 Hsb2)
      as (_ & _ & _ & Hsum).
    exists sa, sb, (rt a), (rt b), (merged P2 (rt a) (rt b) sa sb).
    split; [auto|split; [auto|split; [left; split; [lia|auto]|]]].
    assert (Hlen : (rt a < length P2)%nat) by (eapply lookup_lt_Some; eauto).
    assert (Hlen' : (rt b < length P2)%nat) by (eapply lookup_lt_Some; eauto).
    unfold bind, write, checked_add, ret; cbn.
    rewrite decide_False by exact Hge. cbn.
    rewrite decide_True by exact Hlen'.
    replace (sa + sb <=? usize_max) with true by (symmetry; apply Z.leb_le; auto).
    rewrite decide_True by (rewrite length_insert; exact Hlen).
    split; [reflexivity|].
    split; [rewrite merged_lookup, decide_False, decide_True by auto; reflexivity|].
    split; [rewrite merged_lookup, decide_True by auto; reflexivity|].
    split; [rewrite merged_length, (proj1 HC2), (proj1 HC1); auto|].
    apply merge_wf; auto.
Qed.

End ForestFacts.

Module UFFacts.
Import DS Forest UFInv ForestFacts.
Section S.
Context {E : Type} `{Countable E}.
Implicit Types (xs : list E) (ds : @DisjointSet E _ _).

Lemma build_reverse_notin (xs : list E) i m e :
  e ∉ xs -> build_reverse i xs m !! e = m !! e.
Proof.
  revert i m; induction xs as [|x xs IH]; intros i m He; simpl; auto.
  rewrite IH by (intros ?; apply He; right; auto).
  rewrite lookup_insert_ne; auto. intros ->; apply He; left.
Qed.

Lemma build_reverse_lookup (xs : list E) i m e j :
  build_reverse i xs m !! e = Some j ->
  ((i <= j)%nat /\ xs !! (j - i)%nat = Some e) \/ (m !! e = Some j /\ e ∉ xs).
Proof.
  revert i m; induction xs as [|x xs IH]; intros i m Hj; simpl in *.
  - right; split; auto. intros Hin; inversion Hin.
  - destruct (IH _ _ Hj) as [[Hle Hx]|[Hm Hn]].
    + left; split; [lia|]. replace (j - i)%nat with (S (j - S i)) by lia. auto.
    + destruct (decide (e = x)) as [->|Hne].
      * rewrite lookup_insert_eq in Hm; injection Hm as <-.
        left; split; [lia|]. rewrite Nat.sub_diag; auto.
      * rewrite lookup_insert_ne in Hm by congruence.
        right; split; auto. intros Hin; inversion Hin; subst; auto.
Qed.

Lemma build_reverse_in (xs : list E) i m e :
  e ∈ xs -> is_Some (build_reverse i xs m !! e).
Proof.
  revert i m; induction xs as [|x xs IH]; intros i m He; simpl.
  - inversion He.
  - destruct (decide (e ∈ xs)) as [Hin|Hnin]; [apply IH; auto|].
    assert (e = x) as -> by (inversion He; subst; auto; contradiction).
    rewrite build_reverse_notin by auto. rewrite lookup_insert_eq; eauto.
Qed.

Lemma build_reverse_nodup (xs : list E) i m k e :
  NoDup xs -> xs !! k = Some e -> build_reverse i xs m !! e = Some (i + k)%nat.
Proof.
  revert i m k; induction xs as [|x xs IH]; intros i m k Hnd Hk; simpl; [inversion Hk|].
  apply NoDup_cons in Hnd as [Hx Hnd]. destruct k as [|k]; simpl in Hk.
  - injection Hk as ->. rewrite build_reverse_notin by auto.
    rewrite lookup_insert_eq; f_equal; lia.
  - rewrite (IH (S i) _ k Hnd Hk). f_equal; lia.
Qed.

Lemma rev_lookup (xs : list E) e j :
  build_reverse 0 xs ∅ !! e = Some j -> xs !! j = Some e.
Proof.
  intros Hj; destruct (build_reverse_lookup xs 0 ∅ e j Hj) as [[_ Hx]|[Hm _]].
  - rewrite Nat.sub_0_r in Hx; auto.
  - rewrite lookup_empty in Hm; discriminate.
Qed.

Lemma count_id_ge r n : (n <= r)%nat -> count (fun i => i) r n = O.
Proof. induction n; simpl; intros; [auto|]. rewrite IHn by lia. case_decide; lia. Qed.

Lemma count_id r n : (r < n)%nat -> count (fun i => i) r n = 1%nat.
Proof.
  induction n; simpl; intros Hr; [lia|].
  destruct (decide (n = r)) as [->|Hne].
  - rewrite count_id_ge by lia. destruct (decide (r = r)); [lia|congruence].
  - rewrite IHn by lia. destruct (decide (n = r)); [congruence|lia].
Qed.

Lemma create_parents_lookup n i :
  map (fun n => (n, Some 1)) (seq 0 n) !! i =
    if decide (i < n)%nat then Some (i, Some 1) else None.
Proof.
  rewrite list_lookup_fmap. case_decide.
  - rewrite lookup_seq_lt by auto. reflexivity.
  - rewrite lookup_seq_ge by lia. reflexivity.
Qed.

Lemma create_inv xs : Z.of_nat (length xs) <= usize_max -> Inv xs (create xs) (fun i => i).
Proof.
  intros Hlen. constructor; simpl; auto.
  - rewrite length_map, length_seq; auto.
  - constructor; rewrite ?length_map, ?length_seq; auto.
    + intros i p o Hi; rewrite create_parents_lookup in Hi. case_decide; simplify_eq; auto.
    + intros i p o Hi; rewrite create_parents_lookup in Hi. case_decide; simplify_eq.
      split; auto; eexists; eauto.
    + intros i Hi. exists O; split.
      * econstructor; rewrite create_parents_lookup, decide_True by auto; reflexivity.
      * rewrite count_id by auto; lia.
    + intros r s Hr; rewrite create_parents_lookup in Hr. case_decide; simplify_eq.
      rewrite count_id by auto; reflexivity.
Qed.

Lemma inv_index xs ds rt e i : Inv xs ds rt -> index_of ds e = Some i ->
  (i < length (parents ds))%nat /\ xs !! i = Some e /\ canon ds i.
Proof.
  intros Hinv Hi. unfold index_of in Hi. rewrite (inv_reverse _ _ _ Hinv) in Hi.
  pose proof (rev_lookup xs e i Hi) as Hx.
  split; [rewrite (inv_length _ _ _ Hinv); eapply lookup_lt_Some; eauto|split; auto].
  exists e; rewrite (inv_nodes _ _ _ Hinv), (inv_reverse _ _ _ Hinv); auto.
Qed.

Lemma inv_index_in xs ds rt e : Inv xs ds rt -> e ∈ xs -> exists i, index_of ds e = Some i.
Proof.
  intros Hinv He. unfold index_of; rewrite (inv_reverse _ _ _ Hinv).
  destruct (build_reverse_in xs 0 ∅ e He) as [i Hi]; eauto.
Qed.

Lemma inv_index_notin xs ds rt e : Inv xs ds rt -> e ∉ xs -> index_of ds e = None.
Proof.
  intros Hinv He. unfold index_of; rewrite (inv_reverse _ _ _ Hinv).
  rewrite build_reverse_notin by auto. apply lookup_empty.
Qed.

Lemma inv_with_parents xs ds rt rt' P' :
  Inv xs ds rt -> length P' = length (parents ds) -> wf P' rt' ->
  (forall i, (i < length xs)%nat -> canon ds i -> canon ds (rt' i)) ->
  Inv xs (with_parents ds P') rt'.
Proof.
  intros Hinv Hl Hwf Hc; constructor; simpl; auto.
  - apply Hinv.
  - apply Hinv.
  - rewrite Hl; apply Hinv.
Qed.

Lemma find_step xs ds rt e : Inv xs ds rt -> e ∈ xs ->
  exists i s P' y, index_of ds e = Some i /\ (i < length xs)%nat /\
    parents ds !! rt i = Some (rt i, Some s) /\
    find_idx i (parents ds) = Some ((rt i, s), P') /\ compressed (parents ds) rt P' /\
    xs !! rt i = Some y /\ reverse ds !! y = Some (rt i) /\
    find e ds = Some (y, with_parents ds P') /\
    set_size e ds = Some (s, with_parents ds P') /\
    Inv xs (with_parents ds P') rt.
Proof.
  intros Hinv He. destruct (inv_index_in xs ds rt e Hinv He) as [i Hi].
  destruct (inv_index xs ds rt e i Hinv Hi) as (Hlt & Hx & Hc).
  pose proof (inv_wf _ _ _ Hinv) as Hwf.
  destruct (find_idx_spec _ rt i Hwf Hlt) as (s & P' & Hs & Hrun & HC & Hwf').
  rewrite (inv_length _ _ _ Hinv) in Hlt.
  destruct (inv_canon _ _ _ Hinv i Hlt Hc) as (y & Hy & Hry).
  rewrite (inv_nodes _ _ _ Hinv) in Hy.
  exists i, s, P', y. do 7 (split; [auto|]).
  split; [unfold find; rewrite Hi; cbn; unfold lift; rewrite Hrun; cbn;
          rewrite (inv_nodes _ _ _ Hinv), Hy; reflexivity|].
  split; [unfold set_size; rewrite Hi; cbn; unfold lift; rewrite Hrun; reflexivity|].
  apply (inv_with_parents xs ds rt rt P'); auto; [apply HC|apply Hinv].
Qed.

Lemma find_step_none xs ds rt e : Inv xs ds rt -> e ∉ xs ->
  find e ds = None /\ set_size e ds = None /\
  forall x, union e x ds = None /\ union x e ds = None.
Proof.
  intros Hinv He. pose proof (inv_index_notin xs ds rt e Hinv He) as Hn.
  unfold find, set_size, union; rewrite Hn; cbn. do 2 (split; [auto|]).
  intros x; split; auto. destruct (index_of ds x); auto.
Qed.

Lemma union_step xs ds rt a b : Inv xs ds rt -> a ∈ xs -> b ∈ xs ->
  exists ia ib, index_of ds a = Some ia /\ index_of ds b = Some ib /\
  (ia < length xs)%nat /\ (ib < length xs)%nat /\
  ((rt ia = rt ib /\ exists P', union a b ds = Some (false, with_parents ds P') /\
      compressed (parents ds) rt P' /\ Inv xs (with_parents ds P') rt) \/
   (rt ia <> rt ib /\ exists sa sb big small P',
      parents ds !! rt ia = Some (rt ia, Some sa) /\
      parents ds !! rt ib = Some (rt ib, Some sb) /\
      ((sb <= sa /\ big = rt ia /\ small = rt ib) \/
       (sa < sb /\ big = rt ib /\ small = rt ia)) /\
      union a b ds = Some (true, with_parents ds P') /\
      P' !! small = Some (big, None) /\ P' !! big = Some (big, Some (sa + sb)) /\
      Inv xs (with_parents ds P') (merge rt small big))).
Proof.
  intros Hinv Ha Hb.
  destruct (inv_index_in xs ds rt a Hinv Ha) as [ia Hia].
  destruct (inv_index_in xs ds rt b Hinv Hb) as [ib Hib].
  destruct (inv_index xs ds rt a ia Hinv Hia) as (Hla & _ & Hca).
  destruct (inv_index xs ds rt b ib Hinv Hib) as (Hlb & _ & Hcb).
  pose proof (inv_wf _ _ _ Hinv) as Hwf.
  pose proof (inv_length _ _ _ Hinv) as Hlen.
  exists ia, ib. split; [auto|split; [auto|split; [lia|split; [lia|]]]].
  destruct (decide (rt ia = rt ib)) as [Heq|Hne].
  - left; split; auto.
    destruct (union_idx_same _ rt ia ib Hwf Hla Hlb Heq) as (P' & Hrun & HC & Hwf').
    exists P'. split; [unfold union; rewrite Hia, Hib; cbn; unfold lift; rewrite Hrun; auto|].
    split; auto. apply (inv_with_parents xs ds rt rt P'); auto; [apply HC|]. apply Hinv.
  - right; split; auto.
    destruct (union_idx_diff _ rt ia ib Hwf Hla Hlb Hne)
      as (sa & sb & big & small & P' & Hsa & Hsb & Hsel & Hrun & Hsm & Hbg & HlP & Hwf').
    exists sa, sb, big, small, P'. do 3 (split; [auto|]).
    split; [unfold union; rewrite Hia, Hib; cbn; unfold lift; rewrite Hrun; auto|].
    do 2 (split; [auto|]).
    apply (inv_with_parents xs ds rt _ P'); auto.
    + intros i Hi Hc. unfold merge. case_decide.
      * rewrite (inv_length _ _ _ Hinv) in Hla, Hlb.
        destruct Hsel as [(_ & -> & _)|(_ & -> & _)]; eapply inv_canon; eauto.
      * eapply inv_canon; eauto.
Qed.

Lemma reachable_inv xs ds : Z.of_nat (length xs) <= usize_max -> reachable xs ds ->
  exists rt, Inv xs ds rt.
Proof.
  intros Hlen Hr; induction Hr as [|ds e x ds' Hr IH Hf|ds e s ds' Hr IH Hf|ds a b u ds' Hr IH Hf].
  - eexists; apply create_inv; auto.
  - destruct IH as [rt Hinv]. destruct (decide (e ∈ xs)) as [He|He].
    + destruct (find_step xs ds rt e Hinv He) as (i & s & P' & y & _ & _ & _ & _ & _ & _ & _ & Hfe & _ & Hinv').
      rewrite Hfe in Hf; injection Hf as _ <-; eauto.
    + destruct (find_step_none xs ds rt e Hinv He) as (Hn & _); congruence.
  - destruct IH as [rt Hinv]. destruct (decide (e ∈ xs)) as [He|He].
    + destruct (find_step xs ds rt e Hinv He) as (i & s' & P' & y & _ & _ & _ & _ & _ & _ & _ & _ & Hse & Hinv').
      rewrite Hse in Hf; injection Hf as _ <-; eauto.
    + destruct (find_step_none xs ds rt e Hinv He) as (_ & Hn & _); congruence.
  - destruct IH as [rt Hinv]. destruct (decide (a ∈ xs)) as [Ha|Ha];
      [destruct (decide (b ∈ xs)) as [Hb|Hb]|].
    + destruct (union_step xs ds rt a b Hinv Ha Hb)
        as (ia & ib & _ & _ & _ & _ & [(_ & P' & Hu & _ & Hinv')|(_ & sa & sb & big & small & P' & _ & _ & _ & Hu & _ & _ & Hinv')]);
        rewrite Hu in Hf; injection Hf as _ <-; eauto.
    + destruct (find_step_none xs ds rt b Hinv Hb) as (_ & _ & Hn).
      rewrite (proj2 (Hn a)) in Hf; discriminate.
    + destruct (find_step_none xs ds rt a Hinv Ha) as (_ & _ & Hn).
      rewrite (proj1 (Hn b)) in Hf; discriminate.
Qed.

Lemma inv_root_of xs ds rt i : Inv xs ds rt -> (i < length (parents ds))%nat ->
  root_of ds i = Some (rt i).
Proof.
  intros Hinv Hi. destruct (find_idx_spec _ rt i (inv_wf _ _ _ Hinv) Hi)
    as (s & P' & _ & Hrun & _). unfold root_of; rewrite Hrun; reflexivity.
Qed.

Lemma inv_find_root xs ds rt e i : Inv xs ds rt -> index_of ds e = Some i ->
  find_root ds e = Some (rt i).
Proof.
  intros Hinv Hi. destruct (inv_index xs ds rt e i Hinv Hi) as (Hlt & _).
  unfold find_root; rewrite Hi; cbn. eapply inv_root_of; eauto.
Qed.

Lemma with_parents_same ds : with_parents ds (parents ds) = ds.
Proof. destruct ds; reflexivity. Qed.

Lemma lift_shape {A} (m : M A) ds a ds' : lift m ds = Some (a, ds') ->
  exists P', m (parents ds) = Some (a, P') /\ ds' = with_parents ds P'.
Proof.
  unfold lift; destruct (m (parents ds)) as [[a' P']|]; intros Hl; [|discriminate].
  injection Hl as <- <-; eauto.
Qed.

Lemma find_shape e ds x ds' : find e ds = Some (x, ds') -> exists P', ds' = with_parents ds P'.
Proof.
  unfold find; destruct (index_of ds e) as [i|]; cbn; [|discriminate].
  destruct (lift (find_idx i) ds) as [[r ds1]|] eqn:Hl; cbn; [|discriminate].
  destruct (nodes ds1 !! r.1); cbn; [|discriminate]. intros Hf; injection Hf as _ <-.
  destruct (lift_shape _ _ _ _ Hl) as (P' & _ & ->); eauto.
Qed.

Lemma set_size_shape e ds s ds' : set_size e ds = Some (s, ds') -> exists P', ds' = with_parents ds P'.
Proof.
  unfold set_size; destruct (index_of ds e) as [i|]; cbn; [|discriminate].
  destruct (lift (find_idx i) ds) as [[r ds1]|] eqn:Hl; cbn; [|discriminate].
  intros Hf; injection Hf as _ <-.
  destruct (lift_shape _ _ _ _ Hl) as (P' & _ & ->); eauto.
Qed.

Lemma union_shape a b ds u ds' : union a b ds = Some (u, ds') -> exists P', ds' = with_parents ds P'.
Proof.
  unfold union; destruct (index_of ds a) as [ia|]; cbn; [|discriminate].
  destruct (index_of ds b) as [ib|]; cbn; [|discriminate].
  intros Hl; destruct (lift_shape _ _ _ _ Hl) as (P' & _ & ->); eauto.
Qed.

Lemma reachable_reverse xs ds : reachable xs ds ->
  nodes ds = xs /\ reverse ds = build_reverse 0 xs ∅.
Proof.
  induction 1 as [|ds e x ds' Hr IH Hf|ds e x ds' Hr IH Hf|ds a b u ds' Hr IH Hf]; auto;
    [destruct (find_shape _ _ _ _ Hf) as [P' ->]
    |destruct (set_size_shape _ _ _ _ Hf) as [P' ->]
    |destruct (union_shape _ _ _ _ _ Hf) as [P' ->]]; exact IH.
Qed.

Lemma root_idxs_elem k (P : list entry) j :
  j ∈ root_idxs k P <-> (k <= j)%nat /\ exists o, P !! (j - k)%nat = Some (j, o).
Proof.
  revert k; induction P as [|[p o] P IH]; intros k; simpl.
  - split; [intros Hj; inversion Hj|intros (_ & o & Ho); discriminate].
  - assert (Hcase : forall X, (j ∈ X <-> (S k <= j)%nat /\ exists o', P !! (j - S k)%nat = Some (j, o')) ->
              (j ∈ k :: X <-> j = k \/ ((S k <= j)%nat /\ exists o', P !! (j - S k)%nat = Some (j, o')))).
    { intros X HX. rewrite elem_of_cons, HX. tauto. }
    destruct (decide (p = k)) as [->|Hne].
    + rewrite (Hcase _ (IH (S k))). split.
      * intros [->|(Hle & o' & Ho')]; [split; [lia|]; rewrite Nat.sub_diag; eauto|].
        split; [lia|]. replace (j - k)%nat with (S (j - S k)) by lia; eauto.
      * intros (Hle & o' & Ho'). destruct (decide (j = k)) as [->|Hjk]; [left; auto|right].
        replace (j - k)%nat with (S (j - S k)) in Ho' by lia. split; [lia|eauto].
    + rewrite (IH (S k)). split.
      * intros (Hle & o' & Ho'). split; [lia|].
        replace (j - k)%nat with (S (j - S k)) by lia; eauto.
      * intros (Hle & o' & Ho'). destruct (decide (j = k)) as [->|Hjk].
        { rewrite Nat.sub_diag in Ho'; simpl in Ho'; congruence. }
        replace (j - k)%nat with (S (j - S k)) in Ho' by lia. split; [lia|eauto].
Qed.

Lemma root_idxs_elem0 (P : list entry) j :
  j ∈ root_idxs 0 P <-> exists o, P !! j = Some (j, o).
Proof. rewrite root_idxs_elem, Nat.sub_0_r. split; [tauto|]. intros; split; [lia|auto]. Qed.

Lemma root_idxs_nodup k (P : list entry) : NoDup (root_idxs k P).
Proof.
  revert k; induction P as [|[p o] P IH]; intros k; simpl; [constructor|].
  case_decide; [|auto]. constructor; auto.
  rewrite root_idxs_elem; lia.
Qed.

Lemma root_idxs_ext k (P P' : list entry) : length P = length P' ->
  (forall j p o p' o', P !! j = Some (p, o) -> P' !! j = Some (p', o') ->
     (p = (j + k)%nat <-> p' = (j + k)%nat)) ->
  root_idxs k P = root_idxs k P'.
Proof.
  revert k P'; induction P as [|[p o] P IH]; intros k [|[p' o'] P'] Hl Hr;
    simpl in *; try discriminate; auto.
  pose proof (Hr O p o p' o' eq_refl eq_refl) as H0. simpl in H0.
  rewrite (IH (S k) P'); [|lia|].
  - destruct (decide (p = k)), (decide (p' = k)); auto; tauto.
  - intros j q r q' r' Hq Hq'. rewrite <- Nat.add_succ_comm.
    apply (Hr (S j) q r q' r'); auto.
Qed.

Lemma compressed_roots P rt P' : wf P rt -> compressed P rt P' ->
  root_idxs 0 P' = root_idxs 0 P.
Proof.
  intros Hwf HC. pose proof (wf_compressed P rt Hwf P' HC) as Hwf'.
  symmetry; apply root_idxs_ext; [symmetry; apply HC|].
  intros j p o p' o' Hj Hj'. rewrite Nat.add_0_r.
  destruct (proj2 HC j) as [Heq|(q & r & Hq & Hne & Hq')].
  - rewrite Heq, Hj in Hj'; injection Hj' as <- <-; tauto.
  - rewrite Hq in Hj; injection Hj as <- <-. rewrite Hq' in Hj'; injection Hj' as <- <-.
    split; [congruence|]. intros Hrt. rewrite Hrt in Hq'.
    destruct (proj1 (wf_root _ _ Hwf' _ _ _ Hq') eq_refl); discriminate.
Qed.

Lemma find_idx_root (P : list entry) r s : P !! r = Some (r, Some s) ->
  find_idx r P = Some ((r, s), P).
Proof.
  intros Hr. unfold find_idx.
  destruct (length P) as [|n] eqn:Hl; [apply lookup_lt_Some in Hr; lia|].
  cbn [find_idx_fuel]. unfold bind, read, ret. rewrite Hr. cbn.
  rewrite decide_True by auto. reflexivity.
Qed.

Lemma sum_list_map_add (f g : nat -> nat) (l : list nat) :
  sum_list (map (fun k => (f k + g k)%nat) l) = (sum_list (map f l) + sum_list (map g l))%nat.
Proof. induction l; simpl; lia. Qed.

Lemma sum_indicator_notin c (l : list nat) : c ∉ l ->
  sum_list (map (fun k => if decide (c = k) then 1%nat else O) l) = O.
Proof.
  induction l as [|k l IH]; simpl; intros Hc; auto.
  rewrite decide_False by (intros ->; apply Hc; left). rewrite IH; auto.
  intros Hin; apply Hc; right; auto.
Qed.

Lemma sum_indicator c (l : list nat) : NoDup l -> c ∈ l ->
  sum_list (map (fun k => if decide (c = k) then 1%nat else O) l) = 1%nat.
Proof.
  induction l as [|k l IH]; simpl; intros Hnd Hc; [inversion Hc|].
  apply NoDup_cons in Hnd as [Hk Hnd]. destruct (decide (c = k)) as [->|Hne].
  - rewrite sum_indicator_notin; auto.
  - rewrite IH; auto. inversion Hc; subst; auto; contradiction.
Qed.

Lemma sum_count rt n (l : list nat) : NoDup l -> (forall j, (j < n)%nat -> rt j ∈ l) ->
  sum_list (map (fun k => count rt k n) l) = n.
Proof.
  intros Hnd; induction n; intros Hin; simpl.
  - clear. induction l; simpl; auto.
  - rewrite sum_list_map_add, IHn by auto. rewrite sum_indicator; auto; lia.
Qed.

Lemma sum_sizes_roots xs ds rt (l : list nat) (es : list E) :
  NoDup xs -> Inv xs ds rt -> Forall2 (fun k e => xs !! k = Some e) l es ->
  (forall k, k ∈ l -> exists o, parents ds !! k = Some (k, o)) ->
  sum_sizes es ds = Some (Z.of_nat (sum_list (map (fun k => count rt k (length xs)) l))).
Proof.
  intros Hnd Hinv HF. induction HF as [|k e l es Hk HF IH]; intros Hroots; simpl; auto.
  destruct (Hroots k (list_elem_of_here _ _)) as [o Ho].
  pose proof (inv_wf _ _ _ Hinv) as Hwf.
  destruct (proj1 (wf_root _ _ Hwf _ _ _ Ho) eq_refl) as [s ->].
  assert (Hidx : index_of ds e = Some k).
  { unfold index_of; rewrite (inv_reverse _ _ _ Hinv). apply (build_reverse_nodup xs 0 ∅ k e Hnd Hk). }
  unfold set_size; rewrite Hidx; cbn. unfold lift; rewrite (find_idx_root _ _ _ Ho); cbn.
  rewrite with_parents_same, IH by (intros k' Hk'; apply Hroots; right; auto). cbn.
  rewrite (wf_size _ _ Hwf _ _ Ho), (inv_length _ _ _ Hinv). f_equal; lia.
Qed.

Lemma total_size_inv xs ds rt : NoDup xs -> Inv xs ds rt ->
  total_size ds = Some (Z.of_nat (length xs)).
Proof.
  intros Hnd Hinv. pose proof (inv_wf _ _ _ Hinv) as Hwf.
  pose proof (inv_length _ _ _ Hinv) as Hlen.
  set (l := root_idxs 0 (parents ds)).
  assert (Hl : forall k, k ∈ l -> exists o, parents ds !! k = Some (k, o))
    by (intros k; apply root_idxs_elem0).
  assert (Hes : exists es, Forall2 (fun k e => xs !! k = Some e) l es).
  { clear -Hl Hlen. induction l as [|k l IH]; [exists []; constructor|].
    destruct IH as [es Hes]; [intros k' Hk'; apply Hl; right; auto|].
    destruct (Hl k (list_elem_of_here _ _)) as [o Ho].
    apply lookup_lt_Some in Ho. rewrite Hlen in Ho.
    apply lookup_lt_is_Some_2 in Ho as [e He]. exists (e :: es); constructor; auto. }
  destruct Hes as [es Hes].
  unfold total_size, roots. rewrite (proj2 (mapM_Some _ _ es)).
  - cbn. rewrite (sum_sizes_roots xs ds rt l es Hnd Hinv Hes Hl).
    rewrite sum_count; auto; [apply root_idxs_nodup|].
    intros j Hj. apply root_idxs_elem0. rewrite <- Hlen in Hj.
    destruct (wf_rt_root _ _ Hwf j Hj) as [s Hs]; eauto.
  - rewrite (inv_nodes _ _ _ Hinv). exact Hes.
Qed.

End S.
End UFFacts.

(** ** Properties of [DisjointSet] *)

Module UFClaims.
Import DS Forest UFInv ForestFacts UFFacts.
Section S.
Context {E : Type} `{Countable E}.

(** Claim C2: for a roster of [n] distinct elements and any sequence of
    [union] calls on roster elements, the calls succeed and the sizes of
    the sets named by [roots()] add up to [n]. *)
Theorem sum_of_root_sizes (xs : list E) (ops : list (E * E)) :
  NoDup xs -> Z.of_nat (length xs) <= usize_max ->
  Forall (fun ab => ab.1 ∈ xs /\ ab.2 ∈ xs) ops ->
  exists ds, run_unions ops (create xs) = Some ds /\
    total_size ds = Some (Z.of_nat (length xs)).
Proof.
  intros Hnd Hlen Hops.
  assert (Hrun : forall ds rt, Inv xs ds rt ->
            exists ds' rt', run_unions ops ds = Some ds' /\ Inv xs ds' rt').
  { induction Hops as [|[a b] ops [Ha Hb] Hops IH]; intros ds rt Hinv; simpl.
    - eauto.
    - destruct (union_step xs ds rt a b Hinv Ha Hb)
        as (ia & ib & _ & _ & _ & _ & [(_ & P' & Hu & _ & Hinv')|(_ & sa & sb & big & small & P' & _ & _ & _ & Hu & _ & _ & Hinv')]);
        rewrite Hu; cbn; eapply IH; eauto. }
  destruct (Hrun _ _ (create_inv xs Hlen)) as (ds & rt & Hds & Hinv).
  exists ds; split; auto. eapply total_size_inv; eauto.
Qed.

(** Claim C3: [union(a, b)] on roster elements returns [false] and leaves
    every element's root as it was when [a] and [b] share a root;
    otherwise it points the root of the smaller set (the second one on a
    tie) at the root of the larger, stores the sum of the two sizes at the
    surviving root and returns [true]. Either way a second [union(a, b)]
    returns [false]. *)
Theorem union_by_size (xs : list E) ds a b :
  reachable xs ds -> Z.of_nat (length xs) <= usize_max -> a ∈ xs -> b ∈ xs ->
  (find_root ds a = find_root ds b ->
     exists ds', union a b ds = Some (false, ds') /\
       forall x, find_root ds' x = find_root ds x) /\
  (find_root ds a <> find_root ds b ->
     exists ra rb sa sb big small ds',
       find_root ds a = Some ra /\ find_root ds b = Some rb /\
       parents ds !! ra = Some (ra, Some sa) /\ parents ds !! rb = Some (rb, Some sb) /\
       ((sb <= sa /\ big = ra /\ small = rb) \/ (sa < sb /\ big = rb /\ small = ra)) /\
       union a b ds = Some (true, ds') /\
       parents ds' !! small = Some (big, None) /\
       parents ds' !! big = Some (big, Some (sa + sb))) /\
  (forall u ds', union a b ds = Some (u, ds') ->
     exists ds'', union a b ds' = Some (false, ds'')).
Proof.
  intros Hr Hlen Ha Hb. destruct (reachable_inv xs ds Hlen Hr) as [rt Hinv].
  destruct (union_step xs ds rt a b Hinv Ha Hb)
    as (ia & ib & Hia & Hib & Hla & Hlb & [(Heq & P' & Hu & HC & Hinv')|(Hne & sa & sb & big & small & P' & Hsa & Hsb & Hsel & Hu & Hsm & Hbg & Hinv')]).
  - assert (Hsame : forall x, find_root (with_parents ds P') x = find_root ds x).
    { intros x. destruct (index_of ds x) as [i|] eqn:Hi.
      + rewrite (inv_find_root xs ds rt x i Hinv Hi).
        apply (inv_find_root xs _ rt x i Hinv'); auto.
      + unfold find_root; cbn; unfold index_of in *; cbn; rewrite Hi; auto. }
    split; [intros _; eauto|split].
    + intros Hne. rewrite (inv_find_root xs ds rt a ia Hinv Hia),
        (inv_find_root xs ds rt b ib Hinv Hib), Heq in Hne; congruence.
    + intros u ds' Hu'. rewrite Hu in Hu'; injection Hu' as _ <-.
      destruct (union_step xs _ rt a b Hinv' Ha Hb)
        as (ia' & ib' & Hia' & Hib' & _ & _ & [(_ & P'' & Hu'' & _)|(Hne' & _)]); eauto.
      cbn in Hia', Hib'. unfold index_of in *; cbn in *. congruence.
  - rewrite (inv_find_root xs ds rt a ia Hinv Hia), (inv_find_root xs ds rt b ib Hinv Hib).
    split; [intros Heq; congruence|split].
    + intros _. exists (rt ia), (rt ib), sa, sb, big, small, (with_parents ds P').
      do 6 (split; [auto|]). split; auto.
    + intros u ds' Hu'. rewrite Hu in Hu'; injection Hu' as _ <-.
      destruct (union_step xs _ _ a b Hinv' Ha Hb)
        as (ia' & ib' & Hia' & Hib' & _ & _ & [(_ & P'' & Hu'' & _)|(Hne' & _)]); eauto.
      exfalso. unfold index_of in *; cbn in *. rewrite Hia in Hia'; rewrite Hib in Hib'.
      injection Hia' as <-; injection Hib' as <-. apply Hne'. unfold merge.
      destruct Hsel as [(_ & -> & ->)|(_ & -> & ->)];
        repeat case_decide; congruence.
Qed.

(** Claim C4: in every reachable state, two consecutive [find(x)] calls
    return the same element [y], [find(y)] returns [y], and after a
    [union(a, b)] that returns [true], [find(a)] and then [find(b)] return
    the same element. *)
Theorem find_stable (xs : list E) ds x :
  reachable xs ds -> Z.of_nat (length xs) <= usize_max -> x ∈ xs ->
  (exists y ds1 ds2 ds3, find x ds = Some (y, ds1) /\ find x ds1 = Some (y, ds2) /\
     find y ds1 = Some (y, ds3)) /\
  (forall a b ds', a ∈ xs -> b ∈ xs -> union a b ds = Some (true, ds') ->
     exists y ds1 ds2, find a ds' = Some (y, ds1) /\ find b ds1 = Some (y, ds2)).
Proof.
  intros Hr Hlen Hx. destruct (reachable_inv xs ds Hlen Hr) as [rt Hinv]. split.
  - destruct (find_step xs ds rt x Hinv Hx)
      as (i & s & P' & y & Hi & Hli & _ & _ & _ & Hy & Hry & Hf & _ & Hinv1).
    destruct (find_step xs _ rt x Hinv1 Hx)
      as (i' & s' & P'' & y' & Hi' & _ & _ & _ & _ & Hy' & _ & Hf' & _ & _).
    assert (i' = i) as -> by (unfold index_of in *; cbn in *; congruence).
    rewrite Hy in Hy'; injection Hy' as <-.
    assert (Hyin : y ∈ xs) by (eapply list_elem_of_lookup_2; eauto).
    destruct (find_step xs _ rt y Hinv1 Hyin)
      as (j & t & P3 & z & Hj & _ & _ & _ & _ & Hz & _ & Hf'' & _ & _).
    assert (j = rt i) as -> by (unfold index_of in *; cbn in *; congruence).
    rewrite (wf_rt_idem _ _ (inv_wf _ _ _ Hinv)) in Hz
      by (rewrite (inv_length _ _ _ Hinv); auto).
    rewrite Hy in Hz; injection Hz as <-.
    exists y, (with_parents ds P'), (with_parents (with_parents ds P') P''),
      (with_parents (with_parents ds P') P3). auto.
  - intros a b ds' Ha Hb Hu.
    destruct (union_step xs ds rt a b Hinv Ha Hb)
      as (ia & ib & Hia & Hib & Hla & Hlb & [(Heq & P' & Hu' & HC & Hinv')|(Hne & sa & sb & big & small & P' & Hsa & Hsb & Hsel & Hu' & Hsm & Hbg & Hinv')]);
      rewrite Hu' in Hu; [discriminate|injection Hu as <-].
    destruct (find_step xs _ _ a Hinv' Ha)
      as (i & s & P1 & y & Hi & _ & _ & _ & _ & Hy & _ & Hfa & _ & Hinv1).
    destruct (find_step xs _ _ b Hinv1 Hb)
      as (j & t & P2 & z & Hj & _ & _ & _ & _ & Hz & _ & Hfb & _ & _).
    assert (i = ia) as -> by (unfold index_of in *; cbn in *; congruence).
    assert (j = ib) as -> by (unfold index_of in *; cbn in *; congruence).
    assert (Hm : merge rt small big ia = merge rt small big ib).
    { unfold merge. destruct Hsel as [(_ & -> & ->)|(_ & -> & ->)];
        repeat case_decide; congruence. }
    rewrite Hm in Hy. rewrite Hy in Hz; injection Hz as <-. eauto.
Qed.

(** Claim C7: [find], [set_size] and [union] on an element that was not
    given to [create] panic. *)
Theorem unknown_element_panics (xs : list E) ds e :
  reachable xs ds -> e ∉ xs ->
  find e ds = None /\ set_size e ds = None /\
  forall x, union e x ds = None /\ union x e ds = None.
Proof.
  intros Hr He. destruct (reachable_reverse xs ds Hr) as [_ Hrev].
  assert (Hn : index_of ds e = None).
  { unfold index_of; rewrite Hrev, build_reverse_notin by auto. apply lookup_empty. }
  unfold find, set_size, union; rewrite Hn; cbn. do 2 (split; [auto|]).
  intros x; split; auto. destruct (index_of ds x); auto.
Qed.

(** Claim C8: [union] adds the two set sizes with [checked_add]: when the
    roots found differ and the sum exceeds [usize::MAX] the call panics;
    when it returns [true] the sum fits and is stored exactly at the
    surviving root. This holds in any state, reachable or not. *)
Theorem union_size_checked (ds : @DisjointSet E _ _) (a b : E) ia ib ra sa P1 rb sb P2 :
  index_of ds a = Some ia -> index_of ds b = Some ib ->
  find_idx ia (parents ds) = Some ((ra, sa), P1) -> find_idx ib P1 = Some ((rb, sb), P2) ->
  (ra, sa) <> (rb, sb) ->
  (usize_max < sa + sb -> union a b ds = None) /\
  (forall ds', union a b ds = Some (true, ds') ->
     sa + sb <= usize_max /\
     exists big, (big = ra \/ big = rb) /\ parents ds' !! big = Some (big, Some (sa + sb))).
Proof.
  intros Ha Hb Hfa Hfb Hne.
  assert (Hu : union a b ds = lift (union_idx ia ib) ds)
    by (unfold union; rewrite Ha, Hb; reflexivity).
  pose proof (find_idx_root_lt _ _ _ _ _ Hfa) as Hra.
  pose proof (find_idx_root_lt _ _ _ _ _ Hfb) as Hrb.
  pose proof (find_idx_length _ _ _ _ Hfb) as HlP. rewrite <- HlP in Hra.
  rewrite Hu. unfold lift, union_idx, bind. rewrite Hfa, Hfb. cbn.
  rewrite (decide_False _ _ Hne).
  destruct (decide (sa < sb)) as [Hlt|Hge]; cbn; unfold write, checked_add, ret, panic.
  - rewrite (decide_True _ _ Hra).
    destruct (Z.leb_spec (sb + sa) usize_max) as [Hle|Hgt]; cbn.
    + rewrite decide_True by (rewrite length_insert; exact Hrb).
      split; [lia|]. intros ds' Hds'; injection Hds' as <-. split; [lia|].
      exists rb; split; [auto|]. cbn. rewrite list_lookup_insert_eq.
      * do 3 f_equal; lia.
      * rewrite length_insert; exact Hrb.
    + split; [auto|]. intros ds' Hds'; discriminate.
  - rewrite (decide_True _ _ Hrb).
    destruct (Z.leb_spec (sa + sb) usize_max) as [Hle|Hgt]; cbn.
    + rewrite decide_True by (rewrite length_insert; exact Hra).
      split; [lia|]. intros ds' Hds'; injection Hds' as <-. split; [lia|].
      exists ra; split; [auto|]. cbn. rewrite list_lookup_insert_eq; [auto|].
      rewrite length_insert; exact Hra.
    + split; [auto|]. intros ds' Hds'; discriminate.
Qed.

(** Claim C9: in every reachable state an index is self-parented exactly
    when [find_idx] gives it as its own root; self-parented entries carry
    a size and the others none; and [roots()], which reads [parents]
    without changing anything, returns the elements at the self-parented
    indices, one per set: every index has its root among them and each of
    them is its own root. *)
Theorem roots_one_per_set (xs : list E) ds :
  reachable xs ds -> Z.of_nat (length xs) <= usize_max ->
  (forall i, (i < length (parents ds))%nat ->
     ((exists o, parents ds !! i = Some (i, o)) <-> root_of ds i = Some i)) /\
  (forall i p o, parents ds !! i = Some (p, o) -> (p = i <-> is_Some o)) /\
  NoDup (root_idxs 0 (parents ds)) /\
  (forall i, (i < length (parents ds))%nat ->
     exists k, root_of ds i = Some k /\ k ∈ root_idxs 0 (parents ds)) /\
  (forall k, k ∈ root_idxs 0 (parents ds) -> root_of ds k = Some k) /\
  (exists es, roots ds = Some es /\
     Forall2 (fun k e => nodes ds !! k = Some e) (root_idxs 0 (parents ds)) es).
Proof.
  intros Hr Hlen. destruct (reachable_inv xs ds Hlen Hr) as [rt Hinv].
  pose proof (inv_wf _ _ _ Hinv) as Hwf.
  assert (Hroot : forall i, (i < length (parents ds))%nat ->
            ((exists o, parents ds !! i = Some (i, o)) <-> root_of ds i = Some i)).
  { intros i Hi. rewrite (inv_root_of xs ds rt i Hinv Hi). split.
    - intros [o Ho]. rewrite (wf_rt_self _ _ Hwf i o Ho); auto.
    - intros Hrt; injection Hrt as Hrt.
      destruct (wf_rt_root _ _ Hwf i Hi) as [s Hs]. rewrite Hrt in Hs; eauto. }
  split; [exact Hroot|]. split; [apply (wf_root _ _ Hwf)|].
  split; [apply root_idxs_nodup|]. split.
  - intros i Hi. exists (rt i); split; [apply (inv_root_of xs ds rt i Hinv Hi)|].
    apply root_idxs_elem0. destruct (wf_rt_root _ _ Hwf i Hi) as [s Hs]; eauto.
  - split.
    + intros k Hk. apply Hroot; [|apply root_idxs_elem0; auto].
      apply root_idxs_elem0 in Hk as [o Ho]. eapply lookup_lt_Some; eauto.
    + assert (Hes : exists es, Forall2 (fun k e => nodes ds !! k = Some e)
                                       (root_idxs 0 (parents ds)) es).
      { assert (Hl : forall k, k ∈ root_idxs 0 (parents ds) -> (k < length (nodes ds))%nat).
        { intros k Hk. apply root_idxs_elem0 in Hk as [o Ho]. apply lookup_lt_Some in Ho.
          rewrite (inv_nodes _ _ _ Hinv), <- (inv_length _ _ _ Hinv); auto. }
        clear -Hl. induction (root_idxs 0 (parents ds)) as [|k l IH];
          [exists []; constructor|].
        destruct IH as [es Hes]; [intros k' Hk'; apply Hl; right; auto|].
        destruct (lookup_lt_is_Some_2 (nodes ds) k) as [e He];
          [apply Hl; left|].
        exists (e :: es); constructor; auto. }
      destruct Hes as [es Hes]. exists es; split; auto.
      unfold roots; apply mapM_Some; auto.
Qed.

(** Claim C10: a [find] or [set_size] call only repoints non-root entries at
    the root they already had; every later [find] and [set_size] answer and
    the result of [roots()] are the same before and after it. *)
Theorem find_frame (xs : list E) ds :
  reachable xs ds -> Z.of_nat (length xs) <= usize_max ->
  (forall z y ds', find z ds = Some (y, ds') ->
     (forall x, fst <$> find x ds' = fst <$> find x ds) /\
     (forall x, fst <$> set_size x ds' = fst <$> set_size x ds) /\
     roots ds' = roots ds /\
     (forall j, parents ds' !! j = parents ds !! j \/
        exists p o r, parents ds !! j = Some (p, o) /\ p <> j /\
          root_of ds j = Some r /\ parents ds' !! j = Some (r, None))) /\
  (forall z s ds', set_size z ds = Some (s, ds') ->
     (forall x, fst <$> find x ds' = fst <$> find x ds) /\
     (forall x, fst <$> set_size x ds' = fst <$> set_size x ds) /\
     roots ds' = roots ds /\
     (forall j, parents ds' !! j = parents ds !! j \/
        exists p o r, parents ds !! j = Some (p, o) /\ p <> j /\
          root_of ds j = Some r /\ parents ds' !! j = Some (r, None))).
Proof.
  intros Hr Hlen. destruct (reachable_inv xs ds Hlen Hr) as [rt Hinv].
  pose proof (inv_wf _ _ _ Hinv) as Hwf.
  assert (Hframe : forall P', compressed (parents ds) rt P' ->
            Inv xs (with_parents ds P') rt ->
     (forall x, fst <$> find x (with_parents ds P') = fst <$> find x ds) /\
     (forall x, fst <$> set_size x (with_parents ds P') = fst <$> set_size x ds) /\
     roots (with_parents ds P') = roots ds /\
     (forall j, parents (with_parents ds P') !! j = parents ds !! j \/
        exists p o r, parents ds !! j = Some (p, o) /\ p <> j /\
          root_of ds j = Some r /\ parents (with_parents ds P') !! j = Some (r, None))).
  { intros P' HC Hinv'. split; [|split; [|split]].
    - intros x. destruct (decide (x ∈ xs)) as [Hx|Hx].
      + destruct (find_step xs ds rt x Hinv Hx)
          as (i & s & P1 & y & Hi & _ & _ & _ & _ & Hy & _ & Hf & _).
        destruct (find_step xs _ rt x Hinv' Hx)
          as (i' & s' & P2 & y' & Hi' & _ & _ & _ & _ & Hy' & _ & Hf' & _).
        assert (i' = i) as -> by (unfold index_of in *; cbn in *; congruence).
        rewrite Hf, Hf'; cbn; congruence.
      + rewrite (proj1 (find_step_none xs ds rt x Hinv Hx)).
        rewrite (proj1 (find_step_none xs _ rt x Hinv' Hx)); auto.
    - intros x. destruct (decide (x ∈ xs)) as [Hx|Hx].
      + destruct (find_step xs ds rt x Hinv Hx)
          as (i & s & P1 & y & Hi & _ & Hs & _ & _ & _ & _ & _ & Hf & _).
        destruct (find_step xs _ rt x Hinv' Hx)
          as (i' & s' & P2 & y' & Hi' & _ & Hs' & _ & _ & _ & _ & _ & Hf' & _).
        assert (i' = i) as -> by (unfold index_of in *; cbn in *; congruence).
        cbn in Hs'. rewrite (compressed_root _ _ _ _ _ HC Hs) in Hs'.
        rewrite Hf, Hf'; cbn; congruence.
      + rewrite (proj1 (proj2 (find_step_none xs ds rt x Hinv Hx))).
        rewrite (proj1 (proj2 (find_step_none xs _ rt x Hinv' Hx))); auto.
    - unfold roots; cbn. rewrite (compressed_roots _ rt P' Hwf HC); auto.
    - intros j. cbn. destruct (proj2 HC j) as [Heq|(p & o & Hp & Hne & Hj)]; [left; auto|].
      right. exists p, o, (rt j). do 2 (split; [auto|]). split; [|auto].
      apply (inv_root_of xs ds rt j Hinv). eapply lookup_lt_Some; eauto. }
  split.
  - intros z y ds' Hf. destruct (decide (z ∈ xs)) as [Hz|Hz].
    + destruct (find_step xs ds rt z Hinv Hz)
        as (i & s & P' & y' & _ & _ & _ & _ & HC & _ & _ & Hf' & _ & Hinv').
      rewrite Hf' in Hf; injection Hf as _ <-. apply Hframe; auto.
    + rewrite (proj1 (find_step_none xs ds rt z Hinv Hz)) in Hf; discriminate.
  - intros z s ds' Hf. destruct (decide (z ∈ xs)) as [Hz|Hz].
    + destruct (find_step xs ds rt z Hinv Hz)
        as (i & s' & P' & y' & _ & _ & _ & _ & HC & _ & _ & _ & Hf' & Hinv').
      rewrite Hf' in Hf; injection Hf as _ <-. apply Hframe; auto.
    + rewrite (proj1 (proj2 (find_step_none xs ds rt z Hinv Hz))) in Hf; discriminate.
Qed.

End S.

(** The state after [union(1, 2)], [union(3, 4)] and [union(1, 3)] on the
    roster [1; 2; 3; 4; 5]: the sets [{1, 2, 3, 4}] (rooted at index 0) and
    [{5}]; index 3 (element 4) points to index 2, which points to index 0. *)
Ltac merged_state :=
  pose (d0 := create [1; 2; 3; 4; 5]%nat);
  pose (d1 := default d0 (snd <$> union 1%nat 2%nat d0));
  pose (d2 := default d0 (snd <$> union 3%nat 4%nat d1));
  pose (d3 := default d0 (snd <$> union 1%nat 3%nat d2));
  assert (E1 : union 1%nat 2%nat d0 = Some (true, d1)) by (vm_compute; reflexivity);
  assert (E2 : union 3%nat 4%nat d1 = Some (true, d2)) by (vm_compute; reflexivity);
  assert (E3 : union 1%nat 3%nat d2 = Some (true, d3)) by (vm_compute; reflexivity);
  assert (Hr2 : reachable [1; 2; 3; 4; 5]%nat d2)
    by (eapply reachable_union; [eapply reachable_union; [apply reachable_create|exact E1]|exact E2]);
  assert (Hr3 : reachable [1; 2; 3; 4; 5]%nat d3)
    by (eapply reachable_union; [exact Hr2|exact E3]);
  assert (Hb : Z.of_nat (length [1; 2; 3; 4; 5]%nat) <= usize_max)
    by (unfold usize_max; simpl; lia);
  assert (Hnd : NoDup [1; 2; 3; 4; 5]%nat)
    by (apply (bool_decide_unpack _); vm_compute; reflexivity).

(** Witnesses of the claims above, in the initial state of a roster and
    after unions. *)

(** Claim C2: two unions on [1; 2; 3]. *)
Lemma sum_of_root_sizes_witness :
  exists ds, run_unions [(1, 2); (3, 2)]%nat (create [1; 2; 3]%nat) = Some ds /\
             total_size ds = Some (Z.of_nat (length [1; 2; 3]%nat)).
Proof.
  assert (Hnd : NoDup [1; 2; 3]%nat).
  { apply (bool_decide_unpack _). vm_compute. reflexivity. }
  assert (Hb : Z.of_nat (length [1; 2; 3]%nat) <= usize_max).
  { unfold usize_max. simpl. lia. }
  assert (Hops : Forall (fun ab => ab.1 ∈ [1; 2; 3]%nat /\ ab.2 ∈ [1; 2; 3]%nat)
                   [(1, 2); (3, 2)]%nat).
  { apply (bool_decide_unpack _). vm_compute. reflexivity. }
  exact (sum_of_root_sizes _ _ Hnd Hb Hops).
Defined.

(** Claim C3: [union(1, 2)] returns [true], and repeated, [false]. *)
Lemma union_by_size_witness :
  exists ds' ds'', union 1%nat 2%nat (create [1; 2; 3]%nat) = Some (true, ds') /\
                   union 1%nat 2%nat ds' = Some (false, ds'').
Proof.
  assert (Hr : reachable [1; 2; 3]%nat (create [1; 2; 3]%nat)) by apply reachable_create.
  assert (Hb : Z.of_nat (length [1; 2; 3]%nat) <= usize_max).
  { unfold usize_max. simpl. lia. }
  assert (H1 : 1%nat ∈ [1; 2; 3]%nat).
  { apply (bool_decide_unpack _). vm_compute. reflexivity. }
  assert (H2 : 2%nat ∈ [1; 2; 3]%nat).
  { apply (bool_decide_unpack _). vm_compute. reflexivity. }
  assert (Hne : find_root (create [1; 2; 3]%nat) 1%nat <> find_root (create [1; 2; 3]%nat) 2%nat).
  { vm_compute. congruence. }
  destruct (union_by_size _ _ _ _ Hr Hb H1 H2) as [_ [Hdiff Htwice]].
  destruct (Hdiff Hne) as (ra & rb & sa & sb & big & small & ds' & _ & _ & _ & _ & _ & Hu & _).
  destruct (Htwice _ _ Hu) as [ds'' Hu2].
  exists ds', ds''. split; assumption.
Defined.

(** Claim C4: [union(1, 3)] joins [{1, 2}] and [{3, 4}] and returns [true],
    after which [find(1)] and [find(3)] agree; [find(4)] then runs from
    index 3 through index 2 to the root, is stable when repeated, and its
    result is its own representative. *)
Lemma find_stable_witness :
  exists ds ds', run_unions [(1, 2); (3, 4)]%nat (create [1; 2; 3; 4; 5]%nat) = Some ds /\
    union 1%nat 3%nat ds = Some (true, ds') /\
    parents ds' !! 3%nat = Some (2%nat, None) /\ parents ds' !! 2%nat = Some (0%nat, None) /\
    (exists y ds1 ds2, find 1%nat ds' = Some (y, ds1) /\ find 3%nat ds1 = Some (y, ds2)) /\
    (exists y ds1 ds2 ds3, find 4%nat ds' = Some (y, ds1) /\
       find 4%nat ds1 = Some (y, ds2) /\ find y ds1 = Some (y, ds3)).
Proof.
  merged_state.
  assert (H1 : 1%nat ∈ [1; 2; 3; 4; 5]%nat)
    by (apply (bool_decide_unpack _); vm_compute; reflexivity).
  assert (H3 : 3%nat ∈ [1; 2; 3; 4; 5]%nat)
    by (apply (bool_decide_unpack _); vm_compute; reflexivity).
  assert (H4 : 4%nat ∈ [1; 2; 3; 4; 5]%nat)
    by (apply (bool_decide_unpack _); vm_compute; reflexivity).
  destruct (find_stable _ _ _ Hr2 Hb H1) as [_ Hu].
  destruct (find_stable _ _ _ Hr3 Hb H4) as [Hf _].
  exists d2, d3.
  split; [vm_compute; reflexivity|].
  split; [exact E3|].
  split; [vm_compute; reflexivity|].
  split; [vm_compute; reflexivity|].
  split; [exact (Hu _ _ _ H1 H3 E3)|exact Hf].
Defined.

(** Claim C7: element 7 is not in the roster [1; 2; 3]. *)
Lemma unknown_element_panics_witness :
  find 7%nat (create [1; 2; 3]%nat) = None /\ set_size 7%nat (create [1; 2; 3]%nat) = None /\
  forall x, union 7%nat x (create [1; 2; 3]%nat) = None /\
            union x 7%nat (create [1; 2; 3]%nat) = None.
Proof.
  assert (Hr : reachable [1; 2; 3]%nat (create [1; 2; 3]%nat)) by apply reachable_create.
  assert (H7 : 7%nat ∉ [1; 2; 3]%nat).
  { apply (bool_decide_unpack _). vm_compute. reflexivity. }
  exact (unknown_element_panics _ _ _ Hr H7).
Defined.

(** Claim C8: two sets of size [2^63] whose union overflows. *)
Lemma union_size_checked_witness :
  usize_max < 2 ^ 63 + 2 ^ 63 /\
  union 1%nat 2%nat
    (mkDS [1; 2]%nat (build_reverse 0 [1; 2]%nat ∅) [(0%nat, Some (2 ^ 63)); (1%nat, Some (2 ^ 63))])
  = None.
Proof.
  set (ds := mkDS [1; 2]%nat (build_reverse 0 [1; 2]%nat ∅)
               [(0%nat, Some (2 ^ 63)); (1%nat, Some (2 ^ 63))]).
  assert (Hov : usize_max < 2 ^ 63 + 2 ^ 63) by (unfold usize_max; lia).
  assert (Ha : index_of ds 1%nat = Some 0%nat) by (vm_compute; reflexivity).
  assert (Hb : index_of ds 2%nat = Some 1%nat) by (vm_compute; reflexivity).
  assert (Hfa : find_idx 0 (parents ds) = Some ((0%nat, 2 ^ 63), parents ds))
    by (vm_compute; reflexivity).
  assert (Hfb : find_idx 1 (parents ds) = Some ((1%nat, 2 ^ 63), parents ds))
    by (vm_compute; reflexivity).
  assert (Hne : (0%nat, 2 ^ 63) <> (1%nat, 2 ^ 63)) by congruence.
  split; [exact Hov|].
  exact (proj1 (union_size_checked ds 1%nat 2%nat _ _ _ _ _ _ _ _ Ha Hb Hfa Hfb Hne) Hov).
Defined.

(** Claim C9: in the merged state, index 3 is not a root and holds no size,
    its root is a root index, and [roots()] names one element per root. *)
Lemma roots_one_per_set_witness :
  exists ds, run_unions [(1, 2); (3, 4); (1, 3)]%nat (create [1; 2; 3; 4; 5]%nat) = Some ds /\
    parents ds !! 3%nat = Some (2%nat, None) /\ (2 = 3 <-> is_Some (@None Z))%nat /\
    root_idxs 0 (parents ds) = [0; 4]%nat /\ NoDup (root_idxs 0 (parents ds)) /\
    (exists k, root_of ds 3 = Some k /\ k ∈ root_idxs 0 (parents ds)) /\
    (exists es, roots ds = Some es /\
       Forall2 (fun k e => nodes ds !! k = Some e) (root_idxs 0 (parents ds)) es).
Proof.
  merged_state.
  destruct (roots_one_per_set _ _ Hr3 Hb) as (_ & Hpo & Hnd' & Hin & _ & Hroots).
  assert (Hp3 : parents d3 !! 3%nat = Some (2%nat, None)) by (vm_compute; reflexivity).
  exists d3.
  split; [vm_compute; reflexivity|].
  split; [exact Hp3|].
  split; [exact (Hpo _ _ _ Hp3)|].
  split; [vm_compute; reflexivity|].
  split; [exact Hnd'|].
  split; [apply Hin; vm_compute; lia|exact Hroots].
Defined.

(** Claim C10: in the merged state, [find(4)] compresses index 3 from
    index 2 to the root 0, and keeps [roots()] and every [find] and
    [set_size] answer. *)
Lemma find_frame_witness :
  exists ds y ds', run_unions [(1, 2); (3, 4); (1, 3)]%nat (create [1; 2; 3; 4; 5]%nat) = Some ds /\
    find 4%nat ds = Some (y, ds') /\
    parents ds !! 3%nat = Some (2%nat, None) /\ parents ds' !! 3%nat = Some (0%nat, None) /\
    roots ds' = roots ds /\
    (forall x, fst <$> find x ds' = fst <$> find x ds) /\
    (forall x, fst <$> set_size x ds' = fst <$> set_size x ds).
Proof.
  merged_state.
  destruct (find_frame _ _ Hr3 Hb) as [Hf _].
  pose (d4 := default d3 (snd <$> find 4%nat d3)).
  assert (E4 : find 4%nat d3 = Some (1%nat, d4)) by (vm_compute; reflexivity).
  destruct (Hf _ _ _ E4) as (Hfind & Hsize & Hroots & _).
  exists d3, 1%nat, d4.
  split; [vm_compute; reflexivity|].
  split; [exact E4|].
  split; [vm_compute; reflexivity|].
  split; [vm_compute; reflexivity|].
  auto.
Defined.

(** Claim C6: the scenario of [tests::disjoint]: eight singletons, each of
    size 1; [union(1, 8)] returns [true] and the set of 1 then has size 2;
    repeating it returns [false]; after [union(3, 4)], [union(2, 6)],
    [union(6, 5)] and [union(5, 1)] there are 3 roots and the sets of 1, 4
    and 7 have sizes 5, 2 and 1. *)
Theorem disjoint_test_scenario :
  DisjointTest.disjoint_scenario =
    Some (8%nat, [1; 1; 1; 1; 1; 1; 1; 1], true, 2, false, 3%nat, 5, 2, 1).
Proof. vm_compute. reflexivity. Qed.

End UFClaims.

(** ** Pathfinding facts *)
Module PFFacts.
Import PF PFInv.

Lemma elem_of_pop {A} (F1 F2 : list A) x y :
  y ∈ F1 ++ x :: F2 -> y <> x -> y ∈ F1 ++ F2.
Proof. rewrite !elem_of_app, elem_of_cons. intuition. Qed.

Lemma elem_of_pop_r {A} (F1 F2 : list A) x y :
  y ∈ F1 ++ F2 -> y ∈ F1 ++ x :: F2.
Proof. rewrite !elem_of_app, elem_of_cons. intuition. Qed.

Lemma elem_of_popped {A} (F1 F2 : list A) x : x ∈ F1 ++ x :: F2.
Proof. rewrite elem_of_app, elem_of_cons. auto. Qed.

Section Counting.
Context {A : Type} (P Q : A -> Prop) `{forall x, Decision (P x)} `{forall x, Decision (Q x)}.
Hypothesis HQP : forall y, Q y -> P y.

Lemma filter_length_mono (l : list A) :
  (length (filter Q l) <= length (filter P l))%nat.
Proof.
  induction l as [|y l IH]; [simpl; lia|].
  rewrite !filter_cons. specialize (HQP y).
  repeat case_decide; simpl; try lia; tauto.
Qed.

Lemma filter_length_lt (l : list A) x :
  x ∈ l -> P x -> ~ Q x -> (length (filter Q l) < length (filter P l))%nat.
Proof.
  intros Hx HPx HQx. induction l as [|y l IH]; [inversion Hx|].
  pose proof (filter_length_mono l) as Hm.
  rewrite !filter_cons. apply elem_of_cons in Hx as [->|Hx].
  - repeat case_decide; simpl; try lia; tauto.
  - specialize (IH Hx). specialize (HQP y). repeat case_decide; simpl; try lia; tauto.
Qed.

End Counting.

Section Paths.
Context {N : Type} `{Countable N}.
Context (neighbors : N -> list (Edge N)).

Lemma is_path_app s p1 p2 t :
  is_path neighbors s (p1 ++ p2) t <->
  exists u, is_path neighbors s p1 u /\ is_path neighbors u p2 t.
Proof.
  revert s; induction p1 as [|e p1 IH]; intros s; simpl.
  - split; [eauto|]. intros (u & -> & Hp). exact Hp.
  - rewrite IH. split.
    + intros [He (u & H1 & H2)]. eauto.
    + intros (u & [He H1] & H2). eauto.
Qed.

Lemma is_path_snoc s p e t :
  is_path neighbors s p t -> e ∈ neighbors t -> is_path neighbors s (p ++ [e]) (dest e).
Proof. intros Hp He. apply is_path_app. exists t. simpl. auto. Qed.

Lemma path_cost_app (p1 p2 : list (Edge N)) : path_cost (p1 ++ p2) = path_cost p1 + path_cost p2.
Proof. induction p1; simpl; lia. Qed.

Lemma closed_dest L n e : closed neighbors L -> n ∈ L -> e ∈ neighbors n -> dest e ∈ L.
Proof.
  intros HL Hn He. unfold closed in HL. rewrite Forall_forall in HL.
  specialize (HL n Hn). rewrite Forall_forall in HL. auto.
Qed.

Lemma nonneg_weight L n e : nonneg neighbors L -> n ∈ L -> e ∈ neighbors n -> 0 <= weight e.
Proof.
  intros HL Hn He. unfold nonneg in HL. rewrite Forall_forall in HL.
  specialize (HL n Hn). rewrite Forall_forall in HL. auto.
Qed.

Lemma path_closed L s q t :
  closed neighbors L -> s ∈ L -> is_path neighbors s q t -> t ∈ L.
Proof.
  intros HL. revert s; induction q as [|e q IH]; intros s Hs Hp; simpl in Hp.
  - subst; auto.
  - destruct Hp as [He Hp]. apply (IH (dest e)); auto. eapply closed_dest; eauto.
Qed.

Lemma path_nonneg L s q t :
  closed neighbors L -> nonneg neighbors L -> s ∈ L -> is_path neighbors s q t ->
  0 <= path_cost q.
Proof.
  intros HL Hnn. revert s; induction q as [|e q IH]; intros s Hs Hp; simpl in *; [lia|].
  destruct Hp as [He Hp].
  pose proof (nonneg_weight L s e Hnn Hs He).
  pose proof (IH (dest e) (closed_dest L s e HL Hs He) Hp). lia.
Qed.

Section Expand.
Context (cost_min cost_max : Z).

Lemma elem_of_expand c n p es y :
  expand neighbors cost_min cost_max c n p = Some es ->
  y ∈ es <-> exists e, e ∈ neighbors n /\ y = (c + weight e, dest e, p ++ [e]).
Proof.
  unfold expand. intros Hm. apply mapM_Some_1 in Hm.
  revert Hm. generalize (neighbors n) as l. intros l Hm.
  induction Hm as [|e y' l es Hf Hm IH].
  - split; [intros Hy; inversion Hy|intros (e & He & _); inversion He].
  - unfold checked_add in Hf. case_decide; [|discriminate]. cbn in Hf.
    injection Hf as <-. rewrite elem_of_cons, IH. split.
    + intros [->|(e' & He' & ->)].
      * exists e. split; [apply elem_of_cons; auto|reflexivity].
      * exists e'. split; [apply elem_of_cons; auto|reflexivity].
    + intros (e' & He' & ->). apply elem_of_cons in He' as [->|He']; [auto|eauto].
Qed.

Lemma expand_some c n p :
  (forall e, e ∈ neighbors n -> cost_min <= c + weight e <= cost_max) ->
  exists es, expand neighbors cost_min cost_max c n p = Some es.
Proof.
  intros Hr. unfold expand.
  destruct (mapM_is_Some_2
              (fun e => c' ← checked_add cost_min cost_max c (weight e); Some (c', dest e, p ++ [e]))
              (neighbors n)) as [es Hes]; [|eauto].
  apply Forall_forall. intros e He. cbn. unfold checked_add.
  rewrite decide_True by (apply Hr; auto). cbn. eexists; reflexivity.
Qed.

End Expand.

Lemma min_split (F : list (Z * N * list (Edge N))) :
  F <> [] -> exists F1 y F2, F = F1 ++ y :: F2 /\ minimal y.1.1 F.
Proof.
  induction F as [|x F IH]; intros Hne; [congruence|].
  destruct F as [|x' F'].
  - exists [], x, []. split; [reflexivity|].
    intros y Hy. apply list_elem_of_singleton in Hy. subst. lia.
  - destruct IH as (F1 & y & F2 & Heq & Hmin); [discriminate|].
    destruct (Z.le_gt_cases x.1.1 y.1.1) as [Hle|Hgt].
    + exists [], x, (x' :: F'). split; [reflexivity|].
      intros z Hz. apply elem_of_cons in Hz as [->|Hz]; [lia|].
      specialize (Hmin z Hz). lia.
    + exists (x :: F1), y, F2. split; [rewrite Heq; reflexivity|].
      intros z Hz. apply elem_of_cons in Hz as [->|Hz]; [lia|]. auto.
Qed.

Lemma route_from_snoc a rest t e :
  route_from neighbors a rest t -> e ∈ neighbors t ->
  route_from neighbors a (rest ++ [dest e]) (dest e).
Proof.
  revert a; induction rest as [|b rest IH]; intros a Hr He; simpl in *.
  - subst. split; [eauto|reflexivity].
  - destruct Hr as [Hab Hr]. split; auto.
Qed.

Lemma route_snoc s r t e :
  is_route neighbors s r t -> e ∈ neighbors t ->
  is_route neighbors s (r ++ [dest e]) (dest e).
Proof.
  destruct r as [|a rest]; simpl; [tauto|].
  intros [-> Hr] He. split; [reflexivity|]. apply (route_from_snoc _ _ t); auto.
Qed.

Lemma route_from_path a rest t :
  route_from neighbors a rest t ->
  exists q, is_path neighbors a q t /\ length q = length rest.
Proof.
  revert a; induction rest as [|b rest IH]; intros a Hr; simpl in *.
  - exists []. simpl. auto.
  - destruct Hr as [(e & He & <-) Hr]. destruct (IH _ Hr) as (q & Hq & Hl).
    exists (e :: q). simpl. auto.
Qed.

Lemma route_path s r t :
  is_route neighbors s r t ->
  exists q, is_path neighbors s q t /\ S (length q) = length r.
Proof.
  destruct r as [|a rest]; simpl; [tauto|]. intros [-> Hr].
  destruct (route_from_path _ _ _ Hr) as (q & Hq & Hl). exists q. auto.
Qed.

End Paths.


Section Dijkstra.
Context {N : Type} `{Countable N}.
Context (neighbors : N -> list (Edge N)) (goal : N -> bool) (start : N) (L : list N).
Hypothesis HL : closed neighbors L.
Hypothesis Hnn : nonneg neighbors L.
Hypothesis Hst : start ∈ L.
Context (cost_min cost_max : Z).

(** Every path from the start to an unvisited node is at least as dear as
    some entry of an unvisited node. *)
Lemma dinv_cut V F : DInv neighbors goal start V F ->
  forall q t, is_path neighbors start q t -> t ∉ V ->
  exists c n p, (c, n, p) ∈ F /\ (n ∉ V) /\ c <= path_cost q.
Proof.
  intros Hi.
  assert (Hgen : forall q s pre t, is_path neighbors start pre s ->
            is_path neighbors s q t -> t ∉ V ->
            (s ∈ V \/ exists c p, (c, s, p) ∈ F /\ c <= path_cost pre) ->
            exists c n p, (c, n, p) ∈ F /\ (n ∉ V) /\ c <= path_cost (pre ++ q)).
  { induction q as [|e q IH]; intros s pre t Hpre Hq Ht Hs; simpl in Hq.
    - subst s. destruct Hs as [Hs|(c & p & Hc & Hle)]; [contradiction|].
      exists c, t, p. rewrite app_nil_r. auto.
    - destruct Hq as [He Hq].
      destruct (decide (s ∈ V)) as [HsV|HsV].
      + replace (pre ++ e :: q) with ((pre ++ [e]) ++ q)
          by (rewrite <- app_assoc; reflexivity).
        apply (IH (dest e) (pre ++ [e]) t); auto.
        * apply (is_path_snoc _ _ _ _ s); auto.
        * rewrite path_cost_app. simpl.
          destruct (di_edge _ _ _ _ _ Hi s e pre HsV He Hpre) as [Hd|(c & p & Hc & Hle)];
            [left; auto|right; exists c, p; split; [auto|lia]].
      + destruct Hs as [Hs|(c & p & Hc & Hle)]; [contradiction|].
        exists c, s, p. split; [auto|]. split; [auto|]. rewrite path_cost_app.
        assert (0 <= path_cost (e :: q)).
        { apply (path_nonneg _ L s _ t HL Hnn); [|simpl; auto].
          apply (path_closed _ L start pre s HL Hst Hpre). }
        lia. }
  intros q t Hq Ht. apply (Hgen q start [] t); [reflexivity|auto|auto|].
  destruct (di_start _ _ _ _ _ Hi) as [Hs|(c & p & Hc & Hle)];
    [left; auto|right; exists c, p; simpl; auto].
Qed.

Lemma dinv_init : DInv neighbors goal start ∅ [(0, start, [])].
Proof.
  split.
  - intros c n p Hin. apply list_elem_of_singleton in Hin.
    injection Hin as -> -> ->. simpl. auto.
  - right. exists 0, []. split; [apply list_elem_of_singleton; reflexivity|lia].
  - intros v e q Hv. set_solver.
  - intros v Hv. set_solver.
Qed.

Lemma dinv_skip V F1 F2 c n p :
  DInv neighbors goal start V (F1 ++ (c, n, p) :: F2) -> n ∈ V ->
  DInv neighbors goal start V (F1 ++ F2).
Proof.
  intros [Hent Hs Hed Hg] Hn. split.
  - intros c' n' p' Hin. apply Hent. apply elem_of_pop_r; auto.
  - destruct Hs as [Hs|(c' & p' & Hin & Hle)]; [left; auto|].
    destruct (decide (start = n)) as [->|Hne]; [left; auto|].
    right. exists c', p'. split; auto. eapply elem_of_pop; eauto. congruence.
  - intros v e q Hv He Hq.
    destruct (Hed v e q Hv He Hq) as [Hd|(c' & p' & Hin & Hle)]; [left; auto|].
    destruct (decide (dest e = n)) as [Heq|Hne]; [left; congruence|].
    right. exists c', p'. split; auto. eapply elem_of_pop; eauto. congruence.
  - auto.
Qed.

Lemma dinv_expand V F1 F2 c n p es :
  DInv neighbors goal start V (F1 ++ (c, n, p) :: F2) ->
  minimal c (F1 ++ (c, n, p) :: F2) -> n ∉ V -> goal n = false ->
  expand neighbors cost_min cost_max c n p = Some es ->
  DInv neighbors goal start ({[n]} ∪ V) (F1 ++ F2 ++ es).
Proof.
  intros Hi Hmin Hn Hg Hes. pose proof Hi as [Hent Hst' Hed Hgo].
  assert (Hpn : is_path neighbors start p n /\ path_cost p = c)
    by (apply Hent; apply elem_of_popped).
  assert (Hopt : forall q, is_path neighbors start q n -> c <= path_cost q).
  { intros q Hq. destruct (dinv_cut _ _ Hi q n Hq Hn) as (c' & n' & p' & Hin & _ & Hle).
    specialize (Hmin _ Hin). simpl in Hmin. lia. }
  assert (Hsurv : forall y, y ∈ F1 ++ (c, n, p) :: F2 -> y.1.2 <> n ->
            y ∈ F1 ++ F2 ++ es).
  { intros y Hy Hne. rewrite app_assoc, elem_of_app. left.
    eapply elem_of_pop; eauto. intros ->. simpl in Hne. congruence. }
  split.
  - intros c' n' p' Hin. rewrite app_assoc, elem_of_app in Hin.
    destruct Hin as [Hin|Hin].
    + apply Hent. apply elem_of_pop_r; auto.
    + apply (elem_of_expand _ _ _ _ _ _ _ _ Hes) in Hin as (e & He & Heq).
      injection Heq as -> -> ->.
      split; [apply (is_path_snoc _ _ _ _ n); tauto|].
      rewrite path_cost_app. simpl. lia.
  - destruct Hst' as [Hs|(c' & p' & Hin & Hle)]; [left; set_solver|].
    destruct (decide (start = n)) as [->|Hne]; [left; set_solver|].
    right. exists c', p'. split; [apply (Hsurv _ Hin); simpl; auto|auto].
  - intros v e q Hv He Hq.
    destruct (decide (v = n)) as [->|Hvn].
    + right. exists (c + weight e), (p ++ [e]). split.
      * rewrite app_assoc, elem_of_app. right.
        apply (elem_of_expand _ _ _ _ _ _ _ _ Hes). eauto.
      * specialize (Hopt q Hq). lia.
    + assert (HvV : v ∈ V) by set_solver.
      destruct (Hed v e q HvV He Hq) as [Hd|(c' & p' & Hin & Hle)]; [left; set_solver|].
      destruct (decide (dest e = n)) as [Heq|Hne]; [left; set_solver|].
      right. exists c', p'. split; [apply (Hsurv _ Hin); simpl; auto|auto].
  - intros v Hv. destruct (decide (v = n)) as [->|Hvn]; [auto|].
    apply Hgo. set_solver.
Qed.

(** What a finished search returns, from a state satisfying [DInv]. *)
Lemma dijkstras_from_sound V F r :
  dijkstras_from neighbors cost_min cost_max goal V F r -> DInv neighbors goal start V F ->
  match r with
  | Returns (Some p) => exists t, is_path neighbors start p t /\ goal t = true /\
      forall q t', is_path neighbors start q t' -> goal t' = true ->
        path_cost p <= path_cost q
  | Returns None => forall q t, is_path neighbors start q t -> goal t = false
  | Panics => True
  end.
Proof.
  induction 1 as [V|V F1 F2 c n p r Hmin Hn Hrun IH|V F1 F2 c n p Hmin Hn Hg
                  |V F1 F2 c n p es r Hmin Hn Hg Hes Hrun IH|V F1 F2 c n p Hmin Hn Hg Hes];
    intros Hi.
  - intros q t Hq. destruct (goal t) eqn:Hgt; [|reflexivity]. exfalso.
    destruct (decide (t ∈ V)) as [Ht|Ht].
    + rewrite (di_goal _ _ _ _ _ Hi t Ht) in Hgt. discriminate.
    + destruct (dinv_cut _ _ Hi q t Hq Ht) as (c & n & p & Hin & _).
      inversion Hin.
  - apply IH. eapply dinv_skip; eauto.
  - destruct (di_entries _ _ _ _ _ Hi c n p (elem_of_popped _ _ _)) as [Hp Hc].
    exists n. split; [auto|]. split; [auto|].
    intros q t' Hq Hgt'.
    assert (Ht' : t' ∉ V).
    { intros Ht. rewrite (di_goal _ _ _ _ _ Hi t' Ht) in Hgt'. discriminate. }
    destruct (dinv_cut _ _ Hi q t' Hq Ht') as (c' & n' & p' & Hin & _ & Hle).
    specialize (Hmin _ Hin). simpl in Hmin. lia.
  - apply IH. eapply dinv_expand; eauto.
  - exact I.
Qed.

(** From any frontier of paths the search ends: the nodes of [L] left to
    visit decrease, and the frontier shrinks in between. *)
Lemma dijkstras_total V F :
  (forall c n p, (c, n, p) ∈ F -> is_path neighbors start p n) ->
  exists r, dijkstras_from neighbors cost_min cost_max goal V F r.
Proof.
  remember (length (filter (fun x => x ∉ V) L)) as k eqn:Hk.
  revert V F Hk. induction k as [k IHk] using (well_founded_induction lt_wf).
  intros V F Hk. remember (length F) as m eqn:Hm. revert F Hm.
  induction m as [m IHm] using (well_founded_induction lt_wf). intros F Hm HF.
  destruct F as [|y F'].
  { exists (Returns None). constructor. }
  destruct (min_split (y :: F')) as (F1 & [[c n] p] & F2 & Heq & Hmin); [discriminate|].
  rewrite Heq in Hm, HF |- *. rewrite Heq in Hmin.
  destruct (decide (n ∈ V)) as [Hn|Hn].
  - destruct (IHm (length (F1 ++ F2))) with (F := F1 ++ F2) as [r Hr].
    + subst m. rewrite !length_app. simpl. lia.
    + reflexivity.
    + intros c' n' p' Hin. apply (HF c'). apply elem_of_pop_r; auto.
    + exists r. apply DJ_skip; auto.
  - destruct (goal n) eqn:Hg.
    + exists (Returns (Some p)). apply DJ_goal; auto.
    + destruct (expand neighbors cost_min cost_max c n p) as [es|] eqn:Hes;
        [|exists Panics; apply DJ_overflow; auto].
      destruct (IHk (length (filter (fun x => x ∉ {[n]} ∪ V) L)))
        with (V := {[n]} ∪ V) (F := F1 ++ F2 ++ es) as [r Hr].
      * subst k. assert (HQP : forall z, z ∉ {[n]} ∪ V -> z ∉ V) by set_solver.
        apply (filter_length_lt _ _ HQP L n).
        -- apply (path_closed _ L start p n HL Hst). apply (HF c). apply elem_of_popped.
        -- auto.
        -- set_solver.
      * reflexivity.
      * intros c' n' p' Hin. rewrite app_assoc, elem_of_app in Hin.
        destruct Hin as [Hin|Hin].
        -- apply (HF c'). apply elem_of_pop_r; auto.
        -- apply (elem_of_expand _ _ _ _ _ _ _ _ Hes) in Hin as (e & He & Heq').
           injection Heq' as -> -> ->.
           apply (is_path_snoc _ _ _ _ n); auto. apply (HF c). apply elem_of_popped.
      * exists r. eapply DJ_expand; eauto.
Qed.

(** From any frontier of paths no sequence of steps is infinite, whichever
    minimal entry each pop picks: the same measure as above. *)
Lemma dijkstras_halts V F :
  (forall c n p, (c, n, p) ∈ F -> is_path neighbors start p n) ->
  Acc (fun s' s => dj_step neighbors cost_min cost_max goal s s') (V, F).
Proof.
  remember (length (filter (fun x => x ∉ V) L)) as k eqn:Hk.
  revert V F Hk. induction k as [k IHk] using (well_founded_induction lt_wf).
  intros V F Hk. remember (length F) as m eqn:Hm. revert F Hm.
  induction m as [m IHm] using (well_founded_induction lt_wf). intros F Hm HF.
  constructor. intros [V' F'] Hs.
  inversion Hs as [V0 F1 F2 c n p Hmin Hn HeqV HeqF|V0 F1 F2 c n p es Hmin Hn Hg Hes HeqV HeqF];
    subst.
  - apply (IHm (length (F1 ++ F2))).
    + rewrite !length_app. simpl. lia.
    + reflexivity.
    + intros c' n' p' Hin. apply (HF c'). apply elem_of_pop_r; auto.
  - apply (IHk (length (filter (fun x => x ∉ {[n]} ∪ V) L))).
    + assert (HQP : forall z, z ∉ {[n]} ∪ V -> z ∉ V) by set_solver.
      apply (filter_length_lt _ _ HQP L n).
      * apply (path_closed _ L start p n HL Hst). apply (HF c). apply elem_of_popped.
      * auto.
      * set_solver.
    + reflexivity.
    + intros c' n' p' Hin. rewrite app_assoc, elem_of_app in Hin.
      destruct Hin as [Hin|Hin].
      * apply (HF c'). apply elem_of_pop_r; auto.
      * apply (elem_of_expand _ _ _ _ _ _ _ _ Hes) in Hin as (e & He & Heq').
        injection Heq' as -> -> ->.
        apply (is_path_snoc _ _ _ _ n); auto. apply (HF c). apply elem_of_popped.
Qed.

(** No overflow when the edges out of [L] weigh at most [wmax] and the
    cost type holds [0 ..= length L * wmax]: an entry's cost is at most
    [wmax] times the number of visited nodes (counted in [L]). *)
Section NoPanic.
Context (wmax : Z).
Hypothesis Hb : bounded neighbors L wmax.
Hypothesis Hw : 0 <= wmax.
Hypothesis Hlo : cost_min <= 0.
Hypothesis Hhi : Z.of_nat (length L) * wmax <= cost_max.

Definition visited_count (V : gset N) : nat := length (filter (fun x => x ∈ V) L).

Definition CInv (V : gset N) (F : list (Z * N * list (Edge N))) : Prop :=
  forall c n p, (c, n, p) ∈ F -> c <= Z.of_nat (visited_count V) * wmax.

Lemma bounded_weight n e : n ∈ L -> e ∈ neighbors n -> weight e <= wmax.
Proof.
  intros Hn He. unfold bounded in Hb. rewrite Forall_forall in Hb.
  specialize (Hb n Hn). rewrite Forall_forall in Hb. auto.
Qed.

Lemma visited_count_step V n : n ∈ L -> n ∉ V ->
  (visited_count V < visited_count ({[n]} ∪ V) /\ visited_count V < length L)%nat.
Proof.
  intros HnL Hn. unfold visited_count. split.
  - apply (filter_length_lt (fun x => x ∈ {[n]} ∪ V) (fun x => x ∈ V)
             ltac:(set_solver) L n HnL ltac:(set_solver) Hn).
  - pose proof (length_filter (fun x => x ∈ {[n]} ∪ V) L).
    pose proof (filter_length_lt (fun x => x ∈ {[n]} ∪ V) (fun x => x ∈ V)
                  ltac:(set_solver) L n HnL ltac:(set_solver) Hn). lia.
Qed.

Lemma dijkstras_from_no_panic V F r :
  dijkstras_from neighbors cost_min cost_max goal V F r ->
  DInv neighbors goal start V F -> CInv V F -> r <> Panics.
Proof.
  induction 1 as [V|V F1 F2 c n p r Hmin Hn Hrun IH|V F1 F2 c n p Hmin Hn Hg
                  |V F1 F2 c n p es r Hmin Hn Hg Hes Hrun IH|V F1 F2 c n p Hmin Hn Hg Hes];
    intros Hi HC.
  - discriminate.
  - apply IH; [eapply dinv_skip; eauto|].
    intros c' n' p' Hin. apply (HC c' n' p'). apply elem_of_pop_r; auto.
  - discriminate.
  - apply IH; [eapply dinv_expand; eauto|].
    destruct (di_entries _ _ _ _ _ Hi c n p (elem_of_popped _ _ _)) as [Hp _].
    pose proof (path_closed _ L start p n HL Hst Hp) as HnL.
    destruct (visited_count_step V n HnL Hn) as [Hlt _].
    pose proof (HC c n p (elem_of_popped _ _ _)) as Hc.
    intros c' n' p' Hin. rewrite app_assoc, elem_of_app in Hin.
    destruct Hin as [Hin|Hin].
    + pose proof (HC c' n' p' (elem_of_pop_r _ _ _ _ Hin)). nia.
    + apply (elem_of_expand _ _ _ _ _ _ _ _ Hes) in Hin as (e & He & Heq).
      injection Heq as -> -> ->.
      pose proof (bounded_weight n e HnL He). nia.
  - exfalso.
    destruct (di_entries _ _ _ _ _ Hi c n p (elem_of_popped _ _ _)) as [Hp Hpc].
    pose proof (path_closed _ L start p n HL Hst Hp) as HnL.
    destruct (visited_count_step V n HnL Hn) as [_ Hlt].
    pose proof (HC c n p (elem_of_popped _ _ _)) as Hc.
    assert (Hc0 : 0 <= c).
    { rewrite <- Hpc. apply (path_nonneg _ L start p n HL Hnn Hst Hp). }
    destruct (expand_some neighbors cost_min cost_max c n p) as [es Hes']; [|congruence].
    intros e He. pose proof (bounded_weight n e HnL He).
    pose proof (nonneg_weight _ L n e Hnn HnL He). nia.
Qed.

End NoPanic.

End Dijkstra.


Section Bfs.
Context {N : Type} `{Countable N}.
Context (neighbors : N -> list (Edge N)) (start : N).

Lemma rlen_some (m : gmap N (list N)) u r : m !! u = Some r -> rlen m u = length r.
Proof. unfold rlen. intros ->. reflexivity. Qed.

(** A path to an undiscovered node is at least as long as the route of
    some queued node. *)
Lemma binv_cut m Q : BInv neighbors start m Q ->
  forall p w, is_path neighbors start p w -> m !! w = None ->
  exists y, y ∈ Q /\ (rlen m y <= length p)%nat.
Proof.
  intros Hi.
  assert (Hgen : forall p x pre w, is_path neighbors start pre x ->
            is_path neighbors x p w -> m !! w = None -> is_Some (m !! x) ->
            exists y, y ∈ Q /\ (rlen m y <= length pre + length p)%nat).
  { induction p as [|e p IH]; intros x pre w Hpre Hp Hw Hx; simpl in Hp.
    - subst x. rewrite Hw in Hx. destruct Hx as [? Hx]. discriminate.
    - destruct Hp as [He Hp]. destruct Hx as [r Hr].
      destruct (bi_done _ _ _ _ Hi x r Hr) as [HxQ|Hall].
      + exists x. split; [auto|]. rewrite (rlen_some _ _ _ Hr).
        pose proof (bi_short _ _ _ _ Hi x r pre Hr Hpre). simpl. lia.
      + destruct (IH (dest e) (pre ++ [e]) w) as (y & Hy & Hle); auto.
        * apply (is_path_snoc _ _ _ _ x); auto.
        * exists y. split; auto. rewrite length_app in Hle. simpl in *. lia. }
  intros p w Hp Hw.
  destruct (Hgen p start [] w) as (y & Hy & Hle);
    [reflexivity|auto|auto|apply (bi_start _ _ _ _ Hi)|].
  exists y. simpl in Hle. auto.
Qed.

(** Discovering the destination [w] of an edge out of the queue's head
    [cur]. *)
Lemma binv_insert m cur q route e :
  BInv neighbors start m (cur :: q) -> m !! cur = Some route ->
  e ∈ neighbors cur -> m !! dest e = None ->
  BInv neighbors start (<[dest e := route ++ [dest e]]> m) (cur :: q ++ [dest e]).
Proof.
  intros Hi Hcur He Hw. pose proof Hi as [Hrt Hs Hq Hd Hsh Hly].
  set (w := dest e) in *.
  assert (Hin : forall u, is_Some (m !! u) -> w <> u).
  { intros u [r Hr] <-. congruence. }
  assert (Hrl : forall u, w <> u -> rlen (<[w := route ++ [w]]> m) u = rlen m u).
  { intros u Hu. unfold rlen. rewrite lookup_insert_ne; auto. }
  destruct Hly as (k & A & B & HQ & HA & HB & HAB).
  assert (HkA : rlen m cur = k).
  { destruct A as [|a A'].
    - rewrite HAB in HQ by reflexivity. discriminate.
    - injection HQ as Ha _. subst a. apply HA. apply elem_of_cons. auto. }
  assert (HQin : forall u, u ∈ A \/ u ∈ B -> is_Some (m !! u)).
  { intros u Hu. apply Hq. rewrite HQ, elem_of_app. auto. }
  split.
  - intros t r Ht. apply lookup_insert_Some in Ht as [[<- <-]|[Hne Ht]].
    + apply (route_snoc _ _ _ cur); [apply (Hrt cur route Hcur)|auto].
    + auto.
  - apply lookup_insert_is_Some'. right. auto.
  - intros u Hu. apply lookup_insert_is_Some'.
    rewrite elem_of_cons, elem_of_app, list_elem_of_singleton in Hu.
    destruct Hu as [->|[Hu| ->]].
    + right. apply Hq. apply elem_of_cons. auto.
    + right. apply Hq. apply elem_of_cons. auto.
    + left. reflexivity.
  - intros v r Hv. apply lookup_insert_Some in Hv as [[<- _]|[Hne Hv]].
    + left. rewrite elem_of_cons, elem_of_app, list_elem_of_singleton. auto.
    + destruct (Hd v r Hv) as [HvQ|Hall].
      * left. rewrite elem_of_cons, elem_of_app. rewrite elem_of_cons in HvQ. tauto.
      * right. intros e' He'. apply lookup_insert_is_Some'. right. auto.
  - intros t r p Ht Hp. apply lookup_insert_Some in Ht as [[<- <-]|[Hne Ht]].
    + destruct (binv_cut _ _ Hi p w Hp Hw) as (y & Hy & Hle).
      assert (Hy' : rlen m y = k \/ rlen m y = S k).
      { rewrite HQ, elem_of_app in Hy. destruct Hy as [Hy|Hy]; [left|right]; auto. }
      rewrite (rlen_some _ _ _ Hcur) in HkA.
      rewrite length_app. simpl. lia.
    + apply (Hsh t r p Ht Hp).
  - exists k, A, (B ++ [w]). split; [rewrite app_assoc, <- HQ; reflexivity|].
    split; [|split].
    + intros u Hu. rewrite Hrl; [apply HA; auto|]. apply Hin, HQin. auto.
    + intros u Hu. rewrite elem_of_app, list_elem_of_singleton in Hu.
      destruct Hu as [Hu| ->].
      * rewrite Hrl; [apply HB; auto|]. apply Hin, HQin. auto.
      * unfold rlen. rewrite lookup_insert_eq. simpl. rewrite length_app. simpl.
        rewrite <- HkA, (rlen_some _ _ _ Hcur). lia.
    + intros ->. rewrite HAB in HQ by reflexivity. discriminate.
Qed.

Lemma bfs_visit_inv cur route es : forall m q,
  BInv neighbors start m (cur :: q) -> m !! cur = Some route ->
  (forall e, e ∈ es -> e ∈ neighbors cur) ->
  BInv neighbors start (bfs_visit route es m q).1 (cur :: (bfs_visit route es m q).2) /\
  (forall e, e ∈ es -> is_Some ((bfs_visit route es m q).1 !! dest e)) /\
  (forall u r, m !! u = Some r -> (bfs_visit route es m q).1 !! u = Some r).
Proof.
  induction es as [|e es IH]; intros m q Hi Hcur Hes; simpl.
  - split; [auto|]. split; [intros e He; inversion He|auto].
  - assert (He : e ∈ neighbors cur) by (apply Hes; apply elem_of_cons; auto).
    assert (Hes' : forall e', e' ∈ es -> e' ∈ neighbors cur)
      by (intros e' He'; apply Hes; apply elem_of_cons; auto).
    destruct (m !! dest e) as [r0|] eqn:Hw.
    + destruct (IH m q Hi Hcur Hes') as (Hi' & Hall & Hmono).
      split; [auto|]. split; [|auto].
      intros e' He'. apply elem_of_cons in He' as [->|He']; [|auto].
      exists r0. apply Hmono. auto.
    + destruct (IH (<[dest e := route ++ [dest e]]> m) (q ++ [dest e]))
        as (Hi' & Hall & Hmono).
      * apply binv_insert; auto.
      * rewrite lookup_insert_ne; [auto|congruence].
      * auto.
      * split; [auto|]. split.
        -- intros e' He'. apply elem_of_cons in He' as [->|He']; [|auto].
           exists (route ++ [dest e]). apply Hmono. apply lookup_insert_eq.
        -- intros u r Hu. apply Hmono. rewrite lookup_insert_ne; [auto|congruence].
Qed.

(** Dropping the head once all its neighbors are discovered. *)
Lemma binv_pop m cur q : BInv neighbors start m (cur :: q) ->
  (forall e, e ∈ neighbors cur -> is_Some (m !! dest e)) ->
  BInv neighbors start m q.
Proof.
  intros [Hrt Hs Hq Hd Hsh Hly] Hall. split; auto.
  - intros u Hu. apply Hq. apply elem_of_cons. auto.
  - intros v r Hv. destruct (decide (v = cur)) as [->|Hne]; [right; auto|].
    destruct (Hd v r Hv) as [HvQ|Hv']; [left|right; auto].
    apply elem_of_cons in HvQ as [?|?]; [contradiction|auto].
  - destruct Hly as (k & A & B & HQ & HA & HB & HAB).
    destruct A as [|a A'].
    { rewrite HAB in HQ by reflexivity. discriminate. }
    injection HQ as Ha HQ. subst a.
    destruct A' as [|a' A''].
    + destruct B as [|b B'].
      * exists k, [], []. simpl in HQ. subst q.
        split; [reflexivity|]. split; [intros u Hu; inversion Hu|].
        split; [intros u Hu; inversion Hu|auto].
      * exists (S k), (b :: B'), []. simpl in HQ. subst q.
        split; [rewrite app_nil_r; reflexivity|]. split; [apply HB|].
        split; [intros u Hu; inversion Hu|discriminate].
    + exists k, (a' :: A''), B. split; [exact HQ|].
      split; [intros u Hu; apply HA; apply elem_of_cons; auto|].
      split; [auto|discriminate].
Qed.

Lemma binv_init : BInv neighbors start {[start := [start]]} [start].
Proof.
  split.
  - intros t r Ht. apply lookup_singleton_Some in Ht as [<- <-]. simpl. auto.
  - rewrite lookup_singleton_eq. eauto.
  - intros u Hu. apply list_elem_of_singleton in Hu as ->.
    rewrite lookup_singleton_eq. eauto.
  - intros v r Hv. apply lookup_singleton_Some in Hv as [<- _].
    left. apply list_elem_of_singleton. reflexivity.
  - intros t r p Ht _. apply lookup_singleton_Some in Ht as [_ <-]. simpl. lia.
  - exists 1%nat, [start], []. split; [reflexivity|].
    split; [|split; [intros u Hu; inversion Hu|discriminate]].
    intros u Hu. apply list_elem_of_singleton in Hu as ->.
    unfold rlen. rewrite lookup_singleton_eq. reflexivity.
Qed.

Lemma bfs_loop_sound m Q m' : bfs_loop neighbors m Q m' ->
  BInv neighbors start m Q -> BInv neighbors start m' [].
Proof.
  induction 1 as [m|m cur q route m' Hcur Hrun IH]; intros Hi; [auto|].
  apply IH.
  destruct (bfs_visit_inv cur route (neighbors cur) m q Hi Hcur (fun e He => He))
    as (Hi' & Hall & _).
  apply (binv_pop _ cur); auto.
Qed.

(** With the queue empty the routes are the answer. *)
Lemma binv_final m : BInv neighbors start m [] ->
  (forall t, is_Some (m !! t) <-> exists q, is_path neighbors start q t) /\
  (forall t r, m !! t = Some r -> is_route neighbors start r t /\
     forall q, is_path neighbors start q t -> (length r <= S (length q))%nat).
Proof.
  intros Hi. split.
  - intros t. split.
    + intros [r Hr].
      destruct (route_path _ _ _ _ (bi_route _ _ _ _ Hi t r Hr)) as (q & Hq & _). eauto.
    + intros (q & Hq).
      assert (Hgen : forall q' x, is_Some (m !! x) -> is_path neighbors x q' t ->
                is_Some (m !! t)).
      { induction q' as [|e q' IH]; intros x Hx Hp; simpl in Hp; [subst; auto|].
        destruct Hp as [He Hp]. apply (IH (dest e)); auto.
        destruct Hx as [r Hr].
        destruct (bi_done _ _ _ _ Hi x r Hr) as [Hx|Hall]; [inversion Hx|auto]. }
      apply (Hgen q start); auto. apply (bi_start _ _ _ _ Hi).
  - intros t r Ht. split; [apply (bi_route _ _ _ _ Hi t r Ht)|].
    intros q Hq. apply (bi_short _ _ _ _ Hi t r q Ht Hq).
Qed.

Section Total.
Context (L : list N).
Hypothesis HL : closed neighbors L.
Hypothesis Hst : start ∈ L.

Lemma binv_dom m Q u r : BInv neighbors start m Q -> m !! u = Some r -> u ∈ L.
Proof.
  intros Hi Hu. destruct (route_path _ _ _ _ (bi_route _ _ _ _ Hi u r Hu)) as (q & Hq & _).
  apply (path_closed _ L start q u HL Hst Hq).
Qed.

(** Each discovery takes a node of [L] off the undiscovered ones and puts
    one node on the queue. *)
Lemma bfs_visit_measure route es : forall (m : gmap N (list N)) q,
  (forall e, e ∈ es -> dest e ∈ L) ->
  (2 * length (filter (fun x => (bfs_visit route es m q).1 !! x = None) L)
     + length (bfs_visit route es m q).2
   <= 2 * length (filter (fun x => m !! x = None) L) + length q)%nat.
Proof.
  induction es as [|e es IH]; intros m q Hes; simpl; [lia|].
  assert (Hes' : forall e', e' ∈ es -> dest e' ∈ L)
    by (intros e' He'; apply Hes; apply elem_of_cons; auto).
  destruct (m !! dest e) eqn:Hw; [apply IH; auto|].
  specialize (IH (<[dest e := route ++ [dest e]]> m) (q ++ [dest e]) Hes').
  assert (HQP : forall x, <[dest e := route ++ [dest e]]> m !! x = None -> m !! x = None).
  { intros x. rewrite lookup_insert_None. tauto. }
  assert (Hlt : (length (filter (fun x => <[dest e := route ++ [dest e]]> m !! x = None) L)
                 < length (filter (fun x => m !! x = None) L))%nat).
  { apply (filter_length_lt _ _ HQP L (dest e));
      [apply Hes; apply elem_of_cons; auto|exact Hw|].
    cbv beta. rewrite lookup_insert_eq. discriminate. }
  rewrite length_app in IH. simpl in IH. lia.
Qed.

Lemma bfs_total m Q : BInv neighbors start m Q -> exists m', bfs_loop neighbors m Q m'.
Proof.
  remember (2 * length (filter (fun x => m !! x = None) L) + length Q)%nat as k eqn:Hk.
  revert m Q Hk. induction k as [k IH] using (well_founded_induction lt_wf).
  intros m Q Hk Hi. destruct Q as [|cur q]; [exists m; constructor|].
  assert (Hc : cur ∈ cur :: q) by (apply elem_of_cons; auto).
  destruct (bi_queue _ _ _ _ Hi cur Hc) as [route Hcur].
  destruct (bfs_visit_inv cur route (neighbors cur) m q Hi Hcur (fun e He => He))
    as (Hi' & Hall & _).
  assert (Hes : forall e, e ∈ neighbors cur -> dest e ∈ L).
  { intros e He. apply (closed_dest _ L cur e HL); [|auto].
    apply (binv_dom m (cur :: q) cur route Hi Hcur). }
  pose proof (bfs_visit_measure route (neighbors cur) m q Hes) as Hms.
  set (m1 := (bfs_visit route (neighbors cur) m q).1) in *.
  set (q1 := (bfs_visit route (neighbors cur) m q).2) in *.
  destruct (IH (2 * length (filter (fun x => m1 !! x = None) L) + length q1)%nat)
    with (m := m1) (Q := q1) as [m' Hm']; [subst k; simpl; lia|reflexivity| |].
  - apply (binv_pop _ cur); auto.
  - exists m'. eapply BL_step; eauto.
Qed.

End Total.
End Bfs.

(** The infinite chain: every node [k + n] is reached from [k]. *)
Lemma chain_path n k :
  is_path chain k (map (fun i => mkEdge 1 i (S i)) (seq k n)) (k + n)%nat.
Proof.
  revert k; induction n as [|n IH]; intros k; simpl.
  - lia.
  - split; [apply list_elem_of_singleton; reflexivity|].
    replace (k + S n)%nat with (S k + n)%nat by lia. apply IH.
Qed.

(** On the chain of weight-0 edges with no goal, with a cost type that
    holds 0, the visited nodes are always [0 .. k - 1] and the frontier
    holds node [k] at cost 0: no run of the search ends. *)
Lemma chain0_dijkstras_from cost_min cost_max V F r :
  cost_min <= 0 <= cost_max ->
  dijkstras_from chain0 cost_min cost_max (fun _ => false) V F r -> forall k : nat,
  (forall x, x ∈ V <-> (x < k)%nat) -> (forall y, y ∈ F -> (y.1.2 <= k)%nat /\ y.1.1 = 0) ->
  (exists y, y ∈ F /\ y.1.2 = k) -> False.
Proof.
  intros Hr.
  assert (Hexp : forall n p, expand chain0 cost_min cost_max 0 n p =
                   Some [(0, S n, p ++ [mkEdge 0 n (S n)])]).
  { intros n p. unfold expand, chain0, checked_add. cbn.
    rewrite decide_True by lia. reflexivity. }
  induction 1 as [V|V F1 F2 c n p r Hmin Hn Hrun IH|V F1 F2 c n p Hmin Hn Hg
                  |V F1 F2 c n p es r Hmin Hn Hg Hes Hrun IH|V F1 F2 c n p Hmin Hn Hg Hes];
    intros k HV Hle Hex.
  - destruct Hex as (y & Hy & _). inversion Hy.
  - apply (IH k HV).
    + intros y Hy. apply Hle, elem_of_pop_r; auto.
    + destruct Hex as (y & Hy & Hyk). exists y. split; [|auto].
      apply (elem_of_pop _ _ (c, n, p)); auto. intros ->. simpl in Hyk. subst n.
      apply HV in Hn. lia.
  - discriminate.
  - pose proof (Hle (c, n, p) (elem_of_popped _ _ _)) as [Hnk Hc0]. simpl in Hnk, Hc0.
    subst c. rewrite Hexp in Hes. injection Hes as <-.
    assert (n = k) as ->.
    { assert (~ (n < k)%nat) by (rewrite <- HV; auto). lia. }
    apply (IH (S k)).
    + intros x. rewrite elem_of_union, elem_of_singleton, HV. lia.
    + intros y Hy. rewrite app_assoc, elem_of_app in Hy. destruct Hy as [Hy|Hy].
      * pose proof (Hle y (elem_of_pop_r _ _ _ _ Hy)). lia.
      * apply list_elem_of_singleton in Hy as ->. simpl. lia.
    + exists (0, S k, p ++ [mkEdge 0 k (S k)]). split; [|reflexivity].
      rewrite app_assoc, elem_of_app. right. apply list_elem_of_singleton. reflexivity.
  - pose proof (Hle (c, n, p) (elem_of_popped _ _ _)) as [_ Hc0]. simpl in Hc0.
    subst c. rewrite Hexp in Hes. discriminate.
Qed.

Lemma pop_single {A} (F1 F2 : list A) y x : F1 ++ y :: F2 = [x] -> F1 = [] /\ y = x /\ F2 = [].
Proof. destruct F1 as [|z [|w F1]]; simpl; intros Heq; simplify_eq; auto. Qed.

(** A search whose frontier holds one entry pops it. *)
Lemma dijkstras_single {N : Type} `{Countable N} (neighbors : N -> list (Edge N))
    cost_min cost_max goal V (c : Z) (n : N) p r :
  dijkstras_from neighbors cost_min cost_max goal V [(c, n, p)] r ->
  (n ∈ V /\ r = Returns None) \/
  ((n ∉ V) /\ goal n = true /\ r = Returns (Some p)) \/
  ((n ∉ V) /\ goal n = false /\
   ((exists es, expand neighbors cost_min cost_max c n p = Some es /\
      dijkstras_from neighbors cost_min cost_max goal ({[n]} ∪ V) es r) \/
    (expand neighbors cost_min cost_max c n p = None /\ r = Panics))).
Proof.
  intros Hr. remember [(c, n, p)] as F eqn:HF.
  destruct Hr as [V|V F1 F2 c' n' p' r Hmin Hn Hrun|V F1 F2 c' n' p' Hmin Hn Hg
                 |V F1 F2 c' n' p' es r Hmin Hn Hg Hes Hrun|V F1 F2 c' n' p' Hmin Hn Hg Hes];
    [discriminate|..]; apply pop_single in HF as (-> & Heq & ->);
    injection Heq as -> -> ->.
  - left. split; [auto|]. cbn [app] in Hrun. remember [] as F0 eqn:HF0.
    destruct Hrun; [reflexivity|..];
      match goal with H : ?l ++ _ :: _ = [] |- _ => destruct l; discriminate end.
  - auto.
  - right; right. split; [auto|]. split; [auto|]. left. eauto.
  - right; right. auto.
Qed.

(** On the chain the routes cover [0 .. k] and the queue is [k + 1]'s
    predecessor [k]: the loop never finishes. *)
Lemma chain_bfs_loop m Q m' : bfs_loop chain m Q m' -> forall k : nat,
  (forall x, is_Some (m !! x) <-> (x <= k)%nat) -> Q = [k] -> False.
Proof.
  induction 1 as [m|m cur q route m' Hcur Hrun IH]; intros k Hm HQ; [discriminate|].
  injection HQ as -> ->.
  assert (Hn : m !! S k = None).
  { destruct (m !! S k) eqn:E; [|reflexivity]. exfalso.
    assert (Hs : is_Some (m !! S k)) by eauto. apply Hm in Hs. lia. }
  apply (IH (S k)).
  - unfold chain. cbn [bfs_visit dest]. rewrite Hn. cbn [bfs_visit fst].
    intros x. rewrite lookup_insert_is_Some', Hm. lia.
  - unfold chain. cbn [bfs_visit dest]. rewrite Hn. reflexivity.
Qed.

End PFFacts.

(** ** The pathfinding claims *)
Module PFClaims.
Import PF PFFacts.
Section S.
Context {N : Type} `{Countable N}.

(** Claim C1 (amended): for a graph in which the nodes reachable from
    [start] lie in a finite set [L] closed under [neighbors], whose edges
    there have non-negative weights of at most [wmax], with a cost type
    holding every cost from 0 to [length L * wmax]: no run of
    [dijkstras(start, goal)] (the spec's [shortest_path]) is infinite,
    whichever minimal entry each pop picks, some run ends, and every run
    that ends returns without an overflow panic; [Some p] is a path from
    [start] to a goal node no dearer than any other path from [start] to a
    goal node, and [None] is returned exactly when no node reachable from
    [start] is a goal. *)
Theorem dijkstras_shortest (neighbors : N -> list (Edge N)) (goal : N -> bool)
    (start : N) (L : list N) (cost_min cost_max wmax : Z) :
  closed neighbors L -> nonneg neighbors L -> start ∈ L ->
  bounded neighbors L wmax -> 0 <= wmax ->
  cost_min <= 0 -> Z.of_nat (length L) * wmax <= cost_max ->
  Acc (fun s' s => dj_step neighbors cost_min cost_max goal s s') (∅, [(0, start, [])]) /\
  (exists r, dijkstras neighbors cost_min cost_max start goal r) /\
  forall r, dijkstras neighbors cost_min cost_max start goal r ->
    exists r', r = Returns r' /\
    (forall p, r' = Some p -> exists t, is_path neighbors start p t /\ goal t = true /\
       forall q t', is_path neighbors start q t' -> goal t' = true ->
         path_cost p <= path_cost q) /\
    (r' = None <-> ~ exists q t, is_path neighbors start q t /\ goal t = true).
Proof.
  intros HL Hnn Hst Hb Hw Hlo Hhi.
  assert (Hinit : forall c n p, (c, n, p) ∈ [(0, start, [])] -> is_path neighbors start p n).
  { intros c n p Hin. apply list_elem_of_singleton in Hin.
    injection Hin as -> -> ->. reflexivity. }
  split; [eapply (dijkstras_halts neighbors goal start L); eauto|].
  split; [eapply (dijkstras_total neighbors goal start L); eauto|].
  intros r Hr.
  pose proof (dinv_init neighbors goal start L HL Hnn Hst) as Hi.
  pose proof (dijkstras_from_sound neighbors goal start L HL Hnn Hst cost_min cost_max
                _ _ r Hr Hi) as Hs.
  assert (Hnp : r <> Panics).
  { apply (dijkstras_from_no_panic neighbors goal start L HL Hnn Hst cost_min cost_max
             wmax Hb Hw Hlo Hhi _ _ r Hr Hi).
    intros c n p Hin. apply list_elem_of_singleton in Hin. injection Hin as -> -> ->.
    unfold visited_count. lia. }
  destruct r as [[p|]|]; [..|contradiction]; eexists; (split; [reflexivity|]).
  - split; [intros p' Hp; injection Hp as <-; exact Hs|].
    split; [discriminate|]. intros Hno. exfalso. apply Hno.
    destruct Hs as (t & Hp & Hg & _). eauto.
  - split; [discriminate|]. split; [|reflexivity].
    intros _ (q & t & Hq & Hg). rewrite (Hs q t Hq) in Hg. discriminate.
Qed.

(** Claim C5 (amended): for a graph in which the nodes reachable from
    [start] lie in a finite set [L] closed under [neighbors],
    [bfs_all(start)] returns; whatever it returns maps exactly the nodes
    reachable from [start], and maps each of them to a route given as the
    nodes from [start] to it, consecutive nodes joined by an edge, with no
    more edges than any path from [start] to it. *)
Theorem bfs_all_routes (neighbors : N -> list (Edge N)) (start : N) (L : list N) :
  closed neighbors L -> start ∈ L ->
  (exists m, bfs_all neighbors start m) /\
  forall m, bfs_all neighbors start m ->
    (forall t, is_Some (m !! t) <-> exists q, is_path neighbors start q t) /\
    (forall t r, m !! t = Some r -> is_route neighbors start r t /\
       forall q, is_path neighbors start q t -> (length r <= S (length q))%nat).
Proof.
  intros HL Hst. split.
  - apply (bfs_total neighbors start L HL Hst). apply binv_init.
  - intros m Hm. apply binv_final.
    apply (bfs_loop_sound neighbors start _ _ _ Hm). apply binv_init.
Qed.

End S.

(** Claim C1, counterexample: on the infinite chain [0 -> 1 -> 2 -> ...]
    of edges of weight 0, with no goal node and costs in [i32], the weights
    are non-negative and no node reachable from 0 is a goal, yet no run of
    [dijkstras] ends, so none returns [None]. On the finite path
    [0 -> 1 -> 2] with weights [i32::MAX] and 1 and goal 2, the weights are
    non-negative and the goal is reachable, yet the search panics on the
    overflowing cost and returns no path. *)
Lemma dijkstras_chain_no_result :
  (forall n e, e ∈ chain0 n -> 0 <= weight e) /\
  (forall q t, is_path chain0 0%nat q t -> (fun _ : nat => false) t = false) /\
  ~ (exists r, dijkstras chain0 i32_min i32_max 0%nat (fun _ => false) r) /\
  (forall n e, e ∈ heavy n -> 0 <= weight e) /\
  is_path heavy 0%nat [mkEdge i32_max 0 1; mkEdge 1 1 2]%nat 2%nat /\
  dijkstras heavy i32_min i32_max 0%nat (fun n => Nat.eqb n 2) Panics /\
  (forall r, dijkstras heavy i32_min i32_max 0%nat (fun n => Nat.eqb n 2) r -> r = Panics).
Proof.
  assert (He0 : expand heavy i32_min i32_max 0 0%nat [] =
                Some [(i32_max, 1%nat, [mkEdge i32_max 0 1]%nat)]) by (vm_compute; reflexivity).
  assert (He1 : expand heavy i32_min i32_max i32_max 1%nat [mkEdge i32_max 0 1]%nat = None)
    by (vm_compute; reflexivity).
  split; [|split; [|split; [|split; [|split; [|split]]]]].
  - intros n e He. unfold chain0 in He. apply list_elem_of_singleton in He as ->.
    simpl. lia.
  - intros q t _. reflexivity.
  - intros (r & Hr).
    apply (chain0_dijkstras_from i32_min i32_max _ _ _ ltac:(unfold i32_min, i32_max; lia) Hr 0%nat).
    + intros x. split; [set_solver|lia].
    + intros y Hy. apply list_elem_of_singleton in Hy as ->. simpl. lia.
    + exists (0, 0%nat, []). split; [apply list_elem_of_singleton|]; reflexivity.
  - intros [|[|n]] e He; cbn in He;
      [apply list_elem_of_singleton in He as ->|apply list_elem_of_singleton in He as ->
      |inversion He]; vm_compute; discriminate.
  - cbn. split; [apply list_elem_of_singleton; reflexivity|].
    split; [apply list_elem_of_singleton; reflexivity|reflexivity].
  - unfold dijkstras.
    apply (DJ_expand heavy i32_min i32_max _ ∅ [] [] 0 0%nat []
             [(i32_max, 1%nat, [mkEdge i32_max 0 1]%nat)] Panics); [| |reflexivity|exact He0|].
    + intros y Hy. apply list_elem_of_singleton in Hy as ->. simpl. lia.
    + set_solver.
    + apply (DJ_overflow heavy i32_min i32_max _ _ [] [] i32_max 1%nat [mkEdge i32_max 0 1]%nat);
        [| |reflexivity|exact He1].
      * intros y Hy. apply list_elem_of_singleton in Hy as ->. simpl. lia.
      * set_solver.
  - intros r Hr. apply dijkstras_single in Hr
      as [[Hin _]|[(_ & Hg & _)|(_ & _ & [(es & Hes & Hr)|(Hes & _)])]];
      [set_solver|discriminate| |rewrite He0 in Hes; discriminate].
    rewrite He0 in Hes. injection Hes as <-.
    apply dijkstras_single in Hr
      as [[Hin _]|[(_ & Hg & _)|(_ & _ & [(es & Hes & _)|(_ & ->)])]];
      [set_solver|discriminate|rewrite He1 in Hes; discriminate|reflexivity].
Qed.

(** Claim C1: on the diamond [tiny] with costs in [i32] and weights of
    at most 5 the hypotheses hold and the search returns. *)
Lemma dijkstras_shortest_witness :
  closed tiny [0; 1; 2]%nat /\ nonneg tiny [0; 1; 2]%nat /\ bounded tiny [0; 1; 2]%nat 5 /\
  exists r, dijkstras tiny i32_min i32_max 0%nat (fun n => Nat.eqb n 2) r.
Proof.
  assert (HL : closed tiny [0; 1; 2]%nat).
  { unfold closed. apply (bool_decide_unpack _). vm_compute. reflexivity. }
  assert (Hn : nonneg tiny [0; 1; 2]%nat).
  { unfold nonneg. apply (bool_decide_unpack _). vm_compute. reflexivity. }
  assert (Hb : bounded tiny [0; 1; 2]%nat 5).
  { unfold bounded. apply (bool_decide_unpack _). vm_compute. reflexivity. }
  assert (Hs : 0%nat ∈ [0; 1; 2]%nat).
  { apply (bool_decide_unpack _). vm_compute. reflexivity. }
  split; [exact HL|]. split; [exact Hn|]. split; [exact Hb|].
  exact (proj1 (proj2 (dijkstras_shortest tiny (fun n => Nat.eqb n 2) 0%nat [0; 1; 2]%nat
                         i32_min i32_max 5 HL Hn Hs Hb
                         ltac:(lia) ltac:(unfold i32_min; lia) ltac:(unfold i32_max; simpl; lia)))).
Defined.


(** Claim C5, counterexample: on the infinite chain every node is
    reachable from 0, so every finite map misses a reachable node, and the
    breadth-first loop never returns. *)
Lemma bfs_all_chain_no_result :
  (forall m : gmap nat (list nat), exists t, (exists q, is_path chain 0%nat q t) /\ m !! t = None) /\
  ~ exists m, bfs_all chain 0%nat m.
Proof.
  split.
  - intros m. exists (fresh (dom m)). split.
    + exists (map (fun i => mkEdge 1 i (S i)) (seq 0 (fresh (dom m)))).
      apply (chain_path _ 0).
    + apply not_elem_of_dom. apply is_fresh.
  - intros (m & Hm). apply (chain_bfs_loop _ _ _ Hm 0%nat); [|reflexivity].
    intros x. rewrite lookup_singleton_is_Some. lia.
Qed.

(** Claim C5: on the diamond [tiny] the hypothesis holds and the search
    returns. *)
Lemma bfs_all_routes_witness :
  closed tiny [0; 1; 2]%nat /\ exists m, bfs_all tiny 0%nat m.
Proof.
  assert (HL : closed tiny [0; 1; 2]%nat).
  { unfold closed. apply (bool_decide_unpack _). vm_compute. reflexivity. }
  assert (Hs : 0%nat ∈ [0; 1; 2]%nat).
  { apply (bool_decide_unpack _). vm_compute. reflexivity. }
  split; [exact HL|].
  exact (proj1 (bfs_all_routes tiny 0%nat [0; 1; 2]%nat HL Hs)).
Defined.

End PFClaims.

(** ** Further facts about the disjoint set *)

Module UFMore.
Import DS Forest UFInv ForestFacts UFFacts UFObs.
Section S.
Context {E : Type} `{Countable E}.

Lemma index_with_parents (ds : @DisjointSet E _ _) P' e :
  index_of (with_parents ds P') e = index_of ds e.
Proof. reflexivity. Qed.

(** Over a roster without duplicates, [same_set] compares the roots. *)
Lemma same_set_rt (xs : list E) ds rt x y : NoDup xs -> Inv xs ds rt -> x ∈ xs -> y ∈ xs ->
  exists ix iy, index_of ds x = Some ix /\ index_of ds y = Some iy /\
    (ix < length xs)%nat /\ (iy < length xs)%nat /\
    (same_set ds x y = true <-> rt ix = rt iy).
Proof.
  intros Hnd Hinv Hx Hy.
  destruct (find_step xs ds rt x Hinv Hx)
    as (ix & sx & P1 & rx & Hix & Hixl & _ & _ & _ & Hrx & _ & Hfx & _ & Hinv1).
  destruct (find_step xs _ rt y Hinv1 Hy)
    as (iy & sy & P2 & ry & Hiy & Hiyl & _ & _ & _ & Hry & _ & Hfy & _ & _).
  rewrite index_with_parents in Hiy.
  exists ix, iy. do 4 (split; [auto|]).
  unfold same_set. rewrite Hfx, Hfy. rewrite bool_decide_eq_true. split.
  - intros ->. apply (NoDup_lookup xs _ _ ry Hnd); auto.
  - intros Heq. rewrite Heq in Hrx. congruence.
Qed.

Lemma same_set_sym (xs : list E) ds rt x y : NoDup xs -> Inv xs ds rt -> x ∈ xs -> y ∈ xs ->
  same_set ds x y = same_set ds y x.
Proof.
  intros Hnd Hinv Hx Hy.
  destruct (same_set_rt xs ds rt x y Hnd Hinv Hx Hy) as (ix & iy & Hix & Hiy & _ & _ & Hxy).
  destruct (same_set_rt xs ds rt y x Hnd Hinv Hy Hx) as (iy' & ix' & Hiy' & Hix' & _ & _ & Hyx).
  assert (ix' = ix) as -> by congruence. assert (iy' = iy) as -> by congruence.
  destruct (same_set ds x y), (same_set ds y x); auto.
  - symmetry. apply Hyx. symmetry. apply Hxy. reflexivity.
  - apply Hxy. symmetry. apply Hyx. reflexivity.
Qed.

(** Counting the elements of a list by their indices. *)
Lemma filter_count (l : list E) (P : E -> Prop) `{forall x, Decision (P x)} rt r :
  (forall k x, l !! k = Some x -> (P x <-> rt k = r)) ->
  length (filter P l) = count rt r (length l).
Proof.
  induction l as [|x l IH] using rev_ind; intros HP; [reflexivity|].
  rewrite filter_app, !length_app. simpl. rewrite Nat.add_1_r. simpl.
  rewrite IH.
  - assert (Hx : P x <-> rt (length l) = r).
    { apply HP. apply list_lookup_middle. reflexivity. }
    rewrite filter_cons, filter_nil. repeat case_decide; simpl; tauto || lia.
  - intros k y Hk. apply HP. apply lookup_app_l_Some. auto.
Qed.

(** The roots of a forest are the indices that are their own root. *)
Lemma root_idxs_count (P : list entry) rt : wf P rt ->
  length (root_idxs 0 P) = length (filter (fun j => rt j = j) (seq 0 (length P))).
Proof.
  intros Hwf. apply Permutation_length. apply NoDup_Permutation.
  - apply root_idxs_nodup.
  - apply NoDup_filter. apply NoDup_seq.
  - intros j. rewrite root_idxs_elem0, list_elem_of_filter,
      elem_of_seq. split.
    + intros [o Ho]. split; [apply (wf_rt_self _ _ Hwf j o Ho)|].
      apply lookup_lt_Some in Ho. lia.
    + intros [Hj Hl]. destruct (wf_rt_root _ _ Hwf j) as [s Hs]; [lia|].
      rewrite Hj in Hs. eauto.
Qed.

(** Dropping one element from a filter over a duplicate-free list. *)
Lemma filter_drop_one (l : list nat) (P Q : nat -> Prop)
    `{forall x, Decision (P x)} `{forall x, Decision (Q x)} s :
  NoDup l -> s ∈ l -> Q s -> (forall j, P j <-> Q j /\ j <> s) ->
  length (filter Q l) = S (length (filter P l)).
Proof.
  intros Hnd Hs HQs HPQ. induction l as [|y l IH]; [inversion Hs|].
  apply NoDup_cons in Hnd as [Hy Hnd]. rewrite !filter_cons.
  apply elem_of_cons in Hs as [->|Hs].
  - assert (Heq : length (filter P l) = length (filter Q l)).
    { clear IH Hnd. induction l as [|z l IH']; [reflexivity|].
      apply not_elem_of_cons in Hy as [Hzy Hy]. assert (z <> y) by (intros ->; auto).
      rewrite !filter_cons. pose proof (HPQ z) as Hz. specialize (IH' Hy).
      repeat case_decide; simpl; try lia; tauto. }
    specialize (HPQ y). repeat case_decide; simpl; try lia; tauto.
  - specialize (IH Hnd Hs). specialize (HPQ y).
    assert (y <> s) by (intros ->; contradiction).
    repeat case_decide; simpl; try lia; tauto.
Qed.

(** [roots] succeeds in an invariant state, with one entry per root index. *)
Lemma roots_inv (xs : list E) ds rt : Inv xs ds rt ->
  exists rs, roots ds = Some rs /\ length rs = length (root_idxs 0 (parents ds)).
Proof.
  intros Hinv.
  assert (Hl : forall k, k ∈ root_idxs 0 (parents ds) -> (k < length (nodes ds))%nat).
  { intros k Hk. apply root_idxs_elem0 in Hk as [o Ho]. apply lookup_lt_Some in Ho.
    rewrite (inv_nodes _ _ _ Hinv), <- (inv_length _ _ _ Hinv); auto. }
  unfold roots. induction (root_idxs 0 (parents ds)) as [|k l IH]; [exists []; auto|].
  destruct IH as (rs & Hrs & Hlen); [intros k' Hk'; apply Hl; right; auto|].
  destruct (lookup_lt_is_Some_2 (nodes ds) k) as [e He]; [apply Hl; left|].
  exists (e :: rs). simpl. rewrite He, Hrs. simpl. auto.
Qed.

End S.
End UFMore.

Module UFUnion.
Import DS Forest UFInv ForestFacts UFFacts UFObs UFMore.
Section S.
Context {E : Type} `{Countable E}.

Lemma same_set_idx (xs : list E) ds rt x y ix iy : NoDup xs -> Inv xs ds rt ->
  index_of ds x = Some ix -> index_of ds y = Some iy ->
  (same_set ds x y = true <-> rt ix = rt iy).
Proof.
  intros Hnd Hinv Hx Hy.
  destruct (inv_index xs ds rt x ix Hinv Hx) as (_ & Hxs & _).
  destruct (inv_index xs ds rt y iy Hinv Hy) as (_ & Hys & _).
  destruct (same_set_rt xs ds rt x y Hnd Hinv) as (ix' & iy' & Hx' & Hy' & _ & _ & Hiff);
    [eapply list_elem_of_lookup_2; eauto|eapply list_elem_of_lookup_2; eauto|].
  rewrite Hx in Hx'. rewrite Hy in Hy'. injection Hx' as <-. injection Hy' as <-. exact Hiff.
Qed.

(** [union(a, b)] joins the sets of [a] and [b] and no other two. *)
Lemma union_partition (xs : list E) ds rt a b : NoDup xs -> Inv xs ds rt -> a ∈ xs -> b ∈ xs ->
  exists u ds' rt', union a b ds = Some (u, ds') /\ Inv xs ds' rt' /\
    (u = true <-> same_set ds a b = false) /\
    forall x y, x ∈ xs -> y ∈ xs ->
      (same_set ds' x y = true <->
         same_set ds x y = true \/
         (same_set ds x a = true /\ same_set ds y b = true) \/
         (same_set ds x b = true /\ same_set ds y a = true)).
Proof.
  intros Hnd Hinv Ha Hb.
  destruct (union_step xs ds rt a b Hinv Ha Hb) as (ia & ib & Hia & Hib & _ & _ & Hcase).
  assert (Hab : same_set ds a b = true <-> rt ia = rt ib)
    by (apply (same_set_idx xs ds rt); auto).
  destruct Hcase as [(Hsame & P' & Hu & _ & Hinv') |
                     (Hdiff & sa & sb & big & small & P' & Hra & Hrb & Hbs & Hu & _ & _ & Hinv')].
  - exists false, (with_parents ds P'), rt. do 2 (split; [auto|]). split.
    + split; [discriminate|]. intros Hf. apply Hab in Hsame. congruence.
    + intros x y Hx Hy.
      destruct (inv_index_in xs ds rt x Hinv Hx) as [ix Hix].
      destruct (inv_index_in xs ds rt y Hinv Hy) as [iy Hiy].
      rewrite (same_set_idx xs _ rt x y ix iy Hnd Hinv') by auto.
      rewrite !(same_set_idx xs ds rt _ _ _ _ Hnd Hinv Hix), !(same_set_idx xs ds rt _ _ _ _ Hnd Hinv Hiy)
        by eauto.
      split; intros; lia.
  - exists true, (with_parents ds P'), (merge rt small big). do 2 (split; [auto|]). split.
    + split; [intros _|auto]. destruct (same_set ds a b) eqn:Hs; [|auto].
      exfalso. apply Hdiff. apply Hab. auto.
    + intros x y Hx Hy.
      destruct (inv_index_in xs ds rt x Hinv Hx) as [ix Hix].
      destruct (inv_index_in xs ds rt y Hinv Hy) as [iy Hiy].
      rewrite (same_set_idx xs _ (merge rt small big) x y ix iy Hnd Hinv') by auto.
      rewrite !(same_set_idx xs ds rt _ _ _ _ Hnd Hinv Hix), !(same_set_idx xs ds rt _ _ _ _ Hnd Hinv Hiy)
        by eauto.
      unfold merge. repeat case_decide; split; intros; lia.
Qed.

Lemma root_idxs_create k n :
  root_idxs k (map (fun n => (n, Some 1)) (seq k n)) = seq k n.
Proof.
  revert k. induction n as [|n IH]; intros k; [reflexivity|].
  simpl. rewrite decide_True by reflexivity. f_equal. apply IH.
Qed.

Lemma mapM_lookup_seq (pre l : list E) :
  mapM (fun k => (pre ++ l) !! k) (seq (length pre) (length l)) = Some l.
Proof.
  revert pre. induction l as [|x l IH]; intros pre; [reflexivity|].
  simpl. rewrite list_lookup_middle by reflexivity. simpl.
  specialize (IH (pre ++ [x])). rewrite <- app_assoc, length_app, Nat.add_1_r in IH.
  simpl in IH. rewrite IH. reflexivity.
Qed.

End S.
End UFUnion.

(** ** Further properties of [DisjointSet] *)

Module UFExtras.
Import DS Forest UFInv ForestFacts UFFacts UFObs UFMore UFUnion.
Section S.
Context {E : Type} `{Countable E}.

(** [create] makes every element its own set: [roots()] lists the
    collection as given (duplicates included), and for each element [e],
    [find(e)] is [e] and [set_size(e)] is 1, neither changing the state. *)
Theorem create_singletons (xs : list E) :
  roots (create xs) = Some xs /\
  forall e, e ∈ xs ->
    find e (create xs) = Some (e, create xs) /\
    set_size e (create xs) = Some (1, create xs).
Proof.
  split.
  - unfold roots. cbn. rewrite root_idxs_create.
    apply (mapM_lookup_seq [] xs).
  - intros e He.
    destruct (build_reverse_in xs 0 ∅ e He) as [j Hj].
    pose proof (rev_lookup xs e j Hj) as Hxj.
    assert (Hjl : (j < length xs)%nat) by (eapply lookup_lt_Some; eauto).
    assert (Hp : parents (create xs) !! j = Some (j, Some 1)).
    { cbn. rewrite create_parents_lookup. rewrite decide_True by auto. reflexivity. }
    pose proof (find_idx_root _ _ _ Hp) as Hf.
    assert (Hi : index_of (create xs) e = Some j) by exact Hj.
    split.
    + unfold find. rewrite Hi. cbn [mbind option_bind]. unfold lift. rewrite Hf.
      rewrite with_parents_same. cbn. rewrite Hxj. reflexivity.
    + unfold set_size. rewrite Hi. cbn [mbind option_bind]. unfold lift. rewrite Hf.
      rewrite with_parents_same. reflexivity.
Qed.

(** In every reachable state of a roster without duplicates, [set_size(e)]
    is the number of roster elements [x] for which [find(x) == find(e)]. *)
Theorem set_size_counts (xs : list E) ds e :
  reachable xs ds -> NoDup xs -> Z.of_nat (length xs) <= usize_max -> e ∈ xs ->
  exists ds', set_size e ds =
    Some (Z.of_nat (length (filter (fun x => same_set ds x e = true) xs)), ds').
Proof.
  intros Hr Hnd Hlen He. destruct (reachable_inv xs ds Hlen Hr) as [rt Hinv].
  destruct (find_step xs ds rt e Hinv He)
    as (ie & s & P' & y & Hie & Hiel & Hroot & _ & _ & _ & _ & _ & Hss & _).
  exists (with_parents ds P'). rewrite Hss. do 3 f_equal.
  rewrite (wf_size _ _ (inv_wf _ _ _ Hinv) _ _ Hroot), (inv_length _ _ _ Hinv).
  f_equal. symmetry. apply filter_count.
  intros k x Hk.
  destruct (inv_index_in xs ds rt x Hinv) as [ix Hix]; [eapply list_elem_of_lookup_2; eauto|].
  destruct (inv_index xs ds rt x ix Hinv Hix) as (_ & Hxs & _).
  assert (ix = k) as -> by (apply (NoDup_lookup xs _ _ x Hnd); auto).
  apply (same_set_idx xs ds rt); auto.
Qed.

(** In every reachable state of a roster without duplicates, [union(a, b)]
    on roster elements returns, returns [true] exactly when [a] and [b] were
    in different sets, and afterwards two roster elements are in the same
    set exactly when they were before, or one was with [a] and the other
    with [b]. *)
Theorem union_joins_two_sets (xs : list E) ds a b :
  reachable xs ds -> NoDup xs -> Z.of_nat (length xs) <= usize_max -> a ∈ xs -> b ∈ xs ->
  exists u ds', union a b ds = Some (u, ds') /\
    (u = true <-> same_set ds a b = false) /\
    forall x y, x ∈ xs -> y ∈ xs ->
      (same_set ds' x y = true <->
         same_set ds x y = true \/
         (same_set ds x a = true /\ same_set ds y b = true) \/
         (same_set ds x b = true /\ same_set ds y a = true)).
Proof.
  intros Hr Hnd Hlen Ha Hb. destruct (reachable_inv xs ds Hlen Hr) as [rt Hinv].
  destruct (union_partition xs ds rt a b Hnd Hinv Ha Hb) as (u & ds' & rt' & Hu & _ & Hiff & Hxy).
  exists u, ds'. auto.
Qed.

(** In every reachable state, a [union(a, b)] on roster elements that
    returns [true] removes exactly one element from [roots()], and one that
    returns [false] leaves its length as it was. *)
Theorem union_roots_count (xs : list E) ds a b :
  reachable xs ds -> Z.of_nat (length xs) <= usize_max -> a ∈ xs -> b ∈ xs ->
  exists u ds' rs rs', union a b ds = Some (u, ds') /\
    roots ds = Some rs /\ roots ds' = Some rs' /\
    length rs = (length rs' + if u then 1 else 0)%nat.
Proof.
  intros Hr Hlen Ha Hb. destruct (reachable_inv xs ds Hlen Hr) as [rt Hinv].
  pose proof (inv_wf _ _ _ Hinv) as Hwf.
  destruct (roots_inv xs ds rt Hinv) as (rs & Hrs & Hlrs).
  destruct (union_step xs ds rt a b Hinv Ha Hb) as (ia & ib & Hia & Hib & Hial & Hibl & Hcase).
  destruct Hcase as [(Hsame & P' & Hu & HC & Hinv') |
                     (Hdiff & sa & sb & big & small & P' & Hra & Hrb & Hbs & Hu & _ & _ & Hinv')].
  - destruct (roots_inv xs _ rt Hinv') as (rs' & Hrs' & Hlrs').
    exists false, (with_parents ds P'), rs, rs'. do 3 (split; [auto|]).
    cbn in Hlrs'. rewrite (compressed_roots _ rt P' Hwf HC) in Hlrs'. lia.
  - destruct (roots_inv xs _ _ Hinv') as (rs' & Hrs' & Hlrs').
    exists true, (with_parents ds P'), rs, rs'. do 3 (split; [auto|]).
    pose proof (inv_wf _ _ _ Hinv') as Hwf'. cbn in Hlrs', Hwf'.
    rewrite (root_idxs_count _ _ Hwf) in Hlrs.
    rewrite (root_idxs_count _ _ Hwf') in Hlrs'.
    assert (HlP : length P' = length (parents ds)).
    { rewrite (inv_length _ _ _ Hinv). apply (inv_length _ _ _ Hinv'). }
    rewrite HlP in Hlrs'.
    assert (Hl : (ia < length (parents ds))%nat /\ (ib < length (parents ds))%nat)
      by (rewrite (inv_length _ _ _ Hinv); auto).
    assert (Hsr : rt small = small /\ rt big = big /\ (small < length (parents ds))%nat).
    { destruct Hbs as [(_ & -> & ->)|(_ & -> & ->)].
      - split; [apply (wf_rt_self _ _ Hwf _ _ Hrb)|].
        split; [apply (wf_rt_self _ _ Hwf _ _ Hra)|]. apply (wf_rt_lt _ _ Hwf); lia.
      - split; [apply (wf_rt_self _ _ Hwf _ _ Hra)|].
        split; [apply (wf_rt_self _ _ Hwf _ _ Hrb)|]. apply (wf_rt_lt _ _ Hwf); lia. }
    destruct Hsr as (Hss & Hbb & Hsl).
    assert (Hsb : small <> big) by (destruct Hbs as [(_ & -> & ->)|(_ & -> & ->)]; auto).
    rewrite (filter_drop_one (seq 0 (length (parents ds)))
               (fun j => merge rt small big j = j) (fun j => rt j = j) small) in Hlrs.
    + lia.
    + apply NoDup_seq.
    + apply elem_of_seq. lia.
    + auto.
    + intros j. unfold merge. case_decide as Hc.
      * split; [intros Hj; subst j; congruence|lia].
      * split; [intros Hj; split; [auto|lia]|tauto].
Qed.

(** In every reachable state of a roster without duplicates, [union(a, b)]
    and [union(b, a)] on roster elements return the same value and leave
    the same sets: they differ at most in which root survives. *)
Theorem union_symmetric (xs : list E) ds a b :
  reachable xs ds -> NoDup xs -> Z.of_nat (length xs) <= usize_max -> a ∈ xs -> b ∈ xs ->
  exists u ds1 ds2, union a b ds = Some (u, ds1) /\ union b a ds = Some (u, ds2) /\
    forall x y, x ∈ xs -> y ∈ xs -> same_set ds1 x y = same_set ds2 x y.
Proof.
  intros Hr Hnd Hlen Ha Hb. destruct (reachable_inv xs ds Hlen Hr) as [rt Hinv].
  destruct (union_partition xs ds rt a b Hnd Hinv Ha Hb) as (u1 & ds1 & rt1 & Hu1 & _ & Hb1 & H1).
  destruct (union_partition xs ds rt b a Hnd Hinv Hb Ha) as (u2 & ds2 & rt2 & Hu2 & _ & Hb2 & H2).
  rewrite (same_set_sym xs ds rt b a Hnd Hinv Hb Ha) in Hb2.
  assert (u2 = u1) as ->.
  { destruct u1, u2; auto;
      [pose proof (proj2 Hb2 (proj1 Hb1 eq_refl)) | pose proof (proj2 Hb1 (proj1 Hb2 eq_refl))];
      discriminate. }
  exists u1, ds1, ds2. do 2 (split; [auto|]).
  intros x y Hx Hy. apply Bool.eq_iff_eq_true. rewrite (H1 x y Hx Hy), (H2 x y Hx Hy). tauto.
Qed.

End S.

(** Witnesses on the roster [1; 2; 3] in its initial state. *)

Ltac roster_facts :=
  assert (Hr : reachable [1; 2; 3]%nat (create [1; 2; 3]%nat)) by apply reachable_create;
  assert (Hnd : NoDup [1; 2; 3]%nat)
    by (apply (bool_decide_unpack _); vm_compute; reflexivity);
  assert (Hb : Z.of_nat (length [1; 2; 3]%nat) <= usize_max)
    by (unfold usize_max; simpl; lia);
  assert (H1 : 1%nat ∈ [1; 2; 3]%nat)
    by (apply (bool_decide_unpack _); vm_compute; reflexivity);
  assert (H2 : 2%nat ∈ [1; 2; 3]%nat)
    by (apply (bool_decide_unpack _); vm_compute; reflexivity).

Lemma set_size_counts_witness :
  exists ds ds', run_unions [(1, 2); (3, 4); (1, 3)]%nat (create [1; 2; 3; 4; 5]%nat) = Some ds /\
    set_size 4%nat ds =
      Some (Z.of_nat (length (filter (fun x => same_set ds x 4%nat = true) [1; 2; 3; 4; 5]%nat)), ds') /\
    length (filter (fun x => same_set ds x 4%nat = true) [1; 2; 3; 4; 5]%nat) = 4%nat.
Proof.
  UFClaims.merged_state.
  assert (H4 : 4%nat ∈ [1; 2; 3; 4; 5]%nat)
    by (apply (bool_decide_unpack _); vm_compute; reflexivity).
  destruct (set_size_counts _ _ _ Hr3 Hnd Hb H4) as [ds' Hs].
  exists d3, ds'.
  split; [vm_compute; reflexivity|].
  split; [exact Hs|vm_compute; reflexivity].
Defined.

Lemma union_joins_two_sets_witness :
  exists u ds', union 1%nat 2%nat (create [1; 2; 3]%nat) = Some (u, ds') /\
    (u = true <-> same_set (create [1; 2; 3]%nat) 1%nat 2%nat = false).
Proof.
  roster_facts.
  destruct (union_joins_two_sets _ _ _ _ Hr Hnd Hb H1 H2) as (u & ds' & Hu & Hiff & _).
  exists u, ds'. split; assumption.
Defined.

Lemma union_roots_count_witness :
  exists u ds' rs rs', union 1%nat 2%nat (create [1; 2; 3]%nat) = Some (u, ds') /\
    roots (create [1; 2; 3]%nat) = Some rs /\ roots ds' = Some rs' /\
    length rs = (length rs' + if u then 1 else 0)%nat.
Proof.
  roster_facts. exact (union_roots_count _ _ _ _ Hr Hb H1 H2).
Defined.

Lemma union_symmetric_witness :
  exists u ds1 ds2, union 1%nat 2%nat (create [1; 2; 3]%nat) = Some (u, ds1) /\
    union 2%nat 1%nat (create [1; 2; 3]%nat) = Some (u, ds2).
Proof.
  roster_facts.
  destruct (union_symmetric _ _ _ _ Hr Hnd Hb H1 H2) as (u & ds1 & ds2 & Hu1 & Hu2 & _).
  exists u, ds1, ds2. split; assumption.
Defined.

End UFExtras.

(** ** Facts about the day 10 embedding *)

Module Day10Facts.
Import PF Collect Day10 Day10Inv.

Section Loop.
Context {N : Type} `{Countable N}.
Context (neighbors : N -> option (list (Edge N))) (start : N).

Lemma push_unseen_elem (seen : gset N) (es : list (Edge N)) : forall frontier x,
  x ∈ push_unseen seen es frontier <->
  x ∈ frontier \/ exists e, e ∈ es /\ dest e = x /\ x ∉ seen.
Proof.
  induction es as [|e es IH]; intros frontier x; simpl.
  - split; [auto|]. intros [Hx|(e & He & _)]; [auto|inversion He].
  - case_decide as Hd; rewrite IH.
    + split.
      * intros [Hx|(e' & He' & Hd' & Hn)]; [auto|right; exists e'; rewrite elem_of_cons; auto].
      * intros [Hx|(e' & He' & Hd' & Hn)]; [auto|].
        apply elem_of_cons in He' as [->|He']; [subst; contradiction|].
        right; eauto.
    + rewrite elem_of_app, list_elem_of_singleton. split.
      * intros [[Hx| ->]|(e' & He' & Hd' & Hn)].
        -- auto.
        -- right. exists e. rewrite elem_of_cons. auto.
        -- right. exists e'. rewrite elem_of_cons. auto.
      * intros [Hx|(e' & He' & Hd' & Hn)]; [auto|].
        apply elem_of_cons in He' as [->|He']; [auto|]. right; eauto.
Qed.

(** Nothing already seen is pushed. *)
Lemma push_unseen_filter (seen : gset N) (es : list (Edge N)) : forall frontier,
  length (filter (fun x => x ∈ seen) (push_unseen seen es frontier)) =
  length (filter (fun x => x ∈ seen) frontier).
Proof.
  induction es as [|e es IH]; intros frontier; simpl; [reflexivity|].
  case_decide; rewrite IH; [reflexivity|].
  rewrite filter_app, length_app, filter_cons, decide_False by auto. simpl. lia.
Qed.

Lemma minv_init : MInv neighbors start ∅ [start].
Proof.
  split.
  - intros x [Hx|Hx]; [set_solver|]. apply list_elem_of_singleton in Hx as ->. constructor.
  - right. apply list_elem_of_singleton. reflexivity.
  - set_solver.
Qed.

Lemma minv_step seen current frontier es :
  MInv neighbors start seen (current :: frontier) -> neighbors current = Some es ->
  MInv neighbors start ({[current]} ∪ seen) (push_unseen ({[current]} ∪ seen) es frontier).
Proof.
  intros Hi Hes.
  assert (Hcur : reaches neighbors start current)
    by (apply (mi_reach _ _ _ _ Hi); right; apply elem_of_cons; auto).
  split.
  - intros x [Hx|Hx].
    + apply elem_of_union in Hx as [Hx|Hx].
      * apply elem_of_singleton in Hx as ->. auto.
      * apply (mi_reach _ _ _ _ Hi). auto.
    + apply push_unseen_elem in Hx as [Hx|(e & He & <- & _)].
      * apply (mi_reach _ _ _ _ Hi). right. apply elem_of_cons. auto.
      * apply (reaches_step _ _ current es); auto.
  - destruct (mi_start _ _ _ _ Hi) as [Hs|Hs]; [left; set_solver|].
    apply elem_of_cons in Hs as [->|Hs]; [left; set_solver|].
    right. apply push_unseen_elem. auto.
  - intros n Hn.
    assert (Hpush : forall y, y ∈ {[current]} ∪ seen \/ y ∈ frontier ->
              y ∈ {[current]} ∪ seen \/ y ∈ push_unseen ({[current]} ∪ seen) es frontier).
    { intros y [Hy|Hy]; [auto|]. right. apply push_unseen_elem. auto. }
    apply elem_of_union in Hn as [Hn|Hn].
    + apply elem_of_singleton in Hn as ->. exists es. split; [auto|].
      intros e He. destruct (decide (dest e ∈ {[current]} ∪ seen)) as [Hd|Hd]; [auto|].
      right. apply push_unseen_elem. right. eauto.
    + destruct (mi_closed _ _ _ _ Hi n Hn) as (es' & Hes' & Hd).
      exists es'. split; [auto|]. intros e He. apply Hpush.
      destruct (Hd e He) as [Hx|Hx]; [left; set_solver|].
      apply elem_of_cons in Hx as [->|Hx]; [left; set_solver|auto].
Qed.

Lemma members_sound seen frontier r :
  members_loop neighbors seen frontier r -> MInv neighbors start seen frontier ->
  (forall S, r = Some S -> forall x, x ∈ S <-> reaches neighbors start x) /\
  (r = None -> exists x, reaches neighbors start x /\ neighbors x = None).
Proof.
  induction 1 as [seen|seen current frontier Hn|seen current frontier es r Hes Hrun IH];
    intros Hi.
  - split; [|discriminate]. intros S HS. injection HS as <-. intros x. split.
    + intros Hx. apply (mi_reach _ _ _ _ Hi). auto.
    + induction 1 as [|n es e Hr IHr Hn He].
      * destruct (mi_start _ _ _ _ Hi) as [Hs|Hs]; [auto|inversion Hs].
      * destruct (mi_closed _ _ _ _ Hi n IHr) as (es' & Hes' & Hd).
        rewrite Hn in Hes'. injection Hes' as <-.
        destruct (Hd e He) as [Hx|Hx]; [auto|inversion Hx].
  - split; [discriminate|]. intros _. exists current. split; [|auto].
    apply (mi_reach _ _ _ _ Hi). right. apply elem_of_cons. auto.
  - apply IH. apply (minv_step _ _ _ _ Hi Hes).
Qed.

Section Total.
Context (L : list N).
Hypothesis HL : forall n, n ∈ L ->
  exists es, neighbors n = Some es /\ forall e, e ∈ es -> dest e ∈ L.

(** The loop ends: each pop either sees a new node of [L] or drops an
    entry of a node already seen, and the entries it pushes are unseen. *)
Lemma members_total seen frontier : (forall x, x ∈ frontier -> x ∈ L) ->
  exists r, members_loop neighbors seen frontier r.
Proof.
  remember (length (filter (fun x => x ∉ seen) L)) as k eqn:Hk.
  revert seen frontier Hk. induction k as [k IHk] using (well_founded_induction lt_wf).
  intros seen frontier Hk.
  remember (length (filter (fun x => x ∈ seen) frontier)) as m eqn:Hm.
  revert frontier Hm. induction m as [m IHm] using (well_founded_induction lt_wf).
  intros frontier Hm HQ.
  destruct frontier as [|cur q]; [exists (Some seen); constructor|].
  assert (Hc : cur ∈ L) by (apply HQ; apply elem_of_cons; auto).
  destruct (HL cur Hc) as (es & Hes & Hdl).
  assert (HQ' : forall x, x ∈ push_unseen ({[cur]} ∪ seen) es q -> x ∈ L).
  { intros x Hx. apply push_unseen_elem in Hx as [Hx|(e & He & <- & _)];
      [apply HQ; apply elem_of_cons; auto|auto]. }
  destruct (decide (cur ∈ seen)) as [Hin|Hin].
  - assert (Hs : {[cur]} ∪ seen = seen) by (apply subseteq_union_1_L; set_solver).
    rewrite Hs in HQ'.
    destruct (IHm (length (filter (fun x => x ∈ seen) (push_unseen seen es q))))
      with (frontier := push_unseen seen es q) as [r Hr].
    + subst m. rewrite push_unseen_filter, filter_cons, decide_True by auto. simpl. lia.
    + reflexivity.
    + auto.
    + exists r. apply (ML_step _ _ _ _ es); auto. rewrite Hs. auto.
  - destruct (IHk (length (filter (fun x => x ∉ {[cur]} ∪ seen) L)))
      with (seen := {[cur]} ∪ seen) (frontier := push_unseen ({[cur]} ∪ seen) es q)
      as [r Hr].
    + subst k. assert (HQP : forall z, z ∉ {[cur]} ∪ seen -> z ∉ seen) by set_solver.
      apply (PFFacts.filter_length_lt _ _ HQP L cur); auto. set_solver.
    + reflexivity.
    + auto.
    + exists r. apply (ML_step _ _ _ _ es); auto.
Qed.

Lemma reaches_in x : start ∈ L -> reaches neighbors start x -> x ∈ L.
Proof.
  intros Hst. induction 1 as [|n es e Hr IH Hn He]; [auto|].
  destruct (HL n IH) as (es' & Hes' & Hd). rewrite Hn in Hes'. injection Hes' as <-. auto.
Qed.

End Total.
End Loop.

(** [Iterator::max]: the largest element, [None] on an empty list. *)
Lemma max_opt_spec (l : list nat) :
  match max_opt l with
  | Some k => k ∈ l /\ forall x, x ∈ l -> (x <= k)%nat
  | None => l = []
  end.
Proof.
  induction l as [|x l IH]; simpl; [reflexivity|].
  destruct (max_opt l) as [k|].
  - destruct IH as [Hk Hle]. split.
    + destruct (Nat.max_spec x k) as [[_ ->]|[_ ->]]; apply elem_of_cons; auto.
    + intros y Hy. apply elem_of_cons in Hy as [->|Hy]; [lia|]. specialize (Hle y Hy). lia.
  - subst l. split; [apply elem_of_cons; auto|]. intros y Hy.
    apply list_elem_of_singleton in Hy as ->. lia.
Qed.

End Day10Facts.

(** ** Properties of [collect::MoreItertools] and the day 10 binary *)

Module Day10Extras.
Import PF PFFacts Collect Day10 Day10Inv Day10Facts.

(** [drain_only] and [take_only] return [Ok(x)] exactly when the elements
    are the single [x]; otherwise the error message lists all the elements,
    in order. *)
Theorem drain_only_exactly_one {A : Type} (it : list A) :
  (forall x, drain_only it = Ok x <-> it = [x]) /\
  (forall v, drain_only it = Err v -> v = it /\ length it <> 1%nat) /\
  (forall x, take_only it = Ok x <-> it = [x]) /\
  (forall v, take_only it = Err v -> v = it /\ length it <> 1%nat).
Proof.
  assert (Hd : (forall x, drain_only it = Ok x <-> it = [x]) /\
               (forall v, drain_only it = Err v -> v = it /\ length it <> 1%nat)).
  { unfold drain_only, exactly_one, error_elements.
    destruct it as [|a [|b l]]; cbn; split.
    - intros x; split; discriminate.
    - intros v Hv. injection Hv as <-. split; [reflexivity|discriminate].
    - intros x; split; intros Hx; injection Hx as ->; reflexivity.
    - intros v Hv; discriminate.
    - intros x; split; discriminate.
    - intros v Hv. injection Hv as <-. split; [reflexivity|discriminate]. }
  unfold take_only. tauto.
Qed.

(** [Pipe::from_str] succeeds exactly on a one-character string whose
    character [try_from] accepts, and any other length is reported with all
    the characters; [try_from] accepts exactly [|], [-], [L], [J], [7], [F]
    and [S], gives distinct pipes for distinct characters, and produces
    every pipe. *)
Theorem pipe_from_str :
  (forall s p, from_str s = Ok p <-> exists c, s = [c] /\ try_from c = Ok p) /\
  (forall s, length s <> 1%nat -> from_str s = Err (Contents s)) /\
  (forall c, (exists p, try_from c = Ok p) <->
             c ∈ map char_of ["|"; "-"; "L"; "J"; "7"; "F"; "S"]%char) /\
  (forall c1 c2 p, try_from c1 = Ok p -> try_from c2 = Ok p -> c1 = c2) /\
  (forall p, exists c, try_from c = Ok p).
Proof.
  split; [|split; [|split; [|split]]].
  - intros s p. unfold from_str, drain_only, exactly_one.
    destruct s as [|c [|c' l]]; cbn.
    + split; [discriminate|]. intros (c & Hc & _). discriminate.
    + destruct (try_from c) as [q|v] eqn:Ht; split.
      * intros Hq. injection Hq as <-. eauto.
      * intros (c0 & Hc0 & Hp). injection Hc0 as <-. congruence.
      * discriminate.
      * intros (c0 & Hc0 & Hp). injection Hc0 as <-. congruence.
    + split; [discriminate|]. intros (c0 & Hc0 & _). discriminate.
  - intros s Hs. unfold from_str, drain_only, exactly_one, error_elements.
    destruct s as [|c [|c' l]]; cbn; [reflexivity|simpl in Hs; lia|reflexivity].
  - intros c. split.
    + intros [p Hp]. unfold try_from in Hp.
      repeat case_decide; subst;
        try (apply (bool_decide_unpack _); vm_compute; reflexivity); discriminate.
    + intros Hc. cbn in Hc.
      repeat (apply elem_of_cons in Hc as [->|Hc]; [vm_compute; eauto|]).
      apply elem_of_nil in Hc. contradiction.
  - intros c1 c2 p. unfold try_from. repeat case_decide; intros; congruence.
  - intros p. destruct p;
      [exists (char_of "|"%char)|exists (char_of "-"%char)|exists (char_of "L"%char)
      |exists (char_of "J"%char)|exists (char_of "7"%char)|exists (char_of "F"%char)
      |exists (char_of "S"%char)]; vm_compute; reflexivity.
Qed.

(** What [Display] writes for a pipe cannot be read back: [Pipe::to_char]
    gives each pipe its own box-drawing character, and [Pipe::from_str]
    rejects each of them with the invalid-character error. *)
Theorem display_not_parsed :
  (forall p q, to_char p = to_char q -> p = q) /\
  (forall p, from_str [to_char p] = Err (Invalid (to_char p))).
Proof.
  split.
  - intros [] []; cbn; intros Hpq; try reflexivity; discriminate.
  - intros []; vm_compute; reflexivity.
Qed.

Section Loop.
Context {N : Type} `{Countable N}.

(** Whenever [loop_members] returns, its set is exactly the nodes
    reachable from the start along the edges [neighbors] gives, and
    [neighbors] panics at none of them; whenever it panics, some node
    reachable from the start makes [neighbors] panic. *)
Theorem loop_members_reachable (neighbors : N -> option (list (Edge N))) start r :
  loop_members neighbors start r ->
  (forall S, r = Some S ->
     (forall x, x ∈ S <-> reaches neighbors start x) /\
     (forall x, reaches neighbors start x -> exists es, neighbors x = Some es)) /\
  (r = None -> exists x, reaches neighbors start x /\ neighbors x = None).
Proof.
  intros Hr.
  pose proof (members_sound neighbors start _ _ _ Hr (minv_init neighbors start)) as [Hs Hn].
  split; [|exact Hn].
  intros S HS. split; [apply Hs; auto|].
  intros x Hx. apply (Hs S HS) in Hx.
  assert (Hi : MInv neighbors start S []).
  { clear Hn. subst r. remember (Some S) as r' eqn:Hr'. remember (∅ : gset N) as s0.
    remember [start] as f0. clear Heqs0 Heqf0.
    assert (Hg : forall seen frontier, members_loop neighbors seen frontier r' ->
              MInv neighbors start seen frontier -> MInv neighbors start S []).
    { induction 1 as [seen|seen current frontier Hn|seen current frontier es r Hes Hrun IH];
        intros Hi; [injection Hr' as <-; auto|discriminate|].
      apply IH; auto. apply (minv_step _ _ _ _ _ _ Hi Hes). }
    apply (Hg _ _ Hr). apply minv_init. }
  destruct (mi_closed _ _ _ _ Hi x Hx) as (es & Hes & _). eauto.
Qed.

(** When the nodes reachable from the start lie in a finite set [L] on
    which [neighbors] does not panic and which holds the destinations of
    its edges, [loop_members] returns and never panics, although a node
    may be queued many times over. *)
Theorem loop_members_total (neighbors : N -> option (list (Edge N))) start (L : list N) :
  (forall n, n ∈ L -> exists es, neighbors n = Some es /\ forall e, e ∈ es -> dest e ∈ L) ->
  start ∈ L ->
  (exists S, loop_members neighbors start (Some S)) /\
  forall r, loop_members neighbors start r -> exists S, r = Some S.
Proof.
  intros HL Hst.
  assert (Hsome : forall r, loop_members neighbors start r -> exists S, r = Some S).
  { intros r Hr. destruct r as [S|]; [eauto|].
    destruct (proj2 (members_sound neighbors start _ _ _ Hr (minv_init neighbors start)) eq_refl)
      as (x & Hx & Hn).
    destruct (HL x (reaches_in neighbors start L HL x Hst Hx)) as (es & Hes & _).
    congruence. }
  split; [|exact Hsome].
  destruct (members_total neighbors L HL ∅ [start]) as [r Hr].
  - intros x Hx. apply list_elem_of_singleton in Hx as ->. auto.
  - destruct (Hsome r Hr) as [S ->]. eauto.
Qed.

(** [loop_distance] over the routes [bfs_all] returns, for a graph whose
    nodes reachable from the start lie in a finite set closed under
    [neighbors]: it does not panic, and it is the largest, over the
    reachable nodes, of the fewest edges from the start. *)
Theorem loop_distance_farthest (neighbors : N -> list (Edge N)) start (L : list N) :
  closed neighbors L -> start ∈ L ->
  (exists m, bfs_all neighbors start m) /\
  forall m, bfs_all neighbors start m ->
    exists d, loop_distance m = Some d /\
      (exists t q, is_path neighbors start q t /\ length q = d /\
         forall q', is_path neighbors start q' t -> (d <= length q')%nat) /\
      (forall t q, is_path neighbors start q t ->
         exists q', is_path neighbors start q' t /\ (length q' <= d)%nat).
Proof.
  intros HL Hst. split; [apply (bfs_total neighbors start L HL Hst); apply binv_init|].
  intros m Hm.
  destruct (binv_final neighbors start m
              (bfs_loop_sound neighbors start _ _ _ Hm (binv_init neighbors start)))
    as [Hdom Hrt].
  unfold loop_distance.
  pose proof (max_opt_spec (map (fun kv => length kv.2) (map_to_list m))) as Hmax.
  destruct (max_opt (map (fun kv => length kv.2) (map_to_list m))) as [k|] eqn:Hk.
  - destruct Hmax as [Hkin Hle].
    apply list_elem_of_fmap in Hkin as ([t0 r0] & -> & Hin). cbn in *.
    apply elem_of_map_to_list in Hin.
    destruct (Hrt t0 r0 Hin) as [Hr0 Hsh0].
    destruct (route_path neighbors _ _ _ Hr0) as (q0 & Hq0 & Hl0).
    rewrite <- Hl0. exists (length q0). split; [reflexivity|]. split.
    + exists t0, q0. split; [auto|]. split; [reflexivity|].
      intros q' Hq'. specialize (Hsh0 q' Hq'). lia.
    + intros t q Hq. destruct (proj2 (Hdom t) (ex_intro _ q Hq)) as [r Hr].
      destruct (Hrt t r Hr) as [Hrr _].
      destruct (route_path neighbors _ _ _ Hrr) as (q' & Hq' & Hl').
      exists q'. split; [auto|].
      assert (Hlr : (length r <= length r0)%nat).
      { apply Hle. apply list_elem_of_fmap. exists (t, r).
        split; [reflexivity|]. apply elem_of_map_to_list. auto. }
      lia.
  - exfalso. destruct (proj2 (Hdom start) (ex_intro _ [] eq_refl)) as [r Hr].
    apply elem_of_map_to_list in Hr. apply map_eq_nil in Hmax. rewrite Hmax in Hr. inversion Hr.
Qed.

End Loop.

(** Witnesses: [diamond] on the nodes 0 to 3, and the diamond [tiny] of the
    pathfinding section. *)

Lemma diamond_closed : forall n, n ∈ [0; 1; 2; 3]%nat ->
  exists es, diamond n = Some es /\ forall e, e ∈ es -> dest e ∈ [0; 1; 2; 3]%nat.
Proof.
  intros n Hn.
  repeat (apply elem_of_cons in Hn as [->|Hn]);
    [..|apply elem_of_nil in Hn; contradiction];
    (eexists; split; [reflexivity|]); intros e He;
    repeat (apply elem_of_cons in He as [->|He]);
    try (apply elem_of_nil in He; contradiction);
    apply (bool_decide_unpack _); vm_compute; reflexivity.
Qed.

Lemma loop_members_reachable_witness :
  exists r, loop_members diamond 0%nat r /\
    forall S, r = Some S -> forall x, x ∈ S <-> reaches diamond 0%nat x.
Proof.
  destruct (members_total diamond [0; 1; 2; 3]%nat diamond_closed ∅ [0%nat]) as [r Hr].
  - intros x Hx. apply list_elem_of_singleton in Hx as ->.
    apply (bool_decide_unpack _). vm_compute. reflexivity.
  - exists r. split; [exact Hr|].
    intros S HS. exact (proj1 (proj1 (loop_members_reachable diamond 0%nat r Hr) S HS)).
Defined.

Lemma loop_members_total_witness :
  exists S, loop_members diamond 0%nat (Some S).
Proof.
  assert (Hs : 0%nat ∈ [0; 1; 2; 3]%nat).
  { apply (bool_decide_unpack _). vm_compute. reflexivity. }
  exact (proj1 (loop_members_total diamond 0%nat [0; 1; 2; 3]%nat diamond_closed Hs)).
Defined.

Lemma loop_distance_farthest_witness :
  closed tiny [0; 1; 2]%nat /\ exists m, bfs_all tiny 0%nat m.
Proof.
  assert (HL : closed tiny [0; 1; 2]%nat).
  { unfold closed. apply (bool_decide_unpack _). vm_compute. reflexivity. }
  assert (Hs : 0%nat ∈ [0; 1; 2]%nat).
  { apply (bool_decide_unpack _). vm_compute. reflexivity. }
  split; [exact HL|].
  exact (proj1 (loop_distance_farthest tiny 0%nat [0; 1; 2]%nat HL Hs)).
Defined.

End Day10Extras.

(** ** Facts about the day 25 embedding *)

Module Day25Facts.
Import Day25.
Section S.
Context {N : Type} `{Countable N}.

Lemma occ_nil (x : N) : occurrences x [] = O.
Proof. reflexivity. Qed.

Lemma occ_cons (x y : N) l :
  occurrences x (y :: l) = ((if decide (y = x) then 1 else 0) + occurrences x l)%nat.
Proof. unfold occurrences. rewrite filter_cons. case_decide; reflexivity. Qed.

Lemma occ_app (x : N) l1 l2 : occurrences x (l1 ++ l2) = (occurrences x l1 + occurrences x l2)%nat.
Proof. unfold occurrences. rewrite filter_app, length_app. reflexivity. Qed.

Lemma occ_pos (x : N) l : (0 < occurrences x l)%nat <-> x ∈ l.
Proof.
  induction l as [|y l IH]; [rewrite occ_nil; split; [lia|intros Hx; inversion Hx]|].
  rewrite occ_cons, elem_of_cons. case_decide; [split; [auto|lia]|].
  rewrite <- IH. split; [lia|]. intros [->|Hx]; [congruence|lia].
Qed.

Lemma push_edge_spec (k v : N) c : is_Some (edges c !! k) ->
  exists c', push_edge k v c = Some c' /\
    (forall x, is_Some (edges c' !! x) <-> is_Some (edges c !! x)) /\
    forall a, dests_of c' a = if decide (a = k) then dests_of c a ++ [v] else dests_of c a.
Proof.
  intros [l Hl]. unfold push_edge. rewrite Hl.
  eexists; split; [reflexivity|]. split.
  - intros x. cbn. rewrite lookup_insert_is_Some'. split; [intros [->|Hx]; eauto|tauto].
  - intros a. unfold dests_of. cbn. case_decide as Ha.
    + subst a. rewrite lookup_insert_eq, Hl. reflexivity.
    + rewrite lookup_insert_ne by congruence. reflexivity.
Qed.

Lemma intern_spec (node : N) c :
  (intern node c).1 = node /\
  (forall x, is_Some (edges (intern node c).2 !! x) <-> x = node \/ is_Some (edges c !! x)) /\
  forall a, dests_of (intern node c).2 a = dests_of c a.
Proof.
  unfold intern. destruct (edges c !! node) as [l|] eqn:Hn; cbn.
  - split; [reflexivity|]. split; [|reflexivity].
    intros x. split; [auto|]. intros [->|Hx]; [rewrite Hn|]; eauto.
  - split; [reflexivity|]. split.
    + intros x. rewrite lookup_insert_is_Some'. split; intros [Hx|Hx]; auto.
    + intros a. unfold dests_of. cbn. destruct (decide (a = node)) as [->|Ha].
      * rewrite lookup_insert_eq, Hn. reflexivity.
      * rewrite lookup_insert_ne by congruence. reflexivity.
Qed.

Lemma create_dests_spec (source : N) dests : forall c, is_Some (edges c !! source) ->
  exists c', create_dests source dests c = Some c' /\
    (forall x, is_Some (edges c' !! x) <-> x ∈ dests \/ is_Some (edges c !! x)) /\
    forall a b, occurrences b (dests_of c' a) =
      (occurrences b (dests_of c a) +
       (if decide (a = source) then occurrences b dests else 0) +
       (if decide (b = source) then occurrences a dests else 0))%nat.
Proof.
  induction dests as [|d dests IH]; intros c Hs.
  - exists c. split; [reflexivity|]. split.
    + intros x. split; [auto|]. intros [Hx|Hx]; [inversion Hx|auto].
    + intros a b. rewrite !occ_nil. repeat case_decide; lia.
  - simpl. destruct (intern_spec d c) as (Hd1 & Hdom1 & Hdst1).
    destruct (intern d c) as [d' c1] eqn:Hi. cbn in Hd1, Hdom1, Hdst1. subst d'.
    destruct (push_edge_spec source d c1) as (c2 & Hp2 & Hdom2 & Hdst2);
      [apply Hdom1; auto|].
    rewrite Hp2. cbn [mbind option_bind].
    destruct (push_edge_spec d source c2) as (c3 & Hp3 & Hdom3 & Hdst3);
      [apply Hdom2, Hdom1; auto|].
    rewrite Hp3. cbn [mbind option_bind].
    destruct (IH c3) as (c4 & Hc4 & Hdom4 & Hdst4); [apply Hdom3, Hdom2, Hdom1; auto|].
    exists c4. split; [exact Hc4|]. split.
    + intros x. rewrite Hdom4, Hdom3, Hdom2, Hdom1, elem_of_cons. tauto.
    + intros a b. rewrite Hdst4, Hdst3, Hdst2, Hdst1, !occ_cons.
      repeat case_decide; subst; rewrite ?occ_app, ?occ_cons, ?occ_nil in *;
        repeat case_decide; subst; try lia; try congruence.
Qed.

Lemma create_from_spec (connections : list (N * list N)) : forall (c : Components N),
  exists c', create_from connections c = Some c' /\
    (forall x, is_Some (edges c' !! x) <->
       (exists s ds, (s, ds) ∈ connections /\ (x = s \/ x ∈ ds)) \/ is_Some (edges c !! x)) /\
    forall a b, occurrences b (dests_of c' a) =
      (occurrences b (dests_of c a) + listed connections a b + listed connections b a)%nat.
Proof.
  induction connections as [|[s ds] connections IH]; intros c.
  - exists c. split; [reflexivity|]. split.
    + intros x. split; [auto|]. intros [(s & ds & Hin & _)|Hx]; [inversion Hin|auto].
    + intros a b. simpl. lia.
  - simpl. destruct (intern_spec s c) as (Hs1 & Hdom1 & Hdst1).
    destruct (intern s c) as [s' c1] eqn:Hi. cbn in Hs1, Hdom1, Hdst1. subst s'.
    destruct (create_dests_spec s ds c1) as (c2 & Hc2 & Hdom2 & Hdst2); [apply Hdom1; auto|].
    rewrite Hc2. cbn [mbind option_bind].
    destruct (IH c2) as (c3 & Hc3 & Hdom3 & Hdst3).
    exists c3. split; [exact Hc3|]. split.
    + intros x. rewrite Hdom3, Hdom2, Hdom1. split.
      * intros [(s' & ds' & Hin & Hx)|[Hx|[->|Hx]]].
        -- left. exists s', ds'. rewrite elem_of_cons. auto.
        -- left. exists s, ds. rewrite elem_of_cons. auto.
        -- left. exists s, ds. rewrite elem_of_cons. auto.
        -- auto.
      * intros [(s' & ds' & Hin & Hx)|Hx]; [|auto].
        apply elem_of_cons in Hin as [Heq|Hin]; [injection Heq as -> ->|].
        -- destruct Hx as [->|Hx]; auto.
        -- left. eauto.
    + intros a b. rewrite Hdst3, Hdst2, Hdst1. repeat case_decide; subst; try congruence; lia.
Qed.

Lemma position_some (d : N) l i : position d l = Some i -> l !! i = Some d.
Proof.
  revert i. induction l as [|v l IH]; intros i; simpl; [discriminate|].
  case_decide as Hv; [intros Hi; injection Hi as <-; subst; reflexivity|].
  destruct (position d l) as [j|] eqn:Hj; cbn; [|discriminate].
  intros Hi. injection Hi as <-. simpl. apply IH. reflexivity.
Qed.

Lemma position_elem (d : N) l : d ∈ l -> exists i, position d l = Some i.
Proof.
  induction l as [|v l IH]; intros Hd; [inversion Hd|]. simpl.
  case_decide as Hv; [eauto|].
  apply elem_of_cons in Hd as [->|Hd]; [congruence|].
  destruct (IH Hd) as [i Hi]. rewrite Hi. eauto.
Qed.

Lemma position_none (d : N) l : d ∉ l -> position d l = None.
Proof.
  intros Hd. destruct (position d l) as [i|] eqn:Hi; [|reflexivity].
  exfalso. apply Hd. eapply list_elem_of_lookup_2. apply position_some. eauto.
Qed.

(** [swap_remove] returns the element and leaves the others, reordered. *)
Lemma swap_remove_perm (l : list N) i v : l !! i = Some v ->
  exists l', swap_remove l i = Some (v, l') /\ l' ≡ₚ delete i l.
Proof.
  intros Hv. destruct (list_elem_of_split_length l i v Hv) as (pre & post & -> & ->).
  unfold swap_remove. rewrite Hv. clear Hv.
  destruct post as [|p post] using rev_ind.
  - rewrite last_snoc. eexists; split; [reflexivity|].
    rewrite length_app. simpl. rewrite Nat.add_sub.
    rewrite list_insert_id by (rewrite list_lookup_middle; auto).
    rewrite take_app_length, delete_middle, app_nil_r. reflexivity.
  - rewrite app_comm_cons, app_assoc, last_snoc, <- app_assoc, <- app_comm_cons.
    eexists; split; [reflexivity|].
    rewrite (insert_app_r_alt pre) by lia. rewrite Nat.sub_diag. simpl.
    rewrite delete_middle.
    replace (pre ++ p :: post ++ [p]) with ((pre ++ p :: post) ++ [p]) by (rewrite <- app_assoc; reflexivity).
    rewrite (take_app_length' (pre ++ p :: post) [p]).
    + apply Permutation_app_head. apply Permutation_cons_append.
    + rewrite !length_app. simpl. rewrite length_app. simpl. lia.
Qed.

Lemma rm_dir_spec (s d : N) c : d ∈ dests_of c s ->
  exists c', rm_dir s d c = Some c' /\
    (forall x, is_Some (edges c' !! x) <-> is_Some (edges c !! x)) /\
    forall a b, (occurrences b (dests_of c' a) +
                 (if decide (a = s /\ b = d) then 1 else 0))%nat =
                occurrences b (dests_of c a).
Proof.
  intros Hd. unfold dests_of in Hd.
  destruct (edges c !! s) as [dirs|] eqn:Hs; cbn in Hd; [|inversion Hd].
  destruct (position_elem d dirs Hd) as [i Hi].
  destruct (swap_remove_perm dirs i d (position_some d dirs i Hi)) as (dirs' & Hsr & Hp).
  unfold rm_dir. rewrite Hs. cbn [mbind option_bind]. rewrite Hi. cbn [mbind option_bind].
  rewrite Hsr. cbn. rewrite decide_True by reflexivity.
  eexists; split; [reflexivity|]. split.
  - intros x. cbn. rewrite lookup_insert_is_Some'. split; [intros [->|Hx]; eauto|tauto].
  - intros a b. unfold dests_of. cbn. destruct (decide (a = s)) as [->|Ha].
    + rewrite lookup_insert_eq, Hs. cbn.
      assert (Hl : length (filter (fun y => y = b) dirs) =
                   length (filter (fun y => y = b) (d :: dirs'))).
      { apply Permutation_length. apply filter_Permutation.
        rewrite Hp. apply delete_Permutation. apply position_some. auto. }
      unfold occurrences. rewrite Hl, filter_cons. repeat case_decide; subst; simpl; try lia; naive_solver.
    + rewrite lookup_insert_ne by congruence. case_decide; [tauto|lia].
Qed.

Lemma rm_dir_none (s d : N) c : d ∉ dests_of c s -> rm_dir s d c = None.
Proof.
  intros Hd. unfold rm_dir, dests_of in *.
  destruct (edges c !! s) as [dirs|]; cbn in *; [|reflexivity].
  rewrite position_none by auto. reflexivity.
Qed.

End S.
End Day25Facts.

Module Day25More.
Import Day25 Day25Facts.
Section S.
Context {N : Type} `{Countable N}.

Lemma remove_edge_some (s d : N) c c' : remove_edge s d c = Some c' ->
  (forall x, is_Some (edges c' !! x) <-> is_Some (edges c !! x)) /\
  forall x y, (occurrences y (dests_of c' x) +
               (if decide (x = s /\ y = d) then 1 else 0) +
               (if decide (x = d /\ y = s) then 1 else 0))%nat =
              occurrences y (dests_of c x).
Proof.
  unfold remove_edge. intros Hr.
  destruct (rm_dir s d c) as [c1|] eqn:H1; cbn in Hr; [|discriminate].
  destruct (decide (d ∈ dests_of c s)) as [Hd1|Hd1]; [|rewrite rm_dir_none in H1 by auto; discriminate].
  destruct (rm_dir_spec s d c Hd1) as (c1' & H1' & Hdom1 & Hocc1).
  rewrite H1 in H1'. injection H1' as <-.
  destruct (decide (s ∈ dests_of c1 d)) as [Hd2|Hd2]; [|rewrite rm_dir_none in Hr by auto; discriminate].
  destruct (rm_dir_spec d s c1 Hd2) as (c2 & H2 & Hdom2 & Hocc2).
  rewrite H2 in Hr. injection Hr as <-.
  split; [intros x; rewrite Hdom2, Hdom1; reflexivity|].
  intros x y. rewrite <- Hocc1, <- Hocc2. lia.
Qed.

Lemma pairs_cons (es : list (N * N)) e a b :
  pairs (e :: es) a b = ((if decide (e = (a, b)) then 1 else 0) + pairs es a b)%nat.
Proof. unfold pairs. rewrite filter_cons. case_decide; reflexivity. Qed.

End S.
End Day25More.

Module Day25Extras.
Import Day25 Day25Facts Day25More.
Section S.
Context {N : Type} `{Countable N}.

(** [Components::create] never panics on its [expect("Interned")]: every
    endpoint is interned before an edge is pushed. Its keys are exactly the
    sources and destinations of the connections, and the graph is
    undirected: [b] appears in the adjacency list of [a] (the destinations
    of [neighbors c a]) once per listing of [a: b] and once per listing of
    [b: a]. *)
Theorem create_undirected (connections : list (N * list N)) :
  exists c, create connections = Some c /\
    (forall x, is_Some (edges c !! x) <->
       exists s ds, (s, ds) ∈ connections /\ (x = s \/ x ∈ ds)) /\
    forall a b, occurrences b (map PF.dest (neighbors c a)) =
                (listed connections a b + listed connections b a)%nat.
Proof.
  destruct (create_from_spec connections (mkComponents ∅)) as (c & Hc & Hdom & Hocc).
  exists c. split; [exact Hc|]. split.
  - intros x. rewrite Hdom. cbn. rewrite lookup_empty.
    split; [intros [Hx|Hx]; [exact Hx|inversion Hx; discriminate]|auto].
  - intros a b. unfold neighbors. rewrite map_map. cbn. rewrite map_id.
    rewrite Hocc. unfold dests_of. cbn. rewrite lookup_empty. cbn. lia.
Qed.

(** [Components::remove_edge] panics unless [dest] is in the adjacency list
    of [source] and [source] in that of [dest] (for a self-loop, twice). When
    both are there it succeeds, keeps the set of nodes, and removes exactly
    one copy of [dest] from [source]'s list and one copy of [source] from
    [dest]'s list, leaving every other count unchanged. *)
Theorem remove_edge_counts (c : Components N) (s d : N) :
  (occurrences d (dests_of c s) = O -> remove_edge s d c = None) /\
  ((if decide (s = d) then 2 else 1) <= occurrences d (dests_of c s) ->
   1 <= occurrences s (dests_of c d) ->
   exists c', remove_edge s d c = Some c' /\
     (forall x, is_Some (edges c' !! x) <-> is_Some (edges c !! x)) /\
     forall x y, (occurrences y (dests_of c' x) +
                  (if decide (x = s /\ y = d) then 1 else 0) +
                  (if decide (x = d /\ y = s) then 1 else 0))%nat =
                 occurrences y (dests_of c x))%nat.
Proof.
  split.
  - intros H0. unfold remove_edge. rewrite rm_dir_none; [reflexivity|].
    rewrite <- occ_pos. lia.
  - intros H1 H2.
    assert (Hd1 : d ∈ dests_of c s) by (apply occ_pos; case_decide; lia).
    destruct (rm_dir_spec s d c Hd1) as (c1 & Hc1 & Hdom1 & Hocc1).
    assert (Hd2 : s ∈ dests_of c1 d).
    { apply occ_pos. specialize (Hocc1 d s).
      destruct (decide (d = s /\ s = d)) as [[-> _]|Hn].
      - rewrite decide_True in H1 by reflexivity. lia.
      - lia. }
    destruct (rm_dir_spec d s c1 Hd2) as (c2 & Hc2 & Hdom2 & Hocc2).
    exists c2. split; [unfold remove_edge; rewrite Hc1; exact Hc2|]. split.
    + intros x. rewrite Hdom2, Hdom1. reflexivity.
    + intros x y. rewrite <- Hocc1, <- Hocc2. lia.
Qed.

(** Every edge read from the input can be cut from the graph [create]
    builds: for a connection [s: ... d ...], [remove_edge s d] does not
    panic. *)
Theorem create_then_remove (connections : list (N * list N)) (s d : N) (ds : list N) :
  (s, ds) ∈ connections -> d ∈ ds ->
  exists c c', create connections = Some c /\ remove_edge s d c = Some c'.
Proof.
  intros Hin Hd.
  destruct (create_from_spec connections (mkComponents ∅)) as (c & Hc & _ & Hocc).
  assert (Hl : forall a b, occurrences b (dests_of c a) =
                           (listed connections a b + listed connections b a)%nat).
  { intros a b. rewrite Hocc. unfold dests_of. cbn. rewrite lookup_empty. cbn. lia. }
  assert (Hpos : (1 <= listed connections s d)%nat).
  { clear -Hin Hd. induction connections as [|[s' ds'] cs IH]; [inversion Hin|].
    simpl. apply elem_of_cons in Hin as [Heq|Hin].
    - injection Heq as -> ->. rewrite decide_True by reflexivity.
      apply occ_pos in Hd. lia.
    - specialize (IH Hin). lia. }
  destruct (proj2 (remove_edge_counts c s d)) as (c' & Hc' & _).
  - rewrite Hl. case_decide; subst; lia.
  - rewrite Hl. lia.
  - exists c, c'. split; [exact Hc|exact Hc'].
Qed.

(** [Components::remove_edges] removes the pairs one after the other: when
    it does not panic, the nodes are unchanged and each pair [(x, y)] in
    the list has taken one [y] out of [x]'s list and one [x] out of [y]'s
    list. *)
Theorem remove_edges_counts (es : list (N * N)) (c c' : Components N) :
  remove_edges es c = Some c' ->
  (forall x, is_Some (edges c' !! x) <-> is_Some (edges c !! x)) /\
  forall x y, (occurrences y (dests_of c' x) + pairs es x y + pairs es y x)%nat =
              occurrences y (dests_of c x).
Proof.
  revert c. induction es as [|[s d] es IH]; intros c Hr.
  - cbn in Hr. injection Hr as <-. split; [reflexivity|]. intros x y.
    unfold pairs. cbn. lia.
  - cbn in Hr. destruct (remove_edge s d c) as [c1|] eqn:H1; cbn in Hr; [|discriminate].
    destruct (remove_edge_some s d c c1 H1) as [Hdom1 Hocc1].
    destruct (IH c1 Hr) as [Hdom2 Hocc2].
    split; [intros x; rewrite Hdom2, Hdom1; reflexivity|].
    intros x y. rewrite !pairs_cons, <- Hocc1, <- Hocc2.
    repeat case_decide; simplify_eq; try lia; naive_solver.
Qed.

End S.

Definition sample : list (Z * list Z) := [(1, [2; 3]); (2, [3]); (4, [1])].

Lemma create_then_remove_witness :
  exists c c', create sample = Some c /\ remove_edge 1 3 c = Some c'.
Proof.
  apply (create_then_remove sample 1 3 [2; 3]).
  - unfold sample. apply elem_of_cons. left. reflexivity.
  - apply elem_of_cons. right. apply elem_of_cons. left. reflexivity.
Defined.

Lemma remove_edges_counts_witness :
  exists c c', create sample = Some c /\ remove_edges [(1, 3); (4, 1)] c = Some c' /\
    occurrences 3 (dests_of c' 1) = O /\ occurrences 1 (dests_of c' 4) = O.
Proof.
  pose (c := match create sample with Some c => c | None => mkComponents ∅ end).
  pose (c' := match remove_edges [(1, 3); (4, 1)] c with Some c' => c' | None => c end).
  assert (Hc : create sample = Some c) by (vm_compute; reflexivity).
  assert (Hr : remove_edges [(1, 3); (4, 1)] c = Some c') by (vm_compute; reflexivity).
  exists c, c'. split; [exact Hc|]. split; [exact Hr|].
  destruct (remove_edges_counts [(1, 3); (4, 1)] c c' Hr) as [_ Hocc].
  pose proof (Hocc 1 3) as H13. pose proof (Hocc 4 1) as H41.
  assert (P1 : pairs [(1, 3); (4, 1)] 1 3 = 1%nat) by (vm_compute; reflexivity).
  assert (P2 : pairs [(1, 3); (4, 1)] 3 1 = 0%nat) by (vm_compute; reflexivity).
  assert (P3 : pairs [(1, 3); (4, 1)] 4 1 = 1%nat) by (vm_compute; reflexivity).
  assert (P4 : pairs [(1, 3); (4, 1)] 1 4 = 0%nat) by (vm_compute; reflexivity).
  assert (O1 : occurrences 3 (dests_of c 1) = 1%nat) by (vm_compute; reflexivity).
  assert (O2 : occurrences 1 (dests_of c 4) = 1%nat) by (vm_compute; reflexivity).
  split; lia.
Defined.

End Day25Extras.
